(** * Throttling and retry helpers of the image-editing server

    A shallow embedding of the module-scope helpers of the server entry
    point: the [Throttler] class, [parseRetryDelayMs], [isRateLimited],
    [withRetries] and the status mapping of the [/api/edit-image] catch
    handler, together with the host functions they call
    ([String.prototype.includes], [JSON.parse], [parseFloat], [Math.ceil]);
    then of the handler of [POST /api/edit-image] itself and of the checks
    that the web client makes before and after it calls the handler
    ([handleFile], [canSubmit], [mutationFn], [onError]).

    Conventions.
    - A JavaScript string is its sequence of UTF-16 code units ([list N]).
    - Timestamps and durations are integer milliseconds ([Z]), as returned
      by [Date.now()].
    - The numbers that [parseFloat] returns and the product and ceiling
      computed from them are binary64 values, each operation rounded to
      the nearest value with ties to the even mantissa, as the engines do.
      Negative zero is not told apart from zero.  The numbers of a parsed
      JSON text are kept as decimals: the code reads only whether they are
      zero.
    - A turn of the event loop runs to completion and takes no time: the
      clock is read once per turn, and time passes between turns. *)

From Stdlib Require Import ZArith NArith Bool Ascii String List Lia.
From Stdlib Require DecimalNat DecimalFacts.
Import ListNotations.

Local Open Scope Z_scope.

Set Warnings "-register-all".

(** ** JavaScript strings *)

Module JsString.

Definition jsstring := list N.

Definition ch (c : ascii) : N := N_of_ascii c.

(** An ASCII string literal of the source, as code units. *)
Definition lit (s : string) : jsstring := map N_of_ascii (list_ascii_of_string s).

Fixpoint eqb (s t : jsstring) : bool :=
  match s, t with
  | [], [] => true
  | c :: s', d :: t' => N.eqb c d && eqb s' t'
  | _, _ => false
  end.

(** [startsWith s p]: [p] is a prefix of [s]. *)
Fixpoint startsWith (s p : jsstring) : bool :=
  match p, s with
  | [], _ => true
  | d :: p', c :: s' => N.eqb c d && startsWith s' p'
  | _ :: _, [] => false
  end.

(** [String.prototype.includes]: [p] occurs in [s] as a substring. *)
Fixpoint includes (s p : jsstring) : bool :=
  startsWith s p ||
  match s with
  | [] => false
  | _ :: s' => includes s' p
  end.

(** [String.prototype.endsWith]. *)
Definition endsWith (s p : jsstring) : bool := startsWith (rev s) (rev p).

(** [s.slice(0, -1)]: all but the last code unit. *)
Definition slice_0_m1 (s : jsstring) : jsstring := removelast s.

Definition is_empty (s : jsstring) : bool :=
  match s with [] => true | _ => false end.

End JsString.
Import JsString.

(** ** JSON values and [JSON.parse] *)

Module Json.

Inductive json :=
| JNull
| JBool (b : bool)
| JNumber (m e : Z)                      (* m * 10^e *)
| JString (s : jsstring)
| JArray (items : list json)
| JObject (members : list (jsstring * json)).

Inductive token :=
| TLBrace | TRBrace | TLBracket | TRBracket | TComma | TColon
| TString (s : jsstring)
| TNumber (m e : Z)
| TTrue | TFalse | TNull.

(** *** Lexer: one code unit at a time *)

Inductive num_phase :=
| NMinus      (* after the sign, a digit is required *)
| NZero       (* the integer part is a single 0 *)
| NInt        (* inside an integer part that started with 1-9 *)
| NDot        (* after the point, a digit is required *)
| NFrac       (* inside the fraction *)
| NE          (* after e or E *)
| NESign      (* after the sign of the exponent, a digit is required *)
| NExp.       (* inside the exponent *)

Record num_acc := mkNum {
  n_neg : bool;      (* leading minus *)
  n_mant : Z;        (* digits of the integer part and the fraction *)
  n_frac : Z;        (* number of digits of the fraction *)
  n_eneg : bool;     (* sign of the exponent *)
  n_exp : Z          (* digits of the exponent *)
}.

Inductive lex_state :=
| LStart
| LStr (acc : jsstring)                   (* inside a string; [acc] is reversed *)
| LEsc (acc : jsstring)                   (* after a backslash *)
| LUni (acc : jsstring) (k : nat) (v : N) (* in \uXXXX, [S k] hex digits to come *)
| LLit (rest : jsstring) (t : token)      (* inside true, false or null *)
| LNum (p : num_phase) (a : num_acc).

Definition is_ws (c : N) : bool :=
  N.eqb c 9 || N.eqb c 10 || N.eqb c 13 || N.eqb c 32.

Definition digit_of (c : N) : option Z :=
  if (48 <=? c)%N && (c <=? 57)%N then Some (Z.of_N c - 48) else None.

Definition hex_of (c : N) : option N :=
  if (48 <=? c)%N && (c <=? 57)%N then Some (c - 48)%N
  else if (65 <=? c)%N && (c <=? 70)%N then Some (c - 55)%N
  else if (97 <=? c)%N && (c <=? 102)%N then Some (c - 87)%N
  else None.

Definition num_token (a : num_acc) : token :=
  TNumber (if n_neg a then - n_mant a else n_mant a)
          ((if n_eneg a then - n_exp a else n_exp a) - n_frac a).

Definition num_final (p : num_phase) : bool :=
  match p with NZero | NInt | NFrac | NExp => true | _ => false end.

Definition lex_start (c : N) : option (lex_state * list token) :=
  if is_ws c then Some (LStart, [])
  else if N.eqb c (ch "{") then Some (LStart, [TLBrace])
  else if N.eqb c (ch "}") then Some (LStart, [TRBrace])
  else if N.eqb c (ch "[") then Some (LStart, [TLBracket])
  else if N.eqb c (ch "]") then Some (LStart, [TRBracket])
  else if N.eqb c (ch ",") then Some (LStart, [TComma])
  else if N.eqb c (ch ":") then Some (LStart, [TColon])
  else if N.eqb c 34 then Some (LStr [], [])
  else if N.eqb c (ch "t") then Some (LLit (lit "rue") TTrue, [])
  else if N.eqb c (ch "f") then Some (LLit (lit "alse") TFalse, [])
  else if N.eqb c (ch "n") then Some (LLit (lit "ull") TNull, [])
  else if N.eqb c (ch "-") then Some (LNum NMinus (mkNum true 0 0 false 0), [])
  else match digit_of c with
       | Some d =>
           Some (LNum (if d =? 0 then NZero else NInt) (mkNum false d 0 false 0), [])
       | None => None
       end.

Definition push_digit (a : num_acc) (d : Z) : num_acc :=
  mkNum (n_neg a) (10 * n_mant a + d) (n_frac a) (n_eneg a) (n_exp a).

Definition push_frac (a : num_acc) (d : Z) : num_acc :=
  mkNum (n_neg a) (10 * n_mant a + d) (n_frac a + 1) (n_eneg a) (n_exp a).

Definition push_exp (a : num_acc) (d : Z) : num_acc :=
  mkNum (n_neg a) (n_mant a) (n_frac a) (n_eneg a) (10 * n_exp a + d).

Definition set_eneg (a : num_acc) : num_acc :=
  mkNum (n_neg a) (n_mant a) (n_frac a) true (n_exp a).

Definition is_e (c : N) : bool := N.eqb c (ch "e") || N.eqb c (ch "E").

(** A code unit that does not continue the number ends it, where the number
    may end, and is then read as the start of the next token. *)
Definition num_end (p : num_phase) (a : num_acc) (c : N)
  : option (lex_state * list token) :=
  if num_final p then
    match lex_start c with
    | Some (st, ts) => Some (st, num_token a :: ts)
    | None => None
    end
  else None.

Definition lex_num (p : num_phase) (a : num_acc) (c : N)
  : option (lex_state * list token) :=
  match p, digit_of c with
  | NMinus, Some d => Some (LNum (if d =? 0 then NZero else NInt) (push_digit a d), [])
  | NInt, Some d => Some (LNum NInt (push_digit a d), [])
  | NDot, Some d | NFrac, Some d => Some (LNum NFrac (push_frac a d), [])
  | NE, Some d | NESign, Some d | NExp, Some d => Some (LNum NExp (push_exp a d), [])
  | NZero, None | NInt, None =>
      if N.eqb c (ch ".") then Some (LNum NDot a, [])
      else if is_e c then Some (LNum NE a, [])
      else num_end p a c
  | NFrac, None =>
      if is_e c then Some (LNum NE a, []) else num_end p a c
  | NE, None =>
      if N.eqb c (ch "+") then Some (LNum NESign a, [])
      else if N.eqb c (ch "-") then Some (LNum NESign (set_eneg a), [])
      else None
  | _, _ => num_end p a c
  end.

Definition unescape (c : N) : option N :=
  if N.eqb c 34 then Some 34%N
  else if N.eqb c 92 then Some 92%N
  else if N.eqb c (ch "/") then Some 47%N
  else if N.eqb c (ch "b") then Some 8%N
  else if N.eqb c (ch "f") then Some 12%N
  else if N.eqb c (ch "n") then Some 10%N
  else if N.eqb c (ch "r") then Some 13%N
  else if N.eqb c (ch "t") then Some 9%N
  else None.

Definition lex_step (st : lex_state) (c : N) : option (lex_state * list token) :=
  match st with
  | LStart => lex_start c
  | LStr acc =>
      if N.eqb c 34 then Some (LStart, [TString (rev acc)])
      else if N.eqb c 92 then Some (LEsc acc, [])
      else if (c <? 32)%N then None
      else Some (LStr (c :: acc), [])
  | LEsc acc =>
      if N.eqb c (ch "u") then Some (LUni acc 3 0%N, [])
      else match unescape c with
           | Some u => Some (LStr (u :: acc), [])
           | None => None
           end
  | LUni acc k v =>
      match hex_of c with
      | Some h =>
          let v' := (16 * v + h)%N in
          match k with
          | O => Some (LStr (v' :: acc), [])
          | S k' => Some (LUni acc k' v', [])
          end
      | None => None
      end
  | LLit rest t =>
      match rest with
      | [] => None
      | d :: rest' =>
          if N.eqb c d then
            match rest' with
            | [] => Some (LStart, [t])
            | _ => Some (LLit rest' t, [])
            end
          else None
      end
  | LNum p a => lex_num p a c
  end.

Definition lex_end (st : lex_state) : option (list token) :=
  match st with
  | LStart => Some []
  | LNum p a => if num_final p then Some [num_token a] else None
  | _ => None
  end.

Fixpoint lex_from (st : lex_state) (s : jsstring) : option (list token) :=
  match s with
  | [] => lex_end st
  | c :: s' =>
      match lex_step st c with
      | None => None
      | Some (st', ts) =>
          match lex_from st' s' with
          | None => None
          | Some rest => Some (ts ++ rest)
          end
      end
  end.

Definition lex (s : jsstring) : option (list token) := lex_from LStart s.

(** *** Parser: a pushdown automaton over the tokens *)

Inductive frame :=
| FArr (acc : list json)                                     (* reversed *)
| FObj (acc : list (jsstring * json)) (key : jsstring).      (* reversed *)

Inductive expect :=
| EValue            (* a value *)
| EValueOrClose     (* just after [: a value or ] *)
| EKeyOrClose       (* just after {: a key or } *)
| EKey              (* after a comma in an object *)
| EColon (acc : list (jsstring * json)) (key : jsstring)
| ECommaOrClose     (* after a value inside an array or object *)
| EDone (v : json). (* the whole text has been read *)

(** A finished value goes to the innermost open array or object. *)
Definition close_value (v : json) (stack : list frame) : expect * list frame :=
  match stack with
  | [] => (EDone v, [])
  | FArr acc :: stack' => (ECommaOrClose, FArr (v :: acc) :: stack')
  | FObj acc key :: stack' => (ECommaOrClose, FObj ((key, v) :: acc) key :: stack')
  end.

Definition scalar (t : token) : option json :=
  match t with
  | TString s => Some (JString s)
  | TNumber m e => Some (JNumber m e)
  | TTrue => Some (JBool true)
  | TFalse => Some (JBool false)
  | TNull => Some JNull
  | _ => None
  end.

Definition open_value (t : token) (stack : list frame) : option (expect * list frame) :=
  match t with
  | TLBracket => Some (EValueOrClose, FArr [] :: stack)
  | TLBrace => Some (EKeyOrClose, FObj [] [] :: stack)
  | _ => match scalar t with
         | Some v => Some (close_value v stack)
         | None => None
         end
  end.

Definition parse_step (ex : expect) (stack : list frame) (t : token)
  : option (expect * list frame) :=
  match ex, t, stack with
  | EValue, _, _ => open_value t stack
  | EValueOrClose, TRBracket, FArr acc :: stack' =>
      Some (close_value (JArray (rev acc)) stack')
  | EValueOrClose, _, _ => open_value t stack
  | EKeyOrClose, TRBrace, FObj acc _ :: stack' =>
      Some (close_value (JObject (rev acc)) stack')
  | EKeyOrClose, TString k, FObj acc _ :: stack' => Some (EColon acc k, stack')
  | EKey, TString k, FObj acc _ :: stack' => Some (EColon acc k, stack')
  | EColon acc k, TColon, _ => Some (EValue, FObj acc k :: stack)
  | ECommaOrClose, TComma, FArr _ :: _ => Some (EValue, stack)
  | ECommaOrClose, TComma, FObj _ _ :: _ => Some (EKey, stack)
  | ECommaOrClose, TRBracket, FArr acc :: stack' =>
      Some (close_value (JArray (rev acc)) stack')
  | ECommaOrClose, TRBrace, FObj acc _ :: stack' =>
      Some (close_value (JObject (rev acc)) stack')
  | _, _, _ => None
  end.

Fixpoint parse_from (ex : expect) (stack : list frame) (ts : list token)
  : option json :=
  match ts with
  | [] => match ex with EDone v => Some v | _ => None end
  | t :: ts' =>
      match parse_step ex stack t with
      | None => None
      | Some (ex', stack') => parse_from ex' stack' ts'
      end
  end.

(** [JSON.parse(text)]: [None] stands for the [SyntaxError] it throws. *)
Definition JSON_parse (text : jsstring) : option json :=
  match lex text with
  | None => None
  | Some ts => parse_from EValue [] ts
  end.

End Json.
Import Json.

(** ** Numbers: [parseFloat], multiplication and [Math.ceil] in binary64 *)

Module JsNumber.

(** A Number, that is a binary64 value.  [Finite m e] is [m * 2^e], with
    [|m| < 2^53] and [-1074 <= e <= 971]. *)
Inductive number :=
| Finite (m e : Z)
| PosInf
| NegInf
| NaN.

(** A number of milliseconds, as [Math.ceil] returns it. *)
Inductive millis :=
| Ms (z : Z)
| MsPosInf
| MsNegInf.

(** White space that [parseFloat] skips (StrWhiteSpaceChar). *)
Definition is_str_ws (c : N) : bool :=
  ((9 <=? c) && (c <=? 13) || N.eqb c 32 || N.eqb c 160 || N.eqb c 5760
   || (8192 <=? c) && (c <=? 8202) || N.eqb c 8232 || N.eqb c 8233
   || N.eqb c 8239 || N.eqb c 8287 || N.eqb c 12288 || N.eqb c 65279)%N.

Fixpoint trim_start (s : jsstring) : jsstring :=
  match s with
  | c :: s' => if is_str_ws c then trim_start s' else s
  | [] => []
  end.

(** The longest run of decimal digits at the head of [s]: its value, its
    length and what follows it. *)
Fixpoint digits (v n : Z) (s : jsstring) : Z * Z * jsstring :=
  match s with
  | c :: s' =>
      match digit_of c with
      | Some d => digits (10 * v + d) (n + 1) s'
      | None => (v, n, s)
      end
  | [] => (v, n, s)
  end.

(** An exponent part at the head of [s], when there is one. *)
Definition exponent (s : jsstring) : Z :=
  match s with
  | c :: s' =>
      if is_e c then
        let '(neg, s'') :=
          match s' with
          | d :: t => if N.eqb d (ch "-") then (true, t)
                      else if N.eqb d (ch "+") then (false, t)
                      else (false, s')
          | [] => (false, s')
          end in
        let '(v, n, _) := digits 0 0 s'' in
        if 0 <? n then (if neg then - v else v) else 0
      else 0
  | [] => 0
  end.

(** StrUnsignedDecimalLiteral at the head of [s]. *)
Definition unsigned_decimal (s : jsstring) : option (Z * Z) :=
  let '(iv, ic, r1) := digits 0 0 s in
  match r1 with
  | c :: r1' =>
      if N.eqb c (ch ".") then
        let '(fv, fc, r2) := digits iv 0 r1' in
        if (0 <? ic) || (0 <? fc) then Some (fv, exponent r2 - fc) else None
      else if 0 <? ic then Some (iv, exponent r1) else None
  | [] => if 0 <? ic then Some (iv, 0) else None
  end.

(** What [parseFloat] reads at the head of a string: the decimal literal
    [m * 10^e], [Infinity] with its sign, or nothing. *)
Inductive literal :=
| Decimal (m e : Z)
| Infinite (neg : bool)
| NoLiteral.

Definition literal_of (s : jsstring) : literal :=
  let t := trim_start s in
  let '(neg, u) :=
    match t with
    | c :: t' => if N.eqb c (ch "-") then (true, t')
                 else if N.eqb c (ch "+") then (false, t')
                 else (false, t)
    | [] => (false, t)
    end in
  if startsWith u (lit "Infinity") then Infinite neg
  else match unsigned_decimal u with
       | Some (m, e) => Decimal (if neg then - m else m) e
       | None => NoLiteral
       end.

(** The integer nearest to [n / d], the even one of two that are equally
    near, for [0 <= n] and [0 < d]. *)
Definition round_half_even (n d : Z) : Z :=
  let q := n / d in
  let r := n mod d in
  if 2 * r <? d then q
  else if d <? 2 * r then q + 1
  else if Z.even q then q else q + 1.

(** The integer part of the binary logarithm of [n / d], for [0 < n] and
    [0 < d]. *)
Definition floor_log2 (n d : Z) : Z :=
  if d <=? n then Z.log2 (n / d) else - Z.log2_up ((d + n - 1) / n).

(** The binary64 value nearest to [n / d], for [0 < n] and [0 < d]: 53
    significant bits, or fewer below [2^-1022]; ties go to the even
    mantissa; what rounds to [2^1024] or more is [Infinity]. *)
Definition of_rational_pos (n d : Z) : number :=
  let e := Z.max (floor_log2 n d - 52) (-1074) in
  let m := round_half_even (n * 2 ^ Z.max 0 (- e)) (d * 2 ^ Z.max 0 e) in
  if m =? 0 then Finite 0 0
  else if m =? 2 ^ 53 then (if 971 <? e + 1 then PosInf else Finite (2 ^ 52) (e + 1))
  else if 971 <? e then PosInf else Finite m e.

Definition opposite (x : number) : number :=
  match x with
  | Finite m e => Finite (- m) e
  | PosInf => NegInf
  | NegInf => PosInf
  | NaN => NaN
  end.

(** The binary64 value nearest to [n / d], for [0 < d]. *)
Definition of_rational (n d : Z) : number :=
  if n =? 0 then Finite 0 0
  else if n <? 0 then opposite (of_rational_pos (- n) d)
  else of_rational_pos n d.

(** The Number value of the decimal [m * 10^e]. *)
Definition of_decimal (m e : Z) : number :=
  of_rational (m * 10 ^ Z.max 0 e) (10 ^ Z.max 0 (- e)).

Definition parseFloat (s : jsstring) : number :=
  match literal_of s with
  | Decimal m e => of_decimal m e
  | Infinite neg => if neg then NegInf else PosInf
  | NoLiteral => NaN
  end.

Definition isNaN (x : number) : bool :=
  match x with NaN => true | _ => false end.

(** [x * 1000] *)
Definition times_1000 (x : number) : number :=
  match x with
  | Finite m e => of_rational (m * 1000 * 2 ^ Z.max 0 e) (2 ^ Z.max 0 (- e))
  | _ => x
  end.

(** [Math.ceil(x)] for [x] that is not NaN: the least integer that is at
    least [x]. *)
Definition Math_ceil (x : number) : millis :=
  match x with
  | Finite m e => Ms (- ((- m * 2 ^ Z.max 0 e) / 2 ^ Z.max 0 (- e)))
  | PosInf => MsPosInf
  | NegInf => MsNegInf
  | NaN => Ms 0
  end.

(** [Math.ceil(sec * 1000)] for [sec] that is not NaN. *)
Definition ceil_times_1000 (sec : number) : millis :=
  Math_ceil (times_1000 sec).

(** The literal is negative. *)
Definition negative_literal (l : literal) : Prop :=
  match l with
  | Decimal m _ => m < 0
  | Infinite neg => neg = true
  | NoLiteral => False
  end.

(** [x <= 0] *)
Definition not_positive (x : number) : Prop :=
  match x with
  | Finite m _ => m <= 0
  | NegInf => True
  | PosInf | NaN => False
  end.

(** [ms <= 0] and [ms < z] *)
Definition ms_not_positive (ms : millis) : Prop :=
  match ms with
  | Ms v => v <= 0
  | MsNegInf => True
  | MsPosInf => False
  end.

Definition ms_below (ms : millis) (z : Z) : Prop :=
  match ms with
  | Ms v => v < z
  | MsNegInf => True
  | MsPosInf => False
  end.

End JsNumber.
Import JsNumber.

(** ** Thrown values *)

Module Failure.

(** What a unit of work can throw: [undefined], an instance of [Error]
    (which always has a [message] string), or any other value, with or
    without a [message] string.  The [id] stands for the identity of the
    thrown object. *)
Inductive thrown :=
| Undefined
| ErrorObject (id : nat) (message : jsstring)
| OtherValue (id : nat) (message : option jsstring).

(** [(e as any)?.message as string | undefined] *)
Definition message_of (e : thrown) : option jsstring :=
  match e with
  | Undefined => None
  | ErrorObject _ m => Some m
  | OtherValue _ m => m
  end.

Definition instanceof_Error (e : thrown) : bool :=
  match e with ErrorObject _ _ => true | _ => false end.

End Failure.
Import Failure.

(** ** RetryPolicy *)

Module Retry.

Definition RESOURCE_EXHAUSTED := lit "RESOURCE_EXHAUSTED".
Definition Too_Many_Requests := lit "Too Many Requests".
Definition quota := lit "quota".
Definition RetryInfo := lit "type.googleapis.com/google.rpc.RetryInfo".

(** A value read from parsed JSON, or [undefined]. *)
Inductive jsval :=
| VUndefined
| V (j : json).

(** Reading property [k] of a parsed value that is neither [null] nor
    [undefined].  A later duplicate of a key overwrites an earlier one; the
    keys read here are no properties of strings, numbers, booleans or
    arrays. *)
Fixpoint lookup (k : jsstring) (ms : list (jsstring * json)) : jsval :=
  match ms with
  | [] => VUndefined
  | (k', v) :: ms' =>
      match lookup k ms' with
      | VUndefined => if JsString.eqb k' k then V v else VUndefined
      | found => found
      end
  end.

Definition get (j : json) (k : jsstring) : jsval :=
  match j with
  | JObject ms => lookup k ms
  | _ => VUndefined
  end.

(** [v?.k] *)
Definition opt_get (v : jsval) (k : jsstring) : jsval :=
  match v with
  | VUndefined | V JNull => VUndefined
  | V j => get j k
  end.

Definition truthy (v : jsval) : bool :=
  match v with
  | VUndefined | V JNull => false
  | V (JBool b) => b
  | V (JNumber m _) => negb (m =? 0)
  | V (JString s) => negb (is_empty s)
  | V (JArray _) | V (JObject _) => true
  end.

(** [d["@type"] === "type.googleapis.com/google.rpc.RetryInfo"]; [None] is
    the [TypeError] of reading a property of [null]. *)
Definition is_RetryInfo (d : json) : option bool :=
  match d with
  | JNull => None
  | _ => match get d (lit "@type") with
         | V (JString t) => Some (JsString.eqb t RetryInfo)
         | _ => Some false
         end
  end.

(** [details.find((d) => ...)] on an array. *)
Fixpoint find_RetryInfo (details : list json) : option jsval :=
  match details with
  | [] => Some VUndefined
  | d :: rest =>
      match is_RetryInfo d with
      | None => None
      | Some true => Some (V d)
      | Some false => find_RetryInfo rest
      end
  end.

(** How the [try] block of [parseRetryDelayMs] ends. *)
Inductive completion :=
| Returns (ms : millis)
| FallsThrough
| Throws.

(** [if (delay && delay.endsWith("s")) { ... }] *)
Definition delay_ms (delay : jsval) : completion :=
  if truthy delay then
    match delay with
    | V (JString d) =>
        if endsWith d (lit "s") then
          let sec := parseFloat (slice_0_m1 d) in
          if negb (isNaN sec) then Returns (ceil_times_1000 sec) else FallsThrough
        else FallsThrough
    | _ => Throws                       (* delay.endsWith is not a function *)
    end
  else FallsThrough.

(** The [try] block after [JSON.parse] has returned [data]. *)
Definition hint_of_data (data : json) : completion :=
  let found := opt_get (opt_get (V data) (lit "error")) (lit "details") in
  let details := if truthy found then found else V (JArray []) in
  match details with
  | V (JArray ds) =>
      match find_RetryInfo ds with
      | None => Throws
      | Some ri => delay_ms (opt_get ri (lit "retryDelay"))
      end
  | _ => Throws                         (* details.find is not a function *)
  end.

Definition try_block (str : jsstring) : completion :=
  match JSON_parse str with
  | None => Throws
  | Some data => hint_of_data data
  end.

(** [parseRetryDelayMs(e)]; [None] is [undefined]. *)
Definition parseRetryDelayMs (e : thrown) : option millis :=
  match message_of e with
  | None => None
  | Some str =>
      if is_empty str then None
      else match try_block str with
           | Returns ms => Some ms
           | FallsThrough | Throws => None
           end
  end.

Definition isRateLimited (e : thrown) : bool :=
  let msg := match message_of e with Some m => m | None => [] end in
  includes msg RESOURCE_EXHAUSTED || includes msg Too_Many_Requests
  || includes msg quota.

(** [parseRetryDelayMs(e) ?? 2000 * Math.pow(2, attempt)] *)
Definition retry_delay (e : thrown) (attempt : Z) : millis :=
  match parseRetryDelayMs e with
  | Some ms => ms
  | None => Ms (2000 * 2 ^ attempt)
  end.

(** The status of the response built in the [catch] of the
    [/api/edit-image] handler. *)
Definition catch_message (err : thrown) : jsstring :=
  match err with
  | ErrorObject _ m => m
  | _ => lit "Unknown error"
  end.

Definition catch_status (err : thrown) : Z :=
  let message := catch_message err in
  if includes message RESOURCE_EXHAUSTED || includes message Too_Many_Requests
  then 429 else 500.

Section WithRetries.

Context {T W : Type}.

(** What has been observed of a call of [withRetries]: each invocation of
    the work with the attempt number and how it ended, and each
    [setTimeout(r, delay)] awaited between attempts. *)
Inductive event :=
| Attempt (n : Z) (r : T + thrown)
| Sleep (delay : millis).

Inductive result :=
| Returned (v : T)
| Thrown (e : thrown)
| OutOfFuel.

(** A unit of work: invoked in a state of the world, it settles with a
    value or a failure and leaves the world in a new state. *)
Definition unit_of_work := W -> (T + thrown) * W.

Variable work : unit_of_work.
Variable maxRetries : Z.

(** The [while] loop; [fuel] bounds the number of iterations. *)
Fixpoint retry_loop (fuel : nat) (attempt : Z) (lastErr : thrown) (w : W)
  : result * W * list event :=
  match fuel with
  | O => (OutOfFuel, w, [])
  | S fuel' =>
      if attempt <=? maxRetries then
        let '(r, w') := work w in
        match r with
        | inl v => (Returned v, w', [Attempt attempt r])
        | inr e =>
            if isRateLimited e && (attempt <? maxRetries) then
              let delay := retry_delay e attempt in
              let '(res, w'', tr) := retry_loop fuel' (attempt + 1) e w' in
              (res, w'', Attempt attempt r :: Sleep delay :: tr)
            else (Thrown e, w', [Attempt attempt r])
        end
      else (Thrown lastErr, w, [])
  end.

Definition withRetries (w : W) : result * W * list event :=
  retry_loop (S (Z.to_nat (maxRetries + 1))) 0 Undefined w.

End WithRetries.

Arguments event : clear implicits.
Arguments result : clear implicits.
Arguments unit_of_work : clear implicits.

(** The number of times the work was invoked. *)
Definition attempts {T} (tr : list (event T)) : nat :=
  length (filter (fun ev => match ev with Attempt _ _ => true | _ => false end) tr).

(** The message of [e] has none of the substrings that [isRateLimited]
    looks for. *)
Definition unclassified (e : thrown) : Prop :=
  forall m, message_of e = Some m ->
    includes m RESOURCE_EXHAUSTED = false /\
    includes m Too_Many_Requests = false /\
    includes m quota = false.

(** [withRetries] invokes the work once, does not wait and rethrows the
    failure of that invocation. *)
Definition fails_fast {T W} (work : unit_of_work T W) (maxRetries : Z) (w : W)
  : Prop :=
  forall e w', work w = (inr e, w') -> unclassified e ->
    withRetries work maxRetries w = (Thrown e, w', [Attempt 0 (inr e)]).

(** The error detail of [data] lists [ri] as its first RetryInfo entry:
    [data?.error?.details] is an array in which [ri] has the RetryInfo type
    and is preceded only by entries that are not [null] and have another
    type. *)
Definition first_RetryInfo (data ri : json) : Prop :=
  exists pre post,
    opt_get (opt_get (V data) (lit "error")) (lit "details")
      = V (JArray (pre ++ ri :: post)) /\
    Forall (fun d => is_RetryInfo d = Some false) pre /\
    is_RetryInfo ri = Some true.

(** The message of [e] is a JSON document whose first RetryInfo entry has
    the string [delay] as its [retryDelay]. *)
Definition carries_retryDelay (e : thrown) (delay : jsstring) : Prop :=
  exists m data ri,
    message_of e = Some m /\ JSON_parse m = Some data /\
    first_RetryInfo data ri /\
    get ri (lit "retryDelay") = V (JString delay).

(** Why the message [m] gives no retry-delay hint: it is no JSON text, or
    the fields that lead to the hint are absent, or the [retryDelay] is a
    string that does not end in [s]. *)
Inductive no_hint_in (m : jsstring) : Prop :=
| Malformed :
    JSON_parse m = None -> no_hint_in m
| NoDetails data :
    JSON_parse m = Some data ->
    opt_get (opt_get (V data) (lit "error")) (lit "details") = VUndefined ->
    no_hint_in m
| NoRetryInfo data details :
    JSON_parse m = Some data ->
    opt_get (opt_get (V data) (lit "error")) (lit "details") = V (JArray details) ->
    Forall (fun d => is_RetryInfo d = Some false) details ->
    no_hint_in m
| NoRetryDelay data ri :
    JSON_parse m = Some data -> first_RetryInfo data ri ->
    get ri (lit "retryDelay") = VUndefined ->
    no_hint_in m
| NotSeconds data ri delay :
    JSON_parse m = Some data -> first_RetryInfo data ri ->
    get ri (lit "retryDelay") = V (JString delay) ->
    endsWith delay (lit "s") = false ->
    no_hint_in m.

(** In the trace [tr], the attempt numbered [n] failed with [e] and was
    followed by a wait of [d]. *)
Definition waited_after {T} (tr : list (event T)) (n : Z) (e : thrown)
    (d : millis) : Prop :=
  exists pre post, tr = pre ++ Attempt n (inr e) :: Sleep d :: post.

End Retry.
Import Retry.

(** ** Concrete failures and units of work *)

Module Scenario.

(** A JSON text written with apostrophes in place of double quotes. *)
Definition json_text (s : string) : jsstring :=
  map (fun c => if N.eqb c 39 then 34%N else c) (lit s).

Definition hint_doc : jsstring :=
  json_text
    "{'error':{'details':[{'@type':'type.googleapis.com/google.rpc.RetryInfo','retryDelay':'1.5s'}]}}".

(** The same detail in an error that names its status, with a second
    RetryInfo entry behind the first. *)
Definition exhausted_doc : jsstring :=
  json_text
    "{'error':{'code':429,'status':'RESOURCE_EXHAUSTED','details':[{'@type':'type.googleapis.com/google.rpc.Help'},{'@type':'type.googleapis.com/google.rpc.RetryInfo','retryDelay':'1.5s'},{'@type':'type.googleapis.com/google.rpc.RetryInfo','retryDelay':'9s'}]}}".

Definition negative_doc : jsstring :=
  json_text
    "{'error':{'status':'RESOURCE_EXHAUSTED','details':[{'@type':'type.googleapis.com/google.rpc.RetryInfo','retryDelay':'-3s'}]}}".

(** The same entry behind a [null] detail, and behind a RetryInfo entry
    with another delay. *)
Definition null_negative_doc : jsstring :=
  json_text
    "{'error':{'status':'RESOURCE_EXHAUSTED','details':[null,{'@type':'type.googleapis.com/google.rpc.RetryInfo','retryDelay':'-3s'}]}}".

Definition later_negative_doc : jsstring :=
  json_text
    "{'error':{'status':'RESOURCE_EXHAUSTED','details':[{'@type':'type.googleapis.com/google.rpc.RetryInfo','retryDelay':'5s'},{'@type':'type.googleapis.com/google.rpc.RetryInfo','retryDelay':'-3s'}]}}".

Definition minutes_doc : jsstring :=
  json_text
    "{'error':{'status':'RESOURCE_EXHAUSTED','details':[{'@type':'type.googleapis.com/google.rpc.RetryInfo','retryDelay':'5m'}]}}".

Definition parsed (doc : jsstring) : json :=
  match JSON_parse doc with Some data => data | None => JNull end.

Definition RetryInfo_entry (delay : string) : json :=
  JObject [(lit "@type", JString RetryInfo); (lit "retryDelay", JString (lit delay))].

(** A unit of work that fails on every invocation with a new [Error] whose
    message is [msg]; the state of the world counts the invocations. *)
Definition always_fails (msg : jsstring) : unit_of_work nat nat :=
  fun w => (inr (ErrorObject w msg), S w).

(** A unit of work that fails with [msg] the first time and then returns. *)
Definition fails_once (msg : jsstring) : unit_of_work nat nat :=
  fun w => match w with
           | O => (inr (ErrorObject w msg), S w)
           | _ => (inl 42%nat, S w)
           end.

(** The first attempt of [withRetries], having failed with a failure whose
    message is [hint_doc], is followed by a wait of 1500 ms. *)
Definition hint_honoured {T W} (work : unit_of_work T W) (maxRetries : Z) (w : W)
  : Prop :=
  forall e w', work w = (inr e, w') -> message_of e = Some hint_doc ->
    waited_after (snd (withRetries work maxRetries w)) 0 e (Ms 1500).

(** The message of [e] is a JSON document whose error details contain a
    RetryInfo entry with the [retryDelay] [delay], at any place. *)
Definition has_retryDelay (e : thrown) (delay : jsstring) : Prop :=
  exists m data pre ri post,
    message_of e = Some m /\ JSON_parse m = Some data /\
    opt_get (opt_get (V data) (lit "error")) (lit "details")
      = V (JArray (pre ++ ri :: post)) /\
    is_RetryInfo ri = Some true /\
    get ri (lit "retryDelay") = V (JString delay).

(** Every failure with a RetryInfo detail of -3s gives the hint -3000. *)
Definition negative_hint_returned : Prop :=
  forall e, has_retryDelay e (lit "-3s") -> parseRetryDelayMs e = Some (Ms (-3000)).

End Scenario.
Import Scenario.

(** ** Throttler *)

Module Throttler.

Section Instance.

Context {T : Type}.

(** [constructor(private interval: number)] *)
Variable interval : Z.

(** How a unit of work ends, and so which of [resolve(result)] and
    [reject(e)] the Throttler calls. *)
Inductive settlement :=
| Resolved (result : T)
| Rejected (e : thrown).

(** Where an instance of [run] is suspended. *)
Inductive await :=
| AwaitTimer (deadline : Z)   (* await new Promise((r) => setTimeout(r, wait)) *)
| AwaitWork.                  (* await fn() *)

(** The fields of the instance, the host's clock and suspended coroutines,
    and a record of what has happened.  A call of [schedule] is named by
    its rank among the calls made on the instance; the rank names its [fn],
    the [run] closure built for it and the promise returned to its caller. *)
Record state := mkState {
  lastTime : Z;
  running : bool;
  queue : list nat;
  clock : Z;                            (* Date.now() *)
  awaiting : list (nat * await);
  calls : nat;                          (* calls of [schedule] so far *)
  dispatched : list (nat * Z);          (* invocations of [fn], with their time *)
  settled : list (nat * settlement)     (* promises settled, with the outcome *)
}.

Definition init (t0 : Z) : state := mkState 0 false [] t0 [] 0 [] [].

Definition set_running (b : bool) (s : state) : state :=
  mkState (lastTime s) b (queue s) (clock s) (awaiting s) (calls s)
          (dispatched s) (settled s).

Definition set_queue (q : list nat) (s : state) : state :=
  mkState (lastTime s) (running s) q (clock s) (awaiting s) (calls s)
          (dispatched s) (settled s).

Definition set_awaiting (a : list (nat * await)) (s : state) : state :=
  mkState (lastTime s) (running s) (queue s) (clock s) a (calls s)
          (dispatched s) (settled s).

(** [this.lastTime = Date.now()] and the call [fn()] that follows it. *)
Definition invoke (id : nat) (s : state) : state :=
  mkState (clock s) (running s) (queue s) (clock s)
          (awaiting s ++ [(id, AwaitWork)]) (calls s)
          (dispatched s ++ [(id, clock s)]) (settled s).

(** The closure [run], up to its first suspension. *)
Definition run (id : nat) (s : state) : state :=
  let now := clock s in
  let wait := Z.max 0 (lastTime s + interval - now) in
  if 0 <? wait then set_awaiting (awaiting s ++ [(id, AwaitTimer (now + wait))]) s
  else invoke id s.

(** The [finally] block. *)
Definition finally (s : state) : state :=
  let s := set_running false s in
  match queue s with
  | [] => s
  | next :: rest => run next (set_running true (set_queue rest s))
  end.

(** [schedule(fn)], up to the first suspension. *)
Definition schedule (s : state) : state :=
  let id := calls s in
  let s := mkState (lastTime s) (running s) (queue s) (clock s) (awaiting s)
                   (S id) (dispatched s) (settled s) in
  if negb (running s) then run id (set_running true s)
  else set_queue (queue s ++ [id]) s.

Definition suspended_at (id : nat) (s : state) : option await :=
  match find (fun p => Nat.eqb (fst p) id) (awaiting s) with
  | Some (_, a) => Some a
  | None => None
  end.

Definition resume (id : nat) (s : state) : state :=
  set_awaiting (filter (fun p => negb (Nat.eqb (fst p) id)) (awaiting s)) s.

(** [resolve(result)] or [reject(e)] *)
Definition settle (id : nat) (r : settlement) (s : state) : state :=
  mkState (lastTime s) (running s) (queue s) (clock s) (awaiting s) (calls s)
          (dispatched s) (settled s ++ [(id, r)]).

(** What the host can do next. *)
Inductive event :=
| Call                                   (* some caller calls [schedule(fn)] *)
| Tick (dt : Z)                          (* time passes *)
| Timeout (id : nat)                     (* the timer of [run] number [id] fires *)
| Settle (id : nat) (r : settlement).    (* the promise of [fn] number [id] settles *)

(** One turn of the event loop; [None] when the event cannot happen.  A
    timer fires no earlier than its delay after it was set, and time does
    not go back. *)
Definition step (s : state) (ev : event) : option state :=
  match ev with
  | Call => Some (schedule s)
  | Tick dt =>
      if 0 <=? dt then
        Some (mkState (lastTime s) (running s) (queue s) (clock s + dt)
                      (awaiting s) (calls s) (dispatched s) (settled s))
      else None
  | Timeout id =>
      match suspended_at id s with
      | Some (AwaitTimer deadline) =>
          if deadline <=? clock s then Some (invoke id (resume id s)) else None
      | _ => None
      end
  | Settle id r =>
      match suspended_at id s with
      | Some AwaitWork => Some (finally (settle id r (resume id s)))
      | _ => None
      end
  end.

Fixpoint exec (s : state) (evs : list event) : option state :=
  match evs with
  | [] => Some s
  | ev :: evs' =>
      match step s ev with
      | Some s' => exec s' evs'
      | None => None
      end
  end.

(** The units of work that have been invoked and have not settled. *)
Definition executing (s : state) : list nat :=
  flat_map (fun p => match snd p with AwaitWork => [fst p] | _ => [] end)
           (awaiting s).

(** The calls whose [run] waits for the interval to elapse. *)
Definition delayed (s : state) : list nat :=
  flat_map (fun p => match snd p with AwaitTimer _ => [fst p] | _ => [] end)
           (awaiting s).

(** Consecutive timestamps are at least [interval] apart. *)
Fixpoint spaced (ts : list Z) : Prop :=
  match ts with
  | t1 :: (t2 :: _) as rest => t1 + interval <= t2 /\ spaced rest
  | _ => True
  end.

(** What holds of every state the instance can be in. *)
Record invariant (s : state) : Prop := {
  inv_shape :
    match running s, awaiting s with
    | false, [] => queue s = []
    | true, [_] => True
    | _, _ => False
    end;
  inv_order : map fst (dispatched s) ++ delayed s ++ queue s = seq 0 (calls s);
  inv_settled : map fst (settled s) ++ executing s = map fst (dispatched s);
  inv_spaced : spaced (map snd (dispatched s));
  inv_last :
    dispatched s <> [] ->
    last (map snd (dispatched s)) 0 = lastTime s /\ lastTime s <= clock s;
  inv_deadline :
    forall id d, In (id, AwaitTimer d) (awaiting s) -> lastTime s + interval <= d
}.

End Instance.

Arguments settlement : clear implicits.
Arguments state : clear implicits.
Arguments event : clear implicits.

End Throttler.

(** ** A run of a Throttler with interval 100 ms *)

Module ThrottlerScenario.
Import Throttler.

Definition boom : thrown := ErrorObject 0 (lit "boom").

(** Three calls in the same millisecond. *)
Definition busy_events : list (event nat) := [Call; Call; Call].

(** The first unit of work returns; the second, dispatched 120 ms after the
    first, fails; the third is dispatched 100 ms after the second. *)
Definition demo_events : list (event nat) :=
  busy_events ++
  [Settle 0 (Resolved 7%nat); Tick 120; Timeout 1; Settle 1 (Rejected boom);
   Tick 100; Timeout 2].

Definition state_after (evs : list (event nat)) : state nat :=
  match exec 100 (init 1000) evs with
  | Some s => s
  | None => init 0
  end.

Definition busy_state : state nat := Eval vm_compute in state_after busy_events.

Definition failed_state : state nat :=
  Eval vm_compute in state_after (busy_events ++ [Settle 0 (Rejected boom)]).

Definition demo_state : state nat := Eval vm_compute in state_after demo_events.

End ThrottlerScenario.

(** * The request handler and its client *)

(** ** More of the host's strings: [trim] and the decimal form of a number *)

Module JsText.

(** [String.prototype.trim]: white space and line terminators are removed
    at both ends. *)
Definition trim (s : jsstring) : jsstring :=
  rev (trim_start (rev (trim_start s))).

Fixpoint of_uint (d : Decimal.uint) : jsstring :=
  match d with
  | Decimal.Nil => []
  | Decimal.D0 d' => 48%N :: of_uint d'
  | Decimal.D1 d' => 49%N :: of_uint d'
  | Decimal.D2 d' => 50%N :: of_uint d'
  | Decimal.D3 d' => 51%N :: of_uint d'
  | Decimal.D4 d' => 52%N :: of_uint d'
  | Decimal.D5 d' => 53%N :: of_uint d'
  | Decimal.D6 d' => 54%N :: of_uint d'
  | Decimal.D7 d' => 55%N :: of_uint d'
  | Decimal.D8 d' => 56%N :: of_uint d'
  | Decimal.D9 d' => 57%N :: of_uint d'
  end.

(** The string of a natural number, as a template literal or [String]
    renders it. *)
Definition decimal (n : nat) : jsstring := of_uint (Nat.to_uint n).

(** [!a] for a string that may be absent. *)
Definition falsy (a : option jsstring) : bool :=
  match a with
  | Some s => is_empty s
  | None => true
  end.

(** [a || b] on strings that may be absent. *)
Definition or_else (a : option jsstring) (b : jsstring) : jsstring :=
  match a with
  | Some s => if is_empty s then b else s
  | None => b
  end.

End JsText.
Import JsText.

(** ** The handler of [POST /api/edit-image] *)

Module Handler.

(** A [File] of the form data. *)
Record file := mkFile {
  file_name : jsstring;
  file_type : jsstring;
  file_size : Z
}.

(** What [form.get(name)] returns. *)
Inductive form_entry :=
| Absent                          (* null *)
| Text (s : jsstring)
| Upload (f : file).

Record form := mkForm {
  form_image : form_entry;        (* form.get("image") *)
  form_prompt : form_entry        (* form.get("prompt") *)
}.

Record request := mkRequest {
  GEMINI_API_KEY : option jsstring;      (* process.env.GEMINI_API_KEY *)
  content_type : option jsstring;        (* c.req.header("content-type") *)
  formData : thrown + form;              (* await c.req.formData() *)
  origin : jsstring                      (* new URL(c.req.url).origin *)
}.

Inductive body :=
| Failed (error : jsstring)                               (* { success: false, error } *)
| FailedWithHint (error : jsstring) (retryAfterMs : option millis)
| Succeeded (imageUrl : jsstring) (text : jsstring).      (* { success: true, imageUrl, text } *)

Record response := mkResponse {
  status : Z;
  payload : body
}.

(** How a part of the handler ends: with a [return c.json(...)], with an
    exception, or by going on. *)
Inductive stage (A : Type) :=
| Respond (r : response)
| Raise (e : thrown)
| Continue (a : A).
Arguments Respond {A} r.
Arguments Raise {A} e.
Arguments Continue {A} a.

Definition bad_request (msg : string) : response := mkResponse 400 (Failed (lit msg)).

Definition allowedMime : list jsstring :=
  [lit "image/jpeg"; lit "image/png"; lit "image/webp"].

(** [allowedMime.has(t)] *)
Definition allowed (t : jsstring) : bool := existsb (JsString.eqb t) allowedMime.

Definition sizeLimit : Z := 5 * 1024 * 1024.

(** The checks made before the model is called; on success, the trimmed
    prompt and the file. *)
Definition validate (req : request) : stage (jsstring * file) :=
  if falsy (GEMINI_API_KEY req) then
    Respond (mkResponse 500 (Failed (lit "Missing GEMINI_API_KEY")))
  else
    let contentType := or_else (content_type req) [] in
    if negb (includes contentType (lit "multipart/form-data")) then
      Respond (bad_request "Content-Type must be multipart/form-data")
    else
      match formData req with
      | inl e => Raise e
      | inr form =>
          match form_image form with
          | Upload file =>
              match form_prompt form with
              | Text prompt =>
                  if is_empty prompt then
                    Respond (bad_request "Field 'prompt' is required")
                  else
                    let trimmedPrompt := trim prompt in
                    if (length trimmedPrompt =? 0)%nat then
                      Respond (bad_request "Prompt cannot be empty")
                    else if (500 <? length trimmedPrompt)%nat then
                      Respond (bad_request "Prompt must be at most 500 characters")
                    else if negb (allowed (file_type file)) then
                      Respond (bad_request "Unsupported file type. Use JPG, PNG, or WEBP.")
                    else if sizeLimit <? file_size file then
                      Respond (bad_request "Image must be 5MB or smaller")
                    else Continue (trimmedPrompt, file)
              | _ => Respond (bad_request "Field 'prompt' is required")
              end
          | _ => Respond (bad_request "Field 'image' is required")
          end
      end.

(** The response of the [catch] block. *)
Definition catch_response (err : thrown) : response :=
  mkResponse (catch_status err)
             (FailedWithHint (catch_message err) (parseRetryDelayMs err)).

(** *** The answer of the model *)

Record inlineData := mkInline {
  mimeType : option jsstring;
  data : option jsstring
}.

Record part := mkPart {
  part_inlineData : option inlineData;
  part_text : option jsstring
}.

Record candidate := mkCandidate {
  content_parts : option (list part)       (* cand?.content?.parts *)
}.

Record sdkResponse := mkSdk {
  candidates : option (list candidate)     (* sdkResponse?.candidates *)
}.

(** What the handler uses of its host besides the model: [randomUUID],
    [Bun.write], which may fail, [mime.getExtension], [path.join], the
    directory of the edited images and the decoding of base64. *)
Record host (H : Type) := mkHost {
  randomUUID : H -> jsstring * H;
  Bun_write : jsstring -> list N -> H -> option thrown * H;
  getExtension : jsstring -> option jsstring;
  path_join : jsstring -> jsstring -> jsstring;
  editedDir : jsstring;
  base64_decode : jsstring -> list N
}.
Arguments mkHost {H}.
Arguments randomUUID {H} h.
Arguments Bun_write {H} h.
Arguments getExtension {H} h.
Arguments path_join {H} h.
Arguments editedDir {H} h.
Arguments base64_decode {H} h.

Section Extraction.

Context {H : Type}.
Variable sys : host H.
Variable req_origin : jsstring.

(** The variables of the loop over the parts. *)
Record vars := mkVars {
  imageUrl : option jsstring;
  textOut : jsstring;
  fileIndex : nat
}.

(** The extension of the file written for an image part. *)
Definition ext_of (d : inlineData) : jsstring :=
  or_else (getExtension sys (or_else (mimeType d) (lit "image/png"))) (lit "png").

(** [`${id}-${fileIndex++}.${ext}`] *)
Definition filename_of (id : jsstring) (index : nat) (ext : jsstring) : jsstring :=
  id ++ lit "-" ++ decimal index ++ lit "." ++ ext.

(** [`${origin}/edited/${filename}`] *)
Definition url_of (filename : jsstring) : jsstring :=
  req_origin ++ lit "/edited/" ++ filename.

(** The body of the inner loop.  Beside the host's state it keeps the list
    of the files written so far, each with its path and content. *)
Definition do_part (p : part) (v : vars) (h : H) (written : list (jsstring * list N))
  : (thrown + vars) * H * list (jsstring * list N) :=
  match part_inlineData p with
  | Some d =>
      let ext := ext_of d in
      let '(id, h1) := randomUUID sys h in
      let filename := filename_of id (fileIndex v) ext in
      let absPath := path_join sys (editedDir sys) filename in
      let buffer := base64_decode sys (or_else (data d) []) in
      match Bun_write sys absPath buffer h1 with
      | (Some e, h2) => (inl e, h2, written)
      | (None, h2) =>
          (inr (mkVars (Some (url_of filename)) (textOut v) (S (fileIndex v))),
           h2, written ++ [(absPath, buffer)])
      end
  | None =>
      match part_text p with
      | Some t =>
          if negb (is_empty t)
          then (inr (mkVars (imageUrl v) (textOut v ++ t) (fileIndex v)), h, written)
          else (inr v, h, written)
      | None => (inr v, h, written)
      end
  end.

Fixpoint do_parts (ps : list part) (v : vars) (h : H)
    (written : list (jsstring * list N))
  : (thrown + vars) * H * list (jsstring * list N) :=
  match ps with
  | [] => (inr v, h, written)
  | p :: ps' =>
      match do_part p v h written with
      | (inl e, h', written') => (inl e, h', written')
      | (inr v', h', written') => do_parts ps' v' h' written'
      end
  end.

(** [cand?.content?.parts ?? []] *)
Definition parts_of (c : candidate) : list part :=
  match content_parts c with Some ps => ps | None => [] end.

Fixpoint do_candidates (cs : list candidate) (v : vars) (h : H)
    (written : list (jsstring * list N))
  : (thrown + vars) * H * list (jsstring * list N) :=
  match cs with
  | [] => (inr v, h, written)
  | c :: cs' =>
      match do_parts (parts_of c) v h written with
      | (inl e, h', written') => (inl e, h', written')
      | (inr v', h', written') => do_candidates cs' v' h' written'
      end
  end.

(** [sdkResponse?.candidates ?? []] *)
Definition candidates_of (r : sdkResponse) : list candidate :=
  match candidates r with Some cs => cs | None => [] end.

(** The handler from the answer of the model to its response. *)
Definition respond_with (r : sdkResponse) (h : H)
  : response * H * list (jsstring * list N) :=
  match do_candidates (candidates_of r) (mkVars None [] 0) h [] with
  | (inl e, h', written) => (catch_response e, h', written)
  | (inr v, h', written) =>
      match imageUrl v with
      | Some url =>
          if is_empty url then
            (mkResponse 502 (Failed (lit "Model did not return an image")), h', written)
          else (mkResponse 200 (Succeeded url (textOut v)), h', written)
      | None =>
          (mkResponse 502 (Failed (lit "Model did not return an image")), h', written)
      end
  end.

End Extraction.

(** What a request leaves behind: the response, the states of the model's
    world and of the host, the trace of [withRetries] and the files
    written. *)
Record served (H W : Type) := mkServed {
  sent : response;
  world_after : W;
  host_after : H;
  retries : list (Retry.event sdkResponse);
  files : list (jsstring * list N)
}.
Arguments mkServed {H W}.
Arguments sent {H W}.
Arguments world_after {H W}.
Arguments host_after {H W}.
Arguments retries {H W}.
Arguments files {H W}.

(** The handler.  [generateContent] is the call of the model through the
    Throttler, as a unit of work for [withRetries].  Reading the bytes of an
    accepted file, building the request of the model and [stat], whose
    failure the handler ignores, are taken not to throw. *)
Definition edit_image {H W} (sys : host H)
    (generateContent : jsstring -> file -> unit_of_work sdkResponse W)
    (req : request) (w : W) (h : H) : served H W :=
  match validate req with
  | Respond r => mkServed r w h [] []
  | Raise e => mkServed (catch_response e) w h [] []
  | Continue (trimmedPrompt, file) =>
      let '(res, w', tr) := withRetries (generateContent trimmedPrompt file) 2 w in
      match res with
      | Returned sdk =>
          let '(r, h', written) := respond_with sys (origin req) sdk h in
          mkServed r w' h' tr written
      | Thrown e => mkServed (catch_response e) w' h tr []
      | OutOfFuel => mkServed (catch_response Undefined) w' h tr []
      end
  end.

(** The image parts among [ps], and the texts of the other parts. *)
Definition image_parts (ps : list part) : list inlineData :=
  flat_map (fun p => match part_inlineData p with
                     | Some d => [d]
                     | None => []
                     end) ps.

Definition text_parts (ps : list part) : list jsstring :=
  flat_map (fun p => match part_inlineData p, part_text p with
                     | None, Some t => [t]
                     | _, _ => []
                     end) ps.

(** The files that the loop writes for the image parts [ds] when
    [randomUUID] returns [ids], the first of them with the index [index]. *)
Fixpoint files_for {H} (sys : host H) (index : nat) (ds : list inlineData)
    (ids : list jsstring) : list (jsstring * list N) :=
  match ds, ids with
  | d :: ds', id :: ids' =>
      (path_join sys (editedDir sys) (filename_of id index (ext_of sys d)),
       base64_decode sys (or_else (data d) []))
      :: files_for sys (S index) ds' ids'
  | _, _ => []
  end.

(** The request passes every check of the handler, with [p] as the trimmed
    prompt and [f] as the image. *)
Definition valid (req : request) (p : jsstring) (f : file) : Prop :=
  exists key ct raw,
    GEMINI_API_KEY req = Some key /\ key <> [] /\
    content_type req = Some ct /\
    includes ct (lit "multipart/form-data") = true /\
    formData req = inr (mkForm (Upload f) (Text raw)) /\
    p = trim raw /\
    (1 <= length p <= 500)%nat /\
    In (file_type f) allowedMime /\
    file_size f <= sizeLimit.

(** The image parts of the answer, in the order of the loops. *)
Definition images (r : sdkResponse) : list inlineData :=
  flat_map (fun c =>
              flat_map (fun p => match part_inlineData p with
                                 | Some d => [d]
                                 | None => []
                                 end) (parts_of c))
           (candidates_of r).

(** The texts of the parts that are no image parts, in the order of the
    loops. *)
Definition texts (r : sdkResponse) : list jsstring :=
  flat_map (fun c =>
              flat_map (fun p => match part_inlineData p, part_text p with
                                 | None, Some t => [t]
                                 | _, _ => []
                                 end) (parts_of c))
           (candidates_of r).

End Handler.
Import Handler.

(** ** The web client *)

Module Client.

(** [handleFile] of the image uploader: the error it sets and the argument
    of its call of [onChange]. *)
Definition handleFile (f : option file) : option jsstring * option file :=
  match f with
  | None => (None, None)
  | Some file =>
      if negb (allowed (file_type file)) then
        (Some (lit "Unsupported file type. Use JPG, PNG, or WEBP."), None)
      else if 5 * 1024 * 1024 <? file_size file then
        (Some (lit "Image must be 5MB or smaller."), None)
      else (None, Some file)
  end.

(** [remaining] and [tooLong] of the prompt input. *)
Definition remaining (maxLength : Z) (value : jsstring) : Z :=
  maxLength - Z.of_nat (length value).

Definition tooLong (maxLength : Z) (value : jsstring) : bool :=
  remaining maxLength value <? 0.

(** [canSubmit] of the home page. *)
Definition canSubmit (f : option file) (prompt : jsstring) : bool :=
  match f with
  | Some _ =>
      (0 <? length (trim prompt))%nat && (length (trim prompt) <=? 500)%nat
  | None => false
  end.

(** The form that [mutationFn] sends, or the error it throws first. *)
Definition submitted (f : option file) (prompt : jsstring) : thrown + form :=
  match f with
  | None => inl (ErrorObject 0 (lit "Please upload an image."))
  | Some file => inr (mkForm (Upload file) (Text (trim prompt)))
  end.

(** *** The form on its way to the handler *)

(** The first and the second half of a surrogate pair. *)
Definition is_lead (c : N) : bool := ((55296 <=? c) && (c <=? 56319))%N.

Definition is_trail (c : N) : bool := ((56320 <=? c) && (c <=? 57343))%N.

(** The conversion to a string of scalar values that [FormData.append]
    applies to its arguments: a surrogate that is no half of a pair becomes
    U+FFFD.  [after_lead] tells that the code unit before was the first
    half of a pair. *)
Fixpoint to_USVString_from (after_lead : bool) (s : jsstring) : jsstring :=
  match s with
  | [] => []
  | c :: s' =>
      if is_trail c then
        (if after_lead then c else 65533%N) :: to_USVString_from false s'
      else if is_lead c then
        let paired := match s' with d :: _ => is_trail d | [] => false end in
        (if paired then c else 65533%N) :: to_USVString_from paired s'
      else c :: to_USVString_from false s'
  end.

Definition to_USVString (s : jsstring) : jsstring := to_USVString_from false s.

(** The line breaks of a value in the multipart/form-data encoding that
    [fetch] applies to a [FormData] body: a CR that no LF follows and a LF
    that no CR precedes are written as CR LF.  [after_cr] tells that the
    code unit before was a CR. *)
Fixpoint normalize_newlines_from (after_cr : bool) (s : jsstring) : jsstring :=
  match s with
  | [] => []
  | c :: s' =>
      if N.eqb c 13 then
        let followed := match s' with d :: _ => N.eqb d 10 | [] => false end in
        (if followed then [13%N] else [13%N; 10%N])
        ++ normalize_newlines_from true s'
      else if N.eqb c 10 then
        (if after_cr then [10%N] else [13%N; 10%N])
        ++ normalize_newlines_from false s'
      else c :: normalize_newlines_from false s'
  end.

Definition normalize_newlines (s : jsstring) : jsstring :=
  normalize_newlines_from false s.

(** A string value as the handler reads it from the request. *)
Definition on_the_wire (value : jsstring) : jsstring :=
  normalize_newlines (to_USVString value).

(** What [c.req.formData()] returns for a form that the page sent.  A file
    is taken to arrive with its type and its size. *)
Definition arrives (f : form) : form :=
  let entry x := match x with Text s => Text (on_the_wire s) | other => other end in
  mkForm (entry (form_image f)) (entry (form_prompt f)).

(** The string has no line break and no surrogate. *)
Definition plain (s : jsstring) : bool :=
  forallb (fun c => negb (N.eqb c 13 || N.eqb c 10 || is_lead c || is_trail c)) s.

(** [res.ok] *)
Definition ok (r : response) : bool := (200 <=? status r) && (status r <=? 299).

(** What [mutationFn] does with the response: it returns the image and the
    text, or throws an [Error] with this message. *)
Definition received (r : response) : jsstring + (jsstring * jsstring) :=
  let failure (error : jsstring) :=
    inl (or_else (Some error)
                 (lit "Request failed with " ++ decimal (Z.to_nat (status r)))) in
  match payload r with
  | Succeeded imageUrl text =>
      if ok r then inr (imageUrl, text) else failure []
  | Failed error | FailedWithHint error _ => failure error
  end.

(** [onError]: the text of the toast. *)
Definition toast (message : jsstring) : jsstring :=
  or_else (Some message) (lit "Failed to edit image").

End Client.

(** ** Observations on runs of the Throttler and of [withRetries] *)

Module Runs.
Import Throttler.

(** The outcomes of the units of work in a sequence of events, in order. *)
Definition settlements {T} (evs : list (Throttler.event T))
  : list (nat * settlement T) :=
  flat_map (fun ev => match ev with Settle id r => [(id, r)] | _ => [] end) evs.

(** No unit of work settles in [evs]. *)
Definition none_settles {T} (evs : list (Throttler.event T)) : Prop :=
  settlements evs = [].

(** The waits of a trace of [withRetries], in order. *)
Definition sleeps {T} (tr : list (Retry.event T)) : list millis :=
  flat_map (fun ev => match ev with Sleep d => [d] | _ => [] end) tr.

(** The numbers of the attempts of a trace, in order. *)
Definition attempt_numbers {T} (tr : list (Retry.event T)) : list Z :=
  flat_map (fun ev => match ev with Attempt n _ => [n] | _ => [] end) tr.

(** The failures of a trace, in order. *)
Definition failures {T} (tr : list (Retry.event T)) : list thrown :=
  flat_map (fun ev => match ev with Attempt _ (inr e) => [e] | _ => [] end) tr.

End Runs.

(** ** Concrete requests, answers and hosts *)

Module HandlerScenario.

Definition cat : file := mkFile (lit "cat.png") (lit "image/png") 204800.

Definition multipart : jsstring := lit "multipart/form-data; boundary=----x".

Definition here : jsstring := lit "http://localhost:3000".

Definition request_with (prompt : string) : request :=
  mkRequest (Some (lit "secret")) (Some multipart)
            (inr (mkForm (Upload cat) (Text (lit prompt))))
            here.

Definition good_request : request := request_with "  add a hat ".

(** A prompt of 500 code units with a line break in the middle. *)
Definition long_prompt : jsstring := repeat 97%N 250 ++ [10%N] ++ repeat 97%N 249.

Definition blank_request : request := request_with "   ".

(** A host that counts the identifiers drawn, names them after the count
    and writes every file. *)
Definition disk : host nat :=
  mkHost (fun h => (lit "uuid" ++ decimal h, S h))
         (fun _ _ h => (None, h))
         (fun t => if JsString.eqb t (lit "image/png") then Some (lit "png")
                   else if JsString.eqb t (lit "image/jpeg") then Some (lit "jpeg")
                   else None)
         (fun a b => a ++ lit "/" ++ b)
         (lit "/srv/public/edited")
         (fun s => s).

(** The same host with room for one file only. *)
Definition full_disk : host nat :=
  mkHost (randomUUID disk)
         (fun _ _ h => if (1 <? h)%nat
                       then (Some (ErrorObject 9 (lit "ENOSPC: no space left")), h)
                       else (None, h))
         (getExtension disk) (path_join disk) (editedDir disk) (base64_decode disk).

Definition picture (mime : string) : part :=
  mkPart (Some (mkInline (Some (lit mime)) (Some (lit "AAAA")))) (Some (lit "caption")).

Definition words (t : string) : part := mkPart None (Some (lit t)).

Definition two_pictures : sdkResponse :=
  mkSdk (Some [mkCandidate (Some [words "Here "; picture "image/png";
                                  words "you go"; picture "image/jpeg"])]).

Definition only_words : sdkResponse :=
  mkSdk (Some [mkCandidate (Some [words "No image today"]); mkCandidate None]).

(** A model that returns [answer] at once, and one that is always out of
    quota. *)
Definition model (answer : sdkResponse)
  : jsstring -> file -> unit_of_work sdkResponse nat :=
  fun _ _ w => (inl answer, S w).

Definition busy_model : jsstring -> file -> unit_of_work sdkResponse nat :=
  fun _ _ w => (inr (ErrorObject w exhausted_doc), S w).

Definition seconds_doc : jsstring :=
  json_text
    "{'error':{'status':'RESOURCE_EXHAUSTED','details':[{'@type':'type.googleapis.com/google.rpc.RetryInfo','retryDelay':'7s'}]}}".

Definition null_doc : jsstring :=
  json_text
    "{'error':{'status':'RESOURCE_EXHAUSTED','details':[null,{'@type':'type.googleapis.com/google.rpc.RetryInfo','retryDelay':'7s'}]}}".

End HandlerScenario.

(** ** More runs of the Throttler *)

Module ThrottlerRuns.
Import Throttler ThrottlerScenario.

(** With an interval of 100 ms: the first unit of work has settled and the
    interval has elapsed, the second call is about to be resumed by its
    timer. *)
Definition waiting_events : list (event nat) :=
  busy_events ++ [Settle 0 (Resolved 7%nat); Tick 100].

Definition waiting_state : state nat := Eval vm_compute in state_after waiting_events.

(** Time passes and calls are made, and the unit of work in flight does not
    settle. *)
Definition idle_talk : list (event nat) := [Tick 100000; Call; Tick 5; Call].

Definition stuck_state : state nat :=
  Eval vm_compute in state_after (busy_events ++ idle_talk).

(** The unit of work in flight settles and the next one is started by its
    timer. *)
Definition resumption : list (event nat) :=
  [Settle 0 (Resolved 7%nat); Tick 100; Timeout 1].

Definition resumed_state : state nat :=
  Eval vm_compute in state_after (busy_events ++ resumption).

(** The Throttler at rest after [demo_events] and the last settlement. *)
Definition rest_events : list (event nat) :=
  demo_events ++ [Settle 2 (Resolved 9%nat); Tick 100].

Definition rest_state : state nat := Eval vm_compute in state_after rest_events.

(** With an interval of 0 ms, from time 0: three calls at once, the first
    unit of work settles. *)
Definition eager_events : list (event nat) :=
  [Call; Call; Call; Settle 0 (Resolved 7%nat)].

Definition eager_state : state nat :=
  Eval vm_compute in
    match exec 0 (init 0) eager_events with
    | Some s => s
    | None => init 0
    end.

End ThrottlerRuns.

Import Client Runs HandlerScenario.

(** * Facts *)

Module StringFacts.

Lemma startsWith_spec (s p : jsstring) :
  startsWith s p = true <-> exists t, s = p ++ t.
Proof.
  revert s. induction p as [|d p IH]; intros s.
  - destruct s; split; intros _; try reflexivity; eexists; reflexivity.
  - destruct s as [|c s]; cbn [startsWith].
    + split; [discriminate | intros [t H]; discriminate].
    + rewrite andb_true_iff, N.eqb_eq, IH. split.
      * intros [-> [t ->]]. exists t. reflexivity.
      * intros [t [= -> ->]]. split; [reflexivity | exists t; reflexivity].
Qed.

(** [includes] is the substring relation. *)
Lemma includes_spec (s p : jsstring) :
  includes s p = true <-> exists pre post, s = pre ++ p ++ post.
Proof.
  induction s as [|c s IH]; cbn [includes].
  - rewrite orb_false_r, startsWith_spec. split.
    + intros [t H]. exists [], t. exact H.
    + intros (pre & post & H). destruct pre; [|discriminate].
      exists post. exact H.
  - rewrite orb_true_iff, IH, startsWith_spec. split.
    + intros [[t H]|(pre & post & ->)].
      * exists [], t. exact H.
      * exists (c :: pre), post. reflexivity.
    + intros (pre & post & H). destruct pre as [|c' pre].
      * left. exists post. exact H.
      * right. injection H as _ ->. exists pre, post. reflexivity.
Qed.

End StringFacts.

Module NumberFacts.

Lemma round_half_even_nonneg (n d : Z) : 0 <= n -> 0 < d -> 0 <= round_half_even n d.
Proof.
  intros Hn Hd. unfold round_half_even.
  assert (0 <= n / d) by (apply Z.div_pos; lia).
  destruct (2 * (n mod d) <? d); [lia|].
  destruct (d <? 2 * (n mod d)); [lia|].
  destruct (Z.even (n / d)); lia.
Qed.

Lemma round_half_even_multiple (q d : Z) : 0 < d -> round_half_even (q * d) d = q.
Proof.
  intros Hd. unfold round_half_even.
  rewrite Z.div_mul, Z.mod_mul by lia.
  destruct (Z.ltb_spec (2 * 0) d); [reflexivity|lia].
Qed.

Lemma of_rational_pos_sign (n d : Z) :
  0 < n -> 0 < d -> not_positive (opposite (of_rational_pos n d)).
Proof.
  intros Hn Hd. unfold of_rational_pos.
  set (e := Z.max (floor_log2 n d - 52) (-1074)).
  set (m := round_half_even (n * 2 ^ Z.max 0 (- e)) (d * 2 ^ Z.max 0 e)).
  assert (Hm : 0 <= m).
  { apply round_half_even_nonneg.
    - assert (0 < 2 ^ Z.max 0 (- e)) by (apply Z.pow_pos_nonneg; lia). nia.
    - assert (0 < 2 ^ Z.max 0 e) by (apply Z.pow_pos_nonneg; lia). nia. }
  destruct (m =? 0); [cbn; lia|].
  destruct (m =? 2 ^ 53).
  - destruct (971 <? e + 1); cbn; [exact I|lia].
  - destruct (971 <? e); cbn; [exact I|lia].
Qed.

Lemma of_rational_not_positive (n d : Z) :
  n <= 0 -> 0 < d -> not_positive (of_rational n d).
Proof.
  intros Hn Hd. unfold of_rational.
  destruct (Z.eqb_spec n 0); [cbn; lia|].
  destruct (Z.ltb_spec n 0); [|lia].
  apply of_rational_pos_sign; lia.
Qed.

Lemma of_decimal_not_positive (m e : Z) : m <= 0 -> not_positive (of_decimal m e).
Proof.
  intros Hm. unfold of_decimal. apply of_rational_not_positive.
  - assert (0 < 10 ^ Z.max 0 e) by (apply Z.pow_pos_nonneg; lia). nia.
  - apply Z.pow_pos_nonneg; lia.
Qed.

Lemma times_1000_not_positive (x : number) :
  not_positive x -> not_positive (times_1000 x).
Proof.
  destruct x as [m e| | |]; cbn [not_positive times_1000]; intros Hx; try exact Hx.
  apply of_rational_not_positive.
  - assert (0 < 2 ^ Z.max 0 e) by (apply Z.pow_pos_nonneg; lia). nia.
  - apply Z.pow_pos_nonneg; lia.
Qed.

Lemma Math_ceil_not_positive (x : number) :
  not_positive x -> ms_not_positive (Math_ceil x).
Proof.
  destruct x as [m e| | |]; cbn [not_positive Math_ceil ms_not_positive];
    intros Hx; [|destruct Hx|exact I|destruct Hx].
  assert (0 < 2 ^ Z.max 0 e) by (apply Z.pow_pos_nonneg; lia).
  assert (0 < 2 ^ Z.max 0 (- e)) by (apply Z.pow_pos_nonneg; lia).
  assert (0 <= (- m * 2 ^ Z.max 0 e) / 2 ^ Z.max 0 (- e)); [|lia].
  apply Z.div_pos; nia.
Qed.

(** Rounding a decimal never gives NaN. *)
Lemma of_decimal_not_NaN (m e : Z) : isNaN (of_decimal m e) = false.
Proof.
  unfold of_decimal, of_rational, of_rational_pos.
  repeat match goal with |- context [if ?b then _ else _] => destruct b end;
    reflexivity.
Qed.

(** A literal that is negative gives a number that is no NaN and a ceiling
    of its milliseconds that is not positive. *)
Lemma negative_literal_ceil (s : jsstring) :
  negative_literal (literal_of s) ->
  isNaN (parseFloat s) = false /\ ms_not_positive (ceil_times_1000 (parseFloat s)).
Proof.
  unfold parseFloat, ceil_times_1000.
  destruct (literal_of s) as [m e|neg|]; cbn [negative_literal]; intros Hneg.
  - pose proof (of_decimal_not_positive m e ltac:(lia)) as Hd.
    split.
    + destruct (of_decimal m e); try reflexivity. destruct Hd.
    + apply Math_ceil_not_positive, times_1000_not_positive, Hd.
  - subst neg. split; [reflexivity|exact I].
  - destruct Hneg.
Qed.

(** [Math.ceil] returns the least integer that is at least its argument. *)
Lemma Math_ceil_least (m e z : Z) :
  Math_ceil (Finite m e) = Ms z ->
  m * 2 ^ Z.max 0 e <= z * 2 ^ Z.max 0 (- e) /\
  (z - 1) * 2 ^ Z.max 0 (- e) < m * 2 ^ Z.max 0 e.
Proof.
  cbn [Math_ceil]. intros [= <-].
  set (a := m * 2 ^ Z.max 0 e). set (b := 2 ^ Z.max 0 (- e)).
  assert (Hb : 0 < b) by (apply Z.pow_pos_nonneg; lia).
  replace (- m * 2 ^ Z.max 0 e) with (- a) by (unfold a; ring).
  pose proof (Z.div_mod (- a) b ltac:(lia)) as Hdm.
  pose proof (Z.mod_pos_bound (- a) b Hb) as Hr.
  nia.
Qed.

(** Integers below [2^53] are binary64 values. *)
Lemma of_rational_pos_integer (q d : Z) :
  0 < d -> 0 < q < 2 ^ 53 ->
  of_rational_pos (q * d) d = Finite (q * 2 ^ (52 - Z.log2 q)) (Z.log2 q - 52).
Proof.
  intros Hd [Hq0 Hq]. unfold of_rational_pos, floor_log2.
  destruct (Z.leb_spec d (q * d)); [|nia].
  rewrite Z.div_mul by lia.
  pose proof (Z.log2_nonneg q) as HL0.
  assert (HL : Z.log2 q < 53) by (apply Z.log2_lt_pow2; lia).
  pose proof (Z.log2_spec q Hq0) as [Hlo Hhi].
  set (L := Z.log2 q) in *.
  rewrite (Z.max_l (L - 52) (-1074)) by lia.
  rewrite (Z.max_r 0 (- (L - 52))) by lia.
  rewrite (Z.max_l 0 (L - 52)) by lia.
  replace (- (L - 52)) with (52 - L) by lia.
  replace (q * d * 2 ^ (52 - L)) with (q * 2 ^ (52 - L) * d) by ring.
  rewrite Z.pow_0_r, Z.mul_1_r, round_half_even_multiple by lia.
  assert (Hp : 0 < 2 ^ (52 - L)) by (apply Z.pow_pos_nonneg; lia).
  assert (Hm : q * 2 ^ (52 - L) < 2 ^ 53).
  { replace (2 ^ 53) with (2 ^ Z.succ L * 2 ^ (52 - L)).
    - apply Z.mul_lt_mono_pos_r; assumption.
    - rewrite <- Z.pow_add_r by lia. f_equal. lia. }
  destruct (Z.eqb_spec (q * 2 ^ (52 - L)) 0); [nia|].
  destruct (Z.eqb_spec (q * 2 ^ (52 - L)) (2 ^ 53)); [lia|].
  destruct (Z.ltb_spec 971 (L - 52)); [lia|reflexivity].
Qed.

Lemma Math_ceil_integer (q : Z) :
  0 < q < 2 ^ 53 ->
  Math_ceil (Finite (q * 2 ^ (52 - Z.log2 q)) (Z.log2 q - 52)) = Ms q.
Proof.
  intros [Hq0 Hq]. cbn [Math_ceil].
  pose proof (Z.log2_nonneg q) as HL0.
  assert (HL : Z.log2 q < 53) by (apply Z.log2_lt_pow2; lia).
  set (L := Z.log2 q) in *.
  rewrite (Z.max_l 0 (L - 52)) by lia.
  rewrite (Z.max_r 0 (- (L - 52))) by lia.
  replace (- (L - 52)) with (52 - L) by lia.
  rewrite Z.pow_0_r, Z.mul_1_r.
  replace (- (q * 2 ^ (52 - L))) with (- q * 2 ^ (52 - L)) by ring.
  assert (Hp : 0 < 2 ^ (52 - L)) by (apply Z.pow_pos_nonneg; lia).
  rewrite Z.div_mul by lia. f_equal. lia.
Qed.

(** A whole number of seconds whose milliseconds stay below [2^53] gives
    exactly its milliseconds. *)
Lemma ceil_times_1000_integer (q : Z) :
  0 <= q -> q * 1000 < 2 ^ 53 ->
  ceil_times_1000 (of_decimal q 0) = Ms (q * 1000).
Proof.
  intros Hq0 Hq. unfold of_decimal, of_rational.
  change (Z.max 0 0) with 0. change (Z.max 0 (- 0)) with 0.
  rewrite Z.pow_0_r, Z.mul_1_r.
  destruct (Z.eqb_spec q 0) as [->|Hne]; [reflexivity|].
  destruct (Z.ltb_spec q 0); [lia|].
  rewrite <- (Z.mul_1_r q) at 1.
  rewrite of_rational_pos_integer by lia.
  unfold ceil_times_1000. cbn [times_1000].
  pose proof (Z.log2_nonneg q) as HL0.
  assert (HL : Z.log2 q < 53) by (apply Z.log2_lt_pow2; lia).
  set (L := Z.log2 q) in *.
  rewrite (Z.max_l 0 (L - 52)) by lia.
  rewrite (Z.max_r 0 (- (L - 52))) by lia.
  replace (- (L - 52)) with (52 - L) by lia.
  rewrite Z.pow_0_r, Z.mul_1_r.
  assert (Hp : 0 < 2 ^ (52 - L)) by (apply Z.pow_pos_nonneg; lia).
  replace (q * 2 ^ (52 - L) * 1000) with (q * 1000 * 2 ^ (52 - L)) by ring.
  unfold of_rational.
  destruct (Z.eqb_spec (q * 1000 * 2 ^ (52 - L)) 0); [nia|].
  destruct (Z.ltb_spec (q * 1000 * 2 ^ (52 - L)) 0); [nia|].
  rewrite of_rational_pos_integer by lia.
  apply Math_ceil_integer. lia.
Qed.

End NumberFacts.

Module RetryFacts.
Import NumberFacts.

(** ** Classification *)

Lemma exhausted_is_rate_limited (e : thrown) (m : jsstring) :
  message_of e = Some m -> includes m RESOURCE_EXHAUSTED = true ->
  isRateLimited e = true.
Proof. unfold isRateLimited. intros -> ->. reflexivity. Qed.

Lemma unclassified_not_rate_limited (e : thrown) :
  unclassified e -> isRateLimited e = false.
Proof.
  unfold unclassified, isRateLimited. intros H.
  destruct (message_of e) as [m|]; [|reflexivity].
  destruct (H m eq_refl) as (-> & -> & ->). reflexivity.
Qed.

(** ** The retry-delay hint *)

Lemma find_first (pre post : list json) (ri : json) :
  Forall (fun d => is_RetryInfo d = Some false) pre ->
  is_RetryInfo ri = Some true ->
  find_RetryInfo (pre ++ ri :: post) = Some (V ri).
Proof.
  intros Hpre Hri. induction Hpre as [|d pre Hd _ IH]; simpl.
  - rewrite Hri. reflexivity.
  - rewrite Hd. exact IH.
Qed.

Lemma find_none (details : list json) :
  Forall (fun d => is_RetryInfo d = Some false) details ->
  find_RetryInfo details = Some VUndefined.
Proof.
  intros Hall. induction Hall as [|d ds Hd _ IH]; simpl; [reflexivity|].
  rewrite Hd. exact IH.
Qed.

(** Only the first RetryInfo entry of the detail is consulted. *)
Lemma hint_of_first (data ri : json) :
  first_RetryInfo data ri ->
  hint_of_data data = delay_ms (get ri (lit "retryDelay")).
Proof.
  intros (pre & post & Hd & Hpre & Hri). unfold hint_of_data.
  rewrite Hd. cbn [truthy]. rewrite (find_first _ _ _ Hpre Hri).
  destruct ri; reflexivity || discriminate Hri.
Qed.

Lemma hint_of_carried (e : thrown) (delay : jsstring) :
  carries_retryDelay e delay ->
  parseRetryDelayMs e =
  match delay_ms (V (JString delay)) with
  | Returns ms => Some ms
  | _ => None
  end.
Proof.
  intros (m & data & ri & Hm & Hp & Hfirst & Hget). unfold parseRetryDelayMs.
  rewrite Hm. destruct m as [|c m]; [discriminate Hp|]. cbn [is_empty].
  unfold try_block. rewrite Hp, (hint_of_first _ _ Hfirst), Hget. reflexivity.
Qed.

Lemma backoff_positive (n : Z) : 0 <= n -> 2000 <= 2000 * 2 ^ n.
Proof. intros Hn. assert (0 < 2 ^ n) by (apply Z.pow_pos_nonneg; lia). lia. Qed.

(** ** The loop of [withRetries] *)

Section Loop.

Context {T W : Type}.
Variable work : unit_of_work T W.
Variable maxRetries : Z.

Local Abbreviation loop := (retry_loop work maxRetries).

(** The loop ends before its fuel does. *)
Lemma retry_loop_total (fuel : nat) :
  forall attempt lastErr w,
    (Z.to_nat (maxRetries + 1 - attempt) < fuel)%nat ->
    fst (fst (loop fuel attempt lastErr w)) <> OutOfFuel.
Proof.
  induction fuel as [|fuel IH]; intros attempt lastErr w Hfuel; [lia|].
  cbn [retry_loop]. destruct (attempt <=? maxRetries); [|discriminate].
  destruct (work w) as [[v|e] w1]; [discriminate|].
  destruct (isRateLimited e); [|discriminate]. cbn [andb].
  destruct (Z.ltb_spec attempt maxRetries); [|discriminate].
  specialize (IH (attempt + 1) e w1).
  destruct (loop fuel (attempt + 1) e w1) as [[res w2] tr].
  apply IH. lia.
Qed.

(** After a failed attempt the loop either waits for [retry_delay] and goes
    on, which it does when the failure is rate limiting and retries are
    left, or ends. *)
Lemma after_failed_attempt (fuel : nat) :
  forall attempt lastErr w pre n e post,
    snd (loop fuel attempt lastErr w) = pre ++ Attempt n (inr e) :: post ->
    attempt <= n /\
    ((isRateLimited e = true /\ n < maxRetries /\
      exists post', post = Sleep (retry_delay e n) :: post') \/
     (isRateLimited e && (n <? maxRetries) = false /\ post = [])).
Proof.
  induction fuel as [|fuel IH]; intros attempt lastErr w pre n e post;
    cbn [retry_loop].
  - destruct pre; discriminate.
  - destruct (attempt <=? maxRetries); [|destruct pre; discriminate].
    destruct (work w) as [[v|e0] w1].
    + destruct pre as [|x [|y pre]]; discriminate.
    + destruct (isRateLimited e0 && (attempt <? maxRetries)) eqn:Hc.
      * specialize (IH (attempt + 1) e0 w1).
        destruct (loop fuel (attempt + 1) e0 w1) as [[res w2] tr].
        cbn [snd] in *. destruct pre as [|x [|y pre]]; cbn [app].
        -- intros [= <- <- <-]. apply andb_true_iff in Hc as [Hr Hn].
           apply Z.ltb_lt in Hn. split; [lia|]. left.
           repeat split; try assumption. eexists; reflexivity.
        -- discriminate.
        -- intros [= _ _ H]. destruct (IH _ _ _ _ H) as [Hle Hrest].
           split; [lia | exact Hrest].
      * cbn [snd]. destruct pre as [|x pre]; cbn [app].
        -- intros [= <- <- <-]. split; [lia|]. right. split; [exact Hc | reflexivity].
        -- destruct pre; discriminate.
Qed.

(** What the loop throws is the failure of its last attempt, or [lastErr]
    when it made no attempt. *)
Lemma thrown_is_last (fuel : nat) :
  forall attempt lastErr w e,
    fst (fst (loop fuel attempt lastErr w)) = Thrown e ->
    (maxRetries < attempt /\ snd (loop fuel attempt lastErr w) = [] /\ e = lastErr) \/
    exists pre n, snd (loop fuel attempt lastErr w) = pre ++ [Attempt n (inr e)].
Proof.
  induction fuel as [|fuel IH]; intros attempt lastErr w e; cbn [retry_loop].
  - discriminate.
  - destruct (Z.leb_spec attempt maxRetries).
    + destruct (work w) as [[v|e0] w1]; [discriminate|].
      destruct (isRateLimited e0 && (attempt <? maxRetries)) eqn:Hc.
      * specialize (IH (attempt + 1) e0 w1 e).
        destruct (loop fuel (attempt + 1) e0 w1) as [[res w2] tr].
        cbn [fst snd] in *. intros Hthrown. right.
        apply andb_true_iff in Hc as [_ Hn]. apply Z.ltb_lt in Hn.
        destruct (IH Hthrown) as [(Hgt & _)|(pre & n & ->)]; [lia|].
        exists (Attempt attempt (inr e0) :: Sleep (retry_delay e0 attempt) :: pre), n.
        reflexivity.
      * cbn [fst snd]. intros [= ->]. right. exists [], attempt. reflexivity.
    + cbn [fst snd]. intros [= ->]. left. repeat split. assumption.
Qed.

End Loop.

Lemma withRetries_total {T W} (work : unit_of_work T W) (maxRetries : Z) (w : W) :
  fst (fst (withRetries work maxRetries w)) <> OutOfFuel.
Proof. apply retry_loop_total. lia. Qed.

(** A failed attempt with retries left and a rate-limiting failure is
    followed by the wait that [retry_delay] computes. *)
Lemma retried {T W} (work : unit_of_work T W) (maxRetries : Z) (w : W)
    (pre post : list (event T)) (n : Z) (e : thrown) :
  snd (withRetries work maxRetries w) = pre ++ Attempt n (inr e) :: post ->
  isRateLimited e = true -> n < maxRetries ->
  0 <= n /\ exists post', post = Sleep (retry_delay e n) :: post'.
Proof.
  intros Htr Hr Hn. apply after_failed_attempt in Htr as [Hle [(_ & _ & H)|[Hc _]]].
  - split; assumption.
  - rewrite Hr in Hc. apply Z.ltb_lt in Hn. rewrite Hn in Hc. discriminate.
Qed.

Lemma no_hint (e : thrown) (m : jsstring) :
  message_of e = Some m -> no_hint_in m -> parseRetryDelayMs e = None.
Proof.
  intros Hm H. unfold parseRetryDelayMs. rewrite Hm.
  destruct (is_empty m); [reflexivity|]. unfold try_block.
  destruct H as [Hp|data Hp Hd|data ds Hp Hd Hall|data ri Hp Hf Hg|data ri d Hp Hf Hg He];
    rewrite Hp; try reflexivity.
  - unfold hint_of_data. rewrite Hd. reflexivity.
  - unfold hint_of_data. rewrite Hd. cbn [truthy].
    rewrite (find_none _ Hall). reflexivity.
  - rewrite (hint_of_first _ _ Hf), Hg. reflexivity.
  - rewrite (hint_of_first _ _ Hf), Hg. unfold delay_ms. rewrite He.
    destruct (truthy (V (JString d))); reflexivity.
Qed.

Lemma hint_doc_carried (e : thrown) :
  message_of e = Some hint_doc -> carries_retryDelay e (lit "1.5s").
Proof.
  intros Hm. exists hint_doc, (parsed hint_doc), (RetryInfo_entry "1.5s").
  split; [exact Hm|]. split; [vm_compute; reflexivity|].
  split; [|vm_compute; reflexivity].
  exists [], []. split; [vm_compute; reflexivity|].
  split; [constructor | vm_compute; reflexivity].
Qed.

(** ** The claims about the retry policy *)

(** C4. Retry exhaustion: when every invocation of the work fails with a
    failure whose message contains RESOURCE_EXHAUSTED, [withRetries(work, 2)]
    invokes the work exactly three times, waiting in between, and throws the
    very failure of the third invocation. *)
Theorem retry_exhaustion {T W} (work : unit_of_work T W) (w0 : W) :
  (forall w, exists e m,
      fst (work w) = inr e /\ message_of e = Some m /\
      includes m RESOURCE_EXHAUSTED = true) ->
  exists e1 e2 e3 w1 w2 w3 d1 d2,
    work w0 = (inr e1, w1) /\ work w1 = (inr e2, w2) /\ work w2 = (inr e3, w3) /\
    withRetries work 2 w0 =
      (Thrown e3, w3,
       [Attempt 0 (inr e1); Sleep d1; Attempt 1 (inr e2); Sleep d2;
        Attempt 2 (inr e3)]) /\
    attempts (snd (withRetries work 2 w0)) = 3%nat.
Proof.
  intros Hfail.
  assert (Hinv : forall w, exists e w', work w = (inr e, w') /\ isRateLimited e = true).
  { intros w. destruct (Hfail w) as (e & m & Hr & Hm & Hi).
    exists e, (snd (work w)). split.
    - destruct (work w) as [r w']. simpl in *. subst r. reflexivity.
    - exact (exhausted_is_rate_limited e m Hm Hi). }
  destruct (Hinv w0) as (e1 & w1 & E1 & R1).
  destruct (Hinv w1) as (e2 & w2 & E2 & R2).
  destruct (Hinv w2) as (e3 & w3 & E3 & R3).
  exists e1, e2, e3, w1, w2, w3, (retry_delay e1 0), (retry_delay e2 1).
  assert (Hrun : withRetries work 2 w0 =
                 (Thrown e3, w3,
                  [Attempt 0 (inr e1); Sleep (retry_delay e1 0);
                   Attempt 1 (inr e2); Sleep (retry_delay e2 1);
                   Attempt 2 (inr e3)])).
  { unfold withRetries. change (S (Z.to_nat (2 + 1))) with 4%nat.
    cbn [retry_loop]. change (0 <=? 2) with true. cbn iota.
    rewrite E1, R1. change (0 <? 2) with true. cbn [andb].
    change (0 + 1) with 1. change (1 <=? 2) with true. cbn iota.
    rewrite E2, R2. change (1 <? 2) with true. cbn [andb].
    change (1 + 1) with 2. change (2 <=? 2) with true. cbn iota.
    rewrite E3, R3. change (2 <? 2) with false. cbn [andb]. reflexivity. }
  repeat split; try assumption. rewrite Hrun. reflexivity.
Qed.

(** C5, as the code has it. A failure whose message is a JSON document whose
    first RetryInfo detail has the [retryDelay] 1.5s, with no [null] detail
    before it, gives the hint 1500, whatever follows that detail; when an
    attempt with retries left fails with such a failure and the failure is
    rate limiting, the wait before the next attempt is 1500 ms and not the
    exponential default.  The document of the claim gives the hint 1500 as
    well, but it has none of the substrings that make a failure rate
    limiting: [withRetries] rethrows it after one invocation, without a
    wait.  In general the hint is the seconds of the first RetryInfo detail
    in milliseconds, rounded up: [Math.ceil] of the binary64 product, the
    least integer that is at least that product, 1001 for 1.0001s. *)
Theorem retry_hint_used (e : thrown) :
  carries_retryDelay e (lit "1.5s") ->
  parseRetryDelayMs e = Some (Ms 1500) /\
  (forall T W (work : unit_of_work T W) maxRetries w pre n post,
      snd (withRetries work maxRetries w) = pre ++ Attempt n (inr e) :: post ->
      isRateLimited e = true -> n < maxRetries ->
      (exists post', post = Sleep (Ms 1500) :: post') /\ 1500 <> 2000 * 2 ^ n) /\
  (forall e0, message_of e0 = Some hint_doc ->
      parseRetryDelayMs e0 = Some (Ms 1500) /\ isRateLimited e0 = false /\
      forall T W (work : unit_of_work T W) maxRetries w w',
        0 <= maxRetries -> work w = (inr e0, w') ->
        withRetries work maxRetries w = (Thrown e0, w', [Attempt 0 (inr e0)])) /\
  (forall e1 delay,
      carries_retryDelay e1 delay -> endsWith delay (lit "s") = true ->
      isNaN (parseFloat (slice_0_m1 delay)) = false ->
      parseRetryDelayMs e1
      = Some (Math_ceil (times_1000 (parseFloat (slice_0_m1 delay))))) /\
  (forall m x z,
      Math_ceil (Finite m x) = Ms z ->
      m * 2 ^ Z.max 0 x <= z * 2 ^ Z.max 0 (- x) /\
      (z - 1) * 2 ^ Z.max 0 (- x) < m * 2 ^ Z.max 0 x) /\
  (forall e1, carries_retryDelay e1 (lit "1.0001s") ->
      parseRetryDelayMs e1 = Some (Ms 1001)).
Proof.
  intros Hc.
  assert (Hp : parseRetryDelayMs e = Some (Ms 1500))
    by (rewrite (hint_of_carried e _ Hc); vm_compute; reflexivity).
  split; [exact Hp|]. split; [|split; [|split; [|split]]].
  - intros T W work maxRetries w pre n post Htr Hr Hn.
    destruct (retried work maxRetries w pre post n e Htr Hr Hn) as [H0 [post' ->]].
    unfold retry_delay. rewrite Hp. split; [eexists; reflexivity|].
    pose proof (backoff_positive n H0). lia.
  - intros e0 Hm.
    assert (Hr : isRateLimited e0 = false)
      by (unfold isRateLimited; rewrite Hm; vm_compute; reflexivity).
    split; [|split; [exact Hr|]].
    + rewrite (hint_of_carried e0 _ (hint_doc_carried e0 Hm)). vm_compute. reflexivity.
    + intros T W work maxRetries w w' Hmax Hw. unfold withRetries. cbn [retry_loop].
      destruct (Z.leb_spec 0 maxRetries); [|lia]. rewrite Hw, Hr. reflexivity.
  - intros e1 delay Hc1 Hs Hn. rewrite (hint_of_carried e1 _ Hc1). unfold delay_ms.
    destruct delay as [|c delay]; [discriminate Hs|]. cbn [truthy is_empty negb].
    rewrite Hs, Hn. reflexivity.
  - exact Math_ceil_least.
  - intros e1 Hc1. rewrite (hint_of_carried e1 _ Hc1). vm_compute. reflexivity.
Qed.

(** C6. Backoff fallback: when an attempt numbered [n] with retries left
    fails with a rate-limiting failure that gives no hint, the wait before
    the next attempt is 2000 * 2^n ms; a message that is no JSON text, that
    lacks the fields, or whose [retryDelay] does not end in [s] gives no
    hint; and what [withRetries] throws in the end is the failure of its
    last attempt, never an error of the parsing. *)
Theorem backoff_fallback {T W} (work : unit_of_work T W) (maxRetries : Z) (w : W)
    (pre post : list (event T)) (n : Z) (e : thrown) :
  snd (withRetries work maxRetries w) = pre ++ Attempt n (inr e) :: post ->
  isRateLimited e = true -> n < maxRetries ->
  parseRetryDelayMs e = None ->
  (exists post', post = Sleep (Ms (2000 * 2 ^ n)) :: post') /\
  (forall e', fst (fst (withRetries work maxRetries w)) = Thrown e' ->
     exists pre' n', snd (withRetries work maxRetries w) = pre' ++ [Attempt n' (inr e')]) /\
  fst (fst (withRetries work maxRetries w)) <> OutOfFuel /\
  (forall e0 m, message_of e0 = Some m -> no_hint_in m -> parseRetryDelayMs e0 = None).
Proof.
  intros Htr Hr Hn Hp. split; [|split; [|split]].
  - destruct (retried work maxRetries w pre post n e Htr Hr Hn) as [_ [post' ->]].
    unfold retry_delay. rewrite Hp. eexists; reflexivity.
  - intros e' Hthrown. apply thrown_is_last in Hthrown as [(_ & Hnil & _)|H].
    + unfold withRetries in Htr. rewrite Hnil in Htr. destruct pre; discriminate.
    + exact H.
  - apply withRetries_total.
  - exact no_hint.
Qed.

(** C7, as the code has it: for a retry bound that is not negative, a
    failure whose message has none of the three substrings ends
    [withRetries] after that one invocation, without a wait, with that very
    failure. *)
Theorem fails_fast_nonnegative {T W} (work : unit_of_work T W) (maxRetries : Z)
    (w : W) :
  0 <= maxRetries -> fails_fast work maxRetries w.
Proof.
  intros Hmax e w' Hw Hun. unfold withRetries. cbn [retry_loop].
  destruct (Z.leb_spec 0 maxRetries); [|lia].
  rewrite Hw, (unclassified_not_rate_limited e Hun). reflexivity.
Qed.

(** C9, as the code has it.  A negative [retryDelay] is a hint like any
    other, when it is the one that is read: when the first RetryInfo detail,
    with no [null] detail before it, has a [retryDelay] that ends in [s] and
    whose number is negative, [parseRetryDelayMs] returns
    [Math.ceil(sec * 1000)], computed in binary64, and never [undefined];
    that value is not positive; it is -3000 for -3s, -1000 for -1.001s and 0
    for -0.0001s; and a rate-limiting failure with retries left is followed
    by that wait, below the exponential default. *)
Theorem negative_hint_used (e : thrown) (delay : jsstring) :
  carries_retryDelay e delay ->
  endsWith delay (lit "s") = true ->
  negative_literal (literal_of (slice_0_m1 delay)) ->
  parseRetryDelayMs e = Some (ceil_times_1000 (parseFloat (slice_0_m1 delay))) /\
  ms_not_positive (ceil_times_1000 (parseFloat (slice_0_m1 delay))) /\
  (delay = lit "-3s" -> parseRetryDelayMs e = Some (Ms (-3000))) /\
  (delay = lit "-1.001s" -> parseRetryDelayMs e = Some (Ms (-1000))) /\
  (delay = lit "-0.0001s" -> parseRetryDelayMs e = Some (Ms 0)) /\
  (forall T W (work : unit_of_work T W) maxRetries w pre n post,
      snd (withRetries work maxRetries w) = pre ++ Attempt n (inr e) :: post ->
      isRateLimited e = true -> n < maxRetries ->
      (exists post',
          post = Sleep (ceil_times_1000 (parseFloat (slice_0_m1 delay))) :: post') /\
      ms_below (ceil_times_1000 (parseFloat (slice_0_m1 delay))) (2000 * 2 ^ n)).
Proof.
  intros Hc Hs Hneg.
  destruct (negative_literal_ceil _ Hneg) as [Hnan Hle].
  assert (Hp : parseRetryDelayMs e
               = Some (ceil_times_1000 (parseFloat (slice_0_m1 delay)))).
  { rewrite (hint_of_carried e _ Hc). unfold delay_ms.
    destruct delay as [|c delay]; [discriminate Hs|]. cbn [truthy is_empty negb].
    rewrite Hs, Hnan. reflexivity. }
  split; [exact Hp|]. split; [exact Hle|]. split; [|split; [|split]].
  - intros ->. rewrite Hp. vm_compute. reflexivity.
  - intros ->. rewrite Hp. vm_compute. reflexivity.
  - intros ->. rewrite Hp. vm_compute. reflexivity.
  - intros T W work maxRetries w pre n post Htr Hr Hn.
    destruct (retried work maxRetries w pre post n e Htr Hr Hn) as [H0 [post' ->]].
    unfold retry_delay. rewrite Hp. split; [eexists; reflexivity|].
    pose proof (backoff_positive n H0) as Hpos.
    destruct (ceil_times_1000 (parseFloat (slice_0_m1 delay)));
      cbn [ms_not_positive ms_below] in *; [lia|exact Hle|exact I].
Qed.

(** C10. A failure whose message contains quota but neither
    RESOURCE_EXHAUSTED nor Too Many Requests is answered with status 500,
    not 429, although [isRateLimited] holds of it. *)
Theorem quota_status_mismatch (err : thrown) (m : jsstring) :
  message_of err = Some m ->
  includes m quota = true ->
  includes m RESOURCE_EXHAUSTED = false ->
  includes m Too_Many_Requests = false ->
  catch_status err = 500 /\ catch_status err <> 429 /\ isRateLimited err = true.
Proof.
  intros Hm Hq Hr Ht.
  assert (Hs : catch_status err = 500).
  { unfold catch_status, catch_message. destruct err as [|id m'|id m'].
    - discriminate Hm.
    - injection Hm as ->. rewrite Hr, Ht. reflexivity.
    - vm_compute. reflexivity. }
  split; [exact Hs|]. split; [rewrite Hs; discriminate|].
  unfold isRateLimited. rewrite Hm, Hq, Hr, Ht. reflexivity.
Qed.

(** ** Instances *)

Example parse_hint_doc :
  JSON_parse hint_doc
  = Some (JObject [(lit "error",
                    JObject [(lit "details", JArray [RetryInfo_entry "1.5s"])])]).
Proof. vm_compute. reflexivity. Qed.

Example no_hint_examples :
  parseRetryDelayMs (ErrorObject 0 RESOURCE_EXHAUSTED) = None /\
  parseRetryDelayMs (ErrorObject 0 (json_text "{'error':{'code':429}}")) = None /\
  parseRetryDelayMs (ErrorObject 0 (json_text "{'error':{'details':[null]}}")) = None /\
  parseRetryDelayMs (ErrorObject 0 minutes_doc) = None /\
  parseRetryDelayMs (OtherValue 0 None) = None /\
  parseRetryDelayMs Undefined = None.
Proof. vm_compute. repeat split; reflexivity. Qed.

(** A rate-limiting failure followed by a success: two attempts, one wait. *)
Example retry_then_success :
  withRetries (fails_once RESOURCE_EXHAUSTED) 2 0%nat
  = (Returned 42%nat, 2%nat,
     [Attempt 0 (inr (ErrorObject 0 RESOURCE_EXHAUSTED)); Sleep (Ms 2000);
      Attempt 1 (inl 42%nat)]).
Proof. vm_compute. reflexivity. Qed.

Lemma retry_exhaustion_witness :
  exists e1 e2 e3 w1 w2 w3 d1 d2,
    always_fails RESOURCE_EXHAUSTED 0%nat = (inr e1, w1) /\
    always_fails RESOURCE_EXHAUSTED w1 = (inr e2, w2) /\
    always_fails RESOURCE_EXHAUSTED w2 = (inr e3, w3) /\
    withRetries (always_fails RESOURCE_EXHAUSTED) 2 0%nat =
      (Thrown e3, w3,
       [Attempt 0 (inr e1); Sleep d1; Attempt 1 (inr e2); Sleep d2;
        Attempt 2 (inr e3)]) /\
    attempts (snd (withRetries (always_fails RESOURCE_EXHAUSTED) 2 0%nat)) = 3%nat.
Proof.
  apply (retry_exhaustion (always_fails RESOURCE_EXHAUSTED) 0%nat).
  intros w. exists (ErrorObject w RESOURCE_EXHAUSTED), RESOURCE_EXHAUSTED.
  repeat split; reflexivity.
Defined.

Lemma exhausted_doc_carried (id : nat) :
  carries_retryDelay (ErrorObject id exhausted_doc) (lit "1.5s").
Proof.
  exists exhausted_doc, (parsed exhausted_doc), (RetryInfo_entry "1.5s").
  split; [reflexivity|]. split; [vm_compute; reflexivity|].
  split; [|vm_compute; reflexivity].
  exists [JObject [(lit "@type", JString (lit "type.googleapis.com/google.rpc.Help"))]],
         [RetryInfo_entry "9s"].
  split; [vm_compute; reflexivity|].
  split; [repeat constructor | vm_compute; reflexivity].
Defined.

(** C5: the document of the claim is no rate-limiting failure, and
    [withRetries] rethrows it without a wait. *)
Lemma hint_doc_not_retried :
  withRetries (always_fails hint_doc) 2 0%nat
  = (Thrown (ErrorObject 0 hint_doc), 1%nat,
     [Attempt 0 (inr (ErrorObject 0 hint_doc))]) /\
  ~ hint_honoured (always_fails hint_doc) 2 0%nat.
Proof.
  split; [vm_compute; reflexivity|]. intros H.
  destruct (H (ErrorObject 0 hint_doc) 1%nat eq_refl eq_refl) as (pre & post & Htr).
  change (snd (withRetries (always_fails hint_doc) 2 0%nat))
    with [Attempt (T:=nat) 0 (inr (ErrorObject 0 hint_doc))] in Htr.
  destruct pre as [|x [|y pre]]; discriminate Htr.
Qed.

Lemma retry_hint_used_witness :
  parseRetryDelayMs (ErrorObject 0 exhausted_doc) = Some (Ms 1500) /\
  exists post',
    tl (snd (withRetries (always_fails exhausted_doc) 2 0%nat))
    = Sleep (Ms 1500) :: post'.
Proof.
  destruct (retry_hint_used (ErrorObject 0 exhausted_doc) (exhausted_doc_carried 0))
    as (Hp & Hw & _).
  split; [exact Hp|].
  destruct (Hw nat nat (always_fails exhausted_doc) 2 0%nat [] 0
              (tl (snd (withRetries (always_fails exhausted_doc) 2 0%nat))))
    as [H _].
  - vm_compute. reflexivity.
  - vm_compute. reflexivity.
  - lia.
  - exact H.
Defined.

Lemma backoff_fallback_witness :
  exists post',
    skipn 5 (snd (withRetries (always_fails minutes_doc) 3 0%nat))
    = Sleep (Ms 8000) :: post'.
Proof.
  destruct (backoff_fallback (always_fails minutes_doc) 3 0%nat
              (firstn 4 (snd (withRetries (always_fails minutes_doc) 3 0%nat)))
              (skipn 5 (snd (withRetries (always_fails minutes_doc) 3 0%nat)))
              2 (ErrorObject 2 minutes_doc)) as [H _].
  - vm_compute. reflexivity.
  - vm_compute. reflexivity.
  - lia.
  - vm_compute. reflexivity.
  - exact H.
Defined.

(** C7: with the retry bound -1 the work is not invoked at all, and what is
    thrown is [undefined]. *)
Lemma fails_fast_negative_bound :
  withRetries (always_fails (lit "boom")) (-1) 0%nat = (Thrown Undefined, 0%nat, []) /\
  ~ fails_fast (always_fails (lit "boom")) (-1) 0%nat.
Proof.
  split; [reflexivity|]. intros H.
  assert (Hun : unclassified (ErrorObject 0 (lit "boom"))).
  { intros m [= <-]. vm_compute. repeat split; reflexivity. }
  specialize (H (ErrorObject 0 (lit "boom")) 1%nat eq_refl Hun).
  vm_compute in H. discriminate H.
Qed.

Lemma fails_fast_nonnegative_witness :
  withRetries (always_fails (lit "boom")) 2 0%nat
  = (Thrown (ErrorObject 0 (lit "boom")), 1%nat,
     [Attempt 0 (inr (ErrorObject 0 (lit "boom")))]).
Proof.
  apply (fails_fast_nonnegative (always_fails (lit "boom")) 2 0%nat).
  - lia.
  - reflexivity.
  - intros m [= <-]. vm_compute. repeat split; reflexivity.
Defined.

(** C9: a RetryInfo detail with the delay -3s that stands behind a [null]
    detail gives no hint, and [withRetries] waits for the exponential
    default; one that stands behind another RetryInfo detail is not read. *)
Lemma negative_hint_not_read :
  has_retryDelay (ErrorObject 0 null_negative_doc) (lit "-3s") /\
  parseRetryDelayMs (ErrorObject 0 null_negative_doc) = None /\
  snd (withRetries (always_fails null_negative_doc) 2 0%nat)
  = [Attempt 0 (inr (ErrorObject 0 null_negative_doc)); Sleep (Ms 2000);
     Attempt 1 (inr (ErrorObject 1 null_negative_doc)); Sleep (Ms 4000);
     Attempt 2 (inr (ErrorObject 2 null_negative_doc))] /\
  has_retryDelay (ErrorObject 0 later_negative_doc) (lit "-3s") /\
  parseRetryDelayMs (ErrorObject 0 later_negative_doc) = Some (Ms 5000) /\
  ~ negative_hint_returned.
Proof.
  assert (Hnull : has_retryDelay (ErrorObject 0 null_negative_doc) (lit "-3s")).
  { exists null_negative_doc, (parsed null_negative_doc), [JNull],
           (RetryInfo_entry "-3s"), [].
    repeat split; vm_compute; reflexivity. }
  split; [exact Hnull|]. split; [vm_compute; reflexivity|].
  split; [vm_compute; reflexivity|]. split; [|split; [vm_compute; reflexivity|]].
  - exists later_negative_doc, (parsed later_negative_doc), [RetryInfo_entry "5s"],
           (RetryInfo_entry "-3s"), [].
    repeat split; vm_compute; reflexivity.
  - intros H. specialize (H _ Hnull). vm_compute in H. discriminate H.
Qed.

Lemma negative_doc_carried :
  carries_retryDelay (ErrorObject 0 negative_doc) (lit "-3s").
Proof.
  exists negative_doc, (parsed negative_doc), (RetryInfo_entry "-3s").
  split; [reflexivity|]. split; [vm_compute; reflexivity|].
  split; [|vm_compute; reflexivity].
  exists [], []. split; [vm_compute; reflexivity|].
  split; [constructor | vm_compute; reflexivity].
Defined.

Lemma negative_hint_used_witness :
  parseRetryDelayMs (ErrorObject 0 negative_doc) = Some (Ms (-3000)) /\
  exists post',
    tl (snd (withRetries (always_fails negative_doc) 2 0%nat))
    = Sleep (Ms (-3000)) :: post'.
Proof.
  destruct (negative_hint_used (ErrorObject 0 negative_doc) (lit "-3s")
              negative_doc_carried)
    as (_ & _ & Hp & _ & _ & Hw).
  - vm_compute. reflexivity.
  - vm_compute. reflexivity.
  - split; [exact (Hp eq_refl)|].
    destruct (Hw nat nat (always_fails negative_doc) 2 0%nat [] 0
                (tl (snd (withRetries (always_fails negative_doc) 2 0%nat))))
      as [H _].
    + vm_compute. reflexivity.
    + vm_compute. reflexivity.
    + lia.
    + exact H.
Defined.

Lemma quota_status_mismatch_witness :
  catch_status (ErrorObject 0 (lit "You exceeded your current quota")) = 500 /\
  catch_status (ErrorObject 0 (lit "You exceeded your current quota")) <> 429 /\
  isRateLimited (ErrorObject 0 (lit "You exceeded your current quota")) = true.
Proof.
  apply (quota_status_mismatch _ (lit "You exceeded your current quota"));
    vm_compute; reflexivity.
Defined.

End RetryFacts.

Module ThrottlerFacts.
Import Throttler.

Section Instance.

Context {T : Type}.
Variable interval : Z.

Local Abbreviation state := (state T).
Local Abbreviation event := (event T).
Local Abbreviation step := (step interval).
Local Abbreviation run := (run interval).
Local Abbreviation exec := (exec interval).
Local Abbreviation spaced := (spaced interval).
Local Abbreviation invariant := (@invariant T interval).

Local Arguments seq : simpl never.

Lemma spaced_snoc (ts : list Z) (t : Z) :
  spaced ts -> (ts <> [] -> last ts 0 + interval <= t) -> spaced (ts ++ [t]).
Proof.
  induction ts as [|a ts IH]; simpl; intros Hs Hl; [exact I|].
  destruct ts as [|b ts]; simpl in *.
  - split; [apply Hl; discriminate | exact I].
  - destruct Hs as [Hab Hs]. split; [exact Hab|].
    apply IH; [exact Hs|]. intros _. apply Hl. discriminate.
Qed.

Lemma spaced_middle (pre post : list Z) (t1 t2 : Z) :
  spaced (pre ++ t1 :: t2 :: post) -> t1 + interval <= t2.
Proof.
  induction pre as [|a pre IH]; simpl.
  - intros [H _]. exact H.
  - destruct (pre ++ t1 :: t2 :: post) eqn:E.
    + destruct pre; discriminate.
    + intros [_ H]. apply IH. exact H.
Qed.

Lemma exec_app (s : state) (evs1 evs2 : list event) :
  exec s (evs1 ++ evs2) =
  match exec s evs1 with Some s' => exec s' evs2 | None => None end.
Proof.
  revert s. induction evs1 as [|ev evs1 IH]; simpl; intros s; [reflexivity|].
  destruct (step s ev); [apply IH | reflexivity].
Qed.

Lemma init_invariant (t0 : Z) : invariant (init t0).
Proof.
  constructor; simpl; try reflexivity; try exact I.
  - intros H. contradiction H. reflexivity.
  - intros id d [].
Qed.

(** [fn] is invoked: by [run] when no wait is needed, or when its timer fires. *)
Lemma invoke_invariant (id : nat) (s : state) :
  running s = true -> awaiting s = [] ->
  map fst (dispatched s) ++ id :: queue s = seq 0 (calls s) ->
  map fst (settled s) = map fst (dispatched s) ->
  spaced (map snd (dispatched s)) ->
  (dispatched s <> [] ->
   last (map snd (dispatched s)) 0 = lastTime s /\ lastTime s + interval <= clock s) ->
  invariant (invoke id s).
Proof.
  destruct s as [lt rn q ck aw n ds st]; simpl.
  intros -> -> Horder Hsettled Hspaced Hlast.
  constructor; unfold delayed, executing; simpl.
  - exact I.
  - rewrite map_app, <- app_assoc. exact Horder.
  - rewrite map_app, Hsettled. reflexivity.
  - rewrite map_app. apply spaced_snoc; [exact Hspaced|].
    intros Hne. destruct ds; [contradiction Hne; reflexivity|].
    destruct Hlast as [-> Hle]; [discriminate | exact Hle].
  - intros _. rewrite map_app. cbn [map snd]. rewrite last_last. split; [reflexivity | lia].
  - intros i d [H|[]]. discriminate.
Qed.

Lemma run_invariant (id : nat) (s : state) :
  running s = true -> awaiting s = [] ->
  map fst (dispatched s) ++ id :: queue s = seq 0 (calls s) ->
  map fst (settled s) = map fst (dispatched s) ->
  spaced (map snd (dispatched s)) ->
  (dispatched s <> [] ->
   last (map snd (dispatched s)) 0 = lastTime s /\ lastTime s <= clock s) ->
  invariant (run id s).
Proof.
  intros Hrun Haw Horder Hsettled Hspaced Hlast. unfold run.
  destruct (Z.ltb_spec 0 (Z.max 0 (lastTime s + interval - clock s))) as [Hw|Hw].
  - destruct s as [lt rn q ck aw n ds st]; simpl in *. subst rn aw.
    constructor; unfold delayed, executing; simpl.
    + exact I.
    + exact Horder.
    + rewrite app_nil_r. exact Hsettled.
    + exact Hspaced.
    + exact Hlast.
    + intros i d [H|[]]. injection H as _ <-. lia.
  - apply invoke_invariant; try assumption.
    intros Hne. destruct (Hlast Hne) as [H1 H2]. split; [exact H1 | lia].
Qed.

Lemma step_invariant (s s' : state) (ev : event) :
  invariant s -> step s ev = Some s' -> invariant s'.
Proof.
  destruct s as [lt rn q ck aw n ds st].
  intros [Hshape Horder Hsettled Hspaced Hlast Hdead].
  unfold delayed, executing in *; simpl in *.
  destruct ev as [|dt|id|id r]; simpl.
  - (* Call *)
    intros [= <-]. unfold schedule; simpl.
    destruct rn; simpl.
    + destruct aw as [|[i a] [|y aw]]; try contradiction.
      destruct a; simpl in *;
        (constructor; unfold delayed, executing; simpl; try assumption;
         rewrite seq_S, <- Horder, <- ?app_assoc; reflexivity).
    + destruct aw; [subst q | contradiction]. simpl in *.
      apply run_invariant; simpl; try assumption; try reflexivity.
      * rewrite seq_S. f_equal. rewrite app_nil_r in Horder. exact Horder.
      * rewrite app_nil_r in Hsettled. exact Hsettled.
  - (* Tick *)
    destruct (Z.leb_spec 0 dt); [|discriminate]. intros [= <-].
    constructor; unfold delayed, executing; simpl; try assumption.
    intros Hne. destruct (Hlast Hne). split; [assumption | lia].
  - (* Timeout *)
    unfold suspended_at; simpl.
    destruct rn; [|destruct aw; [discriminate | contradiction]].
    destruct aw as [|[id' a] [|y aw]]; try contradiction. simpl in *.
    destruct (Nat.eqb_spec id' id) as [->|]; [|discriminate].
    destruct a as [d|]; [|discriminate].
    destruct (Z.leb_spec d ck); [|discriminate]. intros [= <-].
    unfold resume; simpl. rewrite Nat.eqb_refl; simpl.
    apply invoke_invariant; simpl; try assumption; try reflexivity.
    + rewrite app_nil_r in Hsettled. exact Hsettled.
    + intros Hne. destruct (Hlast Hne). split; [assumption|].
      specialize (Hdead id d (or_introl eq_refl)). lia.
  - (* Settle *)
    unfold suspended_at; simpl.
    destruct rn; [|destruct aw; [discriminate | contradiction]].
    destruct aw as [|[id' a] [|y aw]]; try contradiction. simpl in *.
    destruct (Nat.eqb_spec id' id) as [->|]; [|discriminate].
    destruct a as [d|]; [discriminate|]. intros [= <-].
    unfold resume, settle, finally; simpl. rewrite Nat.eqb_refl; simpl.
    destruct q as [|next rest]; simpl.
    + constructor; unfold delayed, executing; simpl;
        try assumption; try reflexivity.
      * rewrite map_app, app_nil_r. exact Hsettled.
      * intros i d [].
    + apply run_invariant; simpl; try assumption; try reflexivity.
      rewrite map_app. exact Hsettled.
Qed.

Lemma exec_invariant (evs : list event) (s s' : state) :
  invariant s -> exec s evs = Some s' -> invariant s'.
Proof.
  revert s. induction evs as [|ev evs IH]; simpl; intros s Hinv.
  - intros [= <-]. exact Hinv.
  - destruct (step s ev) as [s1|] eqn:E; [|discriminate].
    apply IH. exact (step_invariant _ _ _ Hinv E).
Qed.

Lemma reachable_invariant (t0 : Z) (evs : list event) (s : state) :
  exec (init t0) evs = Some s -> invariant s.
Proof. apply exec_invariant, init_invariant. Qed.

Lemma seq_prefix (l r : list nat) (a n : nat) :
  l ++ r = seq a n -> l = seq a (length l) /\ r = seq (a + length l) (n - length l).
Proof.
  revert a n. induction l as [|x l IH]; intros a n H.
  - rewrite Nat.add_0_r, Nat.sub_0_r. split; [reflexivity | exact H].
  - destruct n as [|n]; [discriminate|]. rewrite <- cons_seq in H.
    injection H as -> H. destruct (IH _ _ H) as [H1 H2].
    cbn [length]. rewrite <- cons_seq. split; [f_equal; exact H1|].
    rewrite H2. f_equal; lia.
Qed.

Lemma idle_or_single (s : state) :
  invariant s ->
  (running s = false /\ awaiting s = [] /\ queue s = []) \/
  (running s = true /\ exists id a, awaiting s = [(id, a)]).
Proof.
  intros [Hshape _ _ _ _ _].
  destruct (running s), (awaiting s) as [|[id a] [|y aw]]; try contradiction.
  - right. split; [reflexivity|]. exists id, a. reflexivity.
  - left. repeat split. exact Hshape.
Qed.

(** A pending timer can fire once enough time has passed. *)
Lemma timer_fires (s : state) (id : nat) (d : Z) :
  awaiting s = [(id, AwaitTimer d)] ->
  exists s', exec s [Tick (Z.max 0 (d - clock s)); Timeout id] = Some s' /\
    awaiting s' = [(id, AwaitWork)] /\ queue s' = queue s /\
    settled s' = settled s /\ calls s' = calls s.
Proof.
  destruct s as [lt rn q ck aw n ds st]; simpl. intros ->.
  destruct (Z.leb_spec 0 (Z.max 0 (d - ck))); [|lia].
  unfold suspended_at; simpl. rewrite Nat.eqb_refl.
  destruct (Z.leb_spec d (ck + Z.max 0 (d - ck))); [|lia].
  unfold resume; simpl. rewrite Nat.eqb_refl; simpl.
  eexists. split; [reflexivity|]. simpl. repeat split.
Qed.

(** What the settling of the unit of work in flight does, whatever the
    outcome. *)
Lemma settle_step (s : state) (id : nat) (r : settlement T) :
  awaiting s = [(id, AwaitWork)] ->
  exists s', step s (Settle id r) = Some s' /\
    settled s' = settled s ++ [(id, r)] /\ calls s' = calls s /\
    match queue s with
    | [] => running s' = false
    | next :: rest => queue s' = rest /\ exists a, awaiting s' = [(next, a)]
    end.
Proof.
  destruct s as [lt rn q ck aw n ds st]; simpl. intros ->.
  unfold suspended_at; simpl. rewrite Nat.eqb_refl.
  unfold resume, settle, finally; simpl. rewrite Nat.eqb_refl; simpl.
  eexists. split; [reflexivity|].
  destruct q as [|next rest]; simpl; [repeat split|].
  unfold Throttler.run; simpl.
  destruct (0 <? Z.max 0 (lt + interval - ck)); simpl; repeat split; eexists; reflexivity.
Qed.

(** The outcome of a unit of work goes to its caller and nowhere else. *)
Lemma settle_outcome (s s1 s2 : state) (id : nat) (r1 r2 : settlement T) :
  step s (Settle id r1) = Some s1 -> step s (Settle id r2) = Some s2 ->
  lastTime s1 = lastTime s2 /\ running s1 = running s2 /\
  queue s1 = queue s2 /\ awaiting s1 = awaiting s2 /\
  dispatched s1 = dispatched s2.
Proof.
  destruct s as [lt rn q ck aw n ds st]. cbn [Throttler.step].
  destruct (suspended_at id _) as [[d|]|]; try discriminate.
  intros [= <-] [= <-]. unfold finally, settle, resume; simpl.
  destruct q as [|next rest]; simpl; [repeat split|].
  unfold Throttler.run; simpl.
  destruct (0 <? Z.max 0 (lt + interval - ck)); simpl; repeat split.
Qed.

(** Once a unit of work is in flight, the queue behind it can be emptied,
    whatever the outcome of each unit of work. *)
Lemma drain_executing (out : nat -> settlement T) (n : nat) :
  forall (s : state) (id : nat),
    length (queue s) = n -> awaiting s = [(id, AwaitWork)] ->
    exists evs s', exec s evs = Some s' /\ running s' = false /\
      calls s' = calls s /\
      settled s' = settled s ++ map (fun i => (i, out i)) (id :: queue s).
Proof.
  induction n as [|n IH]; intros s id Hlen Haw;
    destruct (settle_step s id (out id) Haw) as (s1 & Hstep & Hset & Hcalls & Hq).
  - destruct (queue s); [|discriminate].
    exists [Settle id (out id)], s1. cbn [Throttler.exec]. rewrite Hstep.
    repeat split; assumption.
  - destruct (queue s) as [|next rest] eqn:Eq; [discriminate|].
    injection Hlen as Hlen. destruct Hq as (Hrest & a & Haw1).
    assert (exists evs1 s2, exec s1 evs1 = Some s2 /\
              awaiting s2 = [(next, AwaitWork)] /\ queue s2 = rest /\
              settled s2 = settled s1 /\ calls s2 = calls s1)
      as (evs1 & s2 & Hex1 & Haw2 & Hq2 & Hset2 & Hcalls2).
    { destruct a as [d|].
      - destruct (timer_fires s1 next d Haw1) as (s2 & H1 & H2 & H3 & H4 & H5).
        exists [Tick (Z.max 0 (d - clock s1)); Timeout next], s2.
        repeat split; try assumption. congruence.
      - exists [], s1. repeat split; assumption. }
    destruct (IH s2 next) as (evs2 & s3 & Hex2 & Hrun & Hcalls3 & Hset3);
      [congruence | assumption |].
    exists (Settle id (out id) :: evs1 ++ evs2), s3.
    cbn [Throttler.exec]. rewrite Hstep, exec_app, Hex1.
    repeat split; try assumption; try congruence.
    rewrite Hset3, Hset2, Hset, Hq2, <- app_assoc. reflexivity.
Qed.

(** While a unit of work is in flight no turn of the event loop invokes
    another one. *)
Lemma no_start_while_executing (s s' : state) (ev : event) (id : nat) :
  invariant s -> step s ev = Some s' ->
  In id (executing s) -> In id (executing s') ->
  dispatched s' = dispatched s.
Proof.
  destruct s as [lt rn q ck aw n ds st].
  intros [Hshape Horder Hsettled _ _ _].
  unfold executing, delayed in *; simpl in *.
  destruct rn; [|destruct aw; [intros _ [] | contradiction]].
  destruct aw as [|[i a] [|y aw]]; try contradiction.
  destruct a as [d|]; simpl in *; [intros _ []|].
  destruct ev as [|dt|id'|id' r]; simpl.
  - intros [= <-]. reflexivity.
  - destruct (0 <=? dt); [intros [= <-]; reflexivity | discriminate].
  - unfold suspended_at; simpl. destruct (i =? id')%nat; discriminate.
  - unfold suspended_at; simpl.
    destruct (Nat.eqb_spec i id') as [<-|]; [|discriminate].
    intros [= <-] [<-|[]].
    unfold finally, settle, resume; simpl. rewrite Nat.eqb_refl; simpl.
    destruct q as [|next rest]; simpl; [intros []|].
    unfold Throttler.run; simpl.
    destruct (0 <? Z.max 0 (lt + interval - ck)); simpl; [intros []|].
    intros [<-|[]]. exfalso.
    pose proof (seq_NoDup n 0) as Hnd.
    rewrite <- Horder, <- Hsettled in Hnd.
    apply NoDup_remove_2 in Hnd. apply Hnd.
    apply in_or_app. left. apply in_or_app. right. left. reflexivity.
Qed.

(** ** The claims about the Throttler *)

(** C1. Mutual exclusion: in every state that a sequence of submissions,
    timer expiries and completions can lead to, at most one unit of work has
    been invoked and has not yet settled; every unit of work invoked before
    it has settled; and a turn of the event loop that leaves a unit of work
    in flight invokes no other. *)
Theorem mutual_exclusion (t0 : Z) (evs : list event) (s : state) :
  exec (init t0) evs = Some s ->
  (length (executing s) <= 1)%nat /\
  map fst (dispatched s) = map fst (settled s) ++ executing s /\
  (forall ev s' id,
      step s ev = Some s' -> In id (executing s) -> In id (executing s') ->
      dispatched s' = dispatched s).
Proof.
  intros Hexec. pose proof (reachable_invariant _ _ _ Hexec) as Hinv.
  split; [|split; [symmetry; apply (inv_settled _ _ Hinv)|]];
    [|intros ev s' id; apply no_start_while_executing; exact Hinv].
  unfold executing.
  destruct (idle_or_single s Hinv) as [(_ & -> & _)|(_ & id & a & ->)]; simpl.
  - lia.
  - destruct a; simpl; lia.
Qed.

(** C2. Spacing: the start timestamps of any two consecutive dispatches
    differ by at least the interval. *)
Theorem spacing (t0 : Z) (evs : list event) (s : state) :
  exec (init t0) evs = Some s ->
  forall pre a b post,
    dispatched s = pre ++ a :: b :: post -> interval <= snd b - snd a.
Proof.
  intros Hexec pre a b post Hd.
  pose proof (inv_spaced _ _ (reachable_invariant _ _ _ Hexec)) as Hsp.
  rewrite Hd, map_app in Hsp. cbn [map] in Hsp.
  apply spaced_middle in Hsp. lia.
Qed.

(** C3. FIFO: the k-th unit of work invoked is the one of the k-th call of
    [schedule], and the calls not yet dispatched wait in the order in which
    they were made. *)
Theorem fifo_dispatch (t0 : Z) (evs : list event) (s : state) :
  exec (init t0) evs = Some s ->
  map fst (dispatched s) = seq 0 (length (dispatched s)) /\
  delayed s ++ queue s =
    seq (length (dispatched s)) (calls s - length (dispatched s)).
Proof.
  intros Hexec.
  pose proof (inv_order _ _ (reachable_invariant _ _ _ Hexec)) as Hord.
  apply seq_prefix in Hord. rewrite length_map in Hord. exact Hord.
Qed.

(** C8. Failure isolation: when the unit of work in flight fails with [e],
    the promise of its own call, and no other, is rejected with [e]; the
    [run] of the next call in the queue is started in the same turn; apart
    from what its caller is told, the Throttler is in the state any other
    outcome would have left it in; and whatever the outcomes of the units of
    work queued behind, the Throttler can go on until each of them has been
    dispatched and settled with its own outcome. *)
Theorem failure_isolation (t0 : Z) (evs : list event) (s s' : state)
    (id : nat) (e : thrown) :
  exec (init t0) evs = Some s ->
  step s (Settle id (Rejected e)) = Some s' ->
  settled s' = settled s ++ [(id, Rejected e)] /\
  (forall next rest, queue s = next :: rest ->
     queue s' = rest /\ exists a, awaiting s' = [(next, a)]) /\
  (forall r s2, step s (Settle id r) = Some s2 ->
     lastTime s2 = lastTime s' /\ running s2 = running s' /\
     queue s2 = queue s' /\ awaiting s2 = awaiting s' /\
     dispatched s2 = dispatched s') /\
  forall out : nat -> settlement T,
  exists evs' s'',
    exec s' evs' = Some s'' /\
    running s'' = false /\
    map fst (dispatched s'') = seq 0 (calls s) /\
    incl (queue s) (map fst (dispatched s'')) /\
    settled s'' = settled s' ++ map (fun i => (i, out i)) (queue s).
Proof.
  intros Hexec Hstep.
  pose proof (reachable_invariant _ _ _ Hexec) as Hinv.
  assert (Haw : awaiting s = [(id, AwaitWork)]).
  { destruct (idle_or_single s Hinv) as [(_ & Haw & _)|(_ & i & a & Haw)];
      cbn [Throttler.step] in Hstep; unfold suspended_at in Hstep;
      rewrite Haw in Hstep; simpl in Hstep; [discriminate|].
    destruct (Nat.eqb_spec i id) as [->|]; [|discriminate].
    destruct a; [discriminate | exact Haw]. }
  destruct (settle_step s id (Rejected e) Haw) as (s1 & Hstep1 & Hset & Hcalls & Hq).
  rewrite Hstep in Hstep1. injection Hstep1 as <-.
  split; [exact Hset|].
  split; [intros next rest Eq; rewrite Eq in Hq; exact Hq|].
  split; [intros r s2 Hstep2; exact (settle_outcome _ _ _ _ _ _ Hstep2 Hstep)|].
  intros out.
  pose proof (step_invariant _ _ _ Hinv Hstep) as Hinv'.
  assert (exists evs' s'', exec s' evs' = Some s'' /\ running s'' = false /\
            calls s'' = calls s /\
            settled s'' = settled s' ++ map (fun i => (i, out i)) (queue s))
    as (evs' & s'' & Hex & Hrun & Hcalls' & Hset').
  { destruct (queue s) as [|next rest] eqn:Eq.
    - exists [], s'. simpl. rewrite app_nil_r. repeat split; assumption.
    - destruct Hq as (Hrest & a & Haw1).
      assert (exists evs1 s2, exec s' evs1 = Some s2 /\
                awaiting s2 = [(next, AwaitWork)] /\ queue s2 = rest /\
                settled s2 = settled s' /\ calls s2 = calls s')
        as (evs1 & s2 & Hex1 & Haw2 & Hq2 & Hset2 & Hcalls2).
      { destruct a as [d|].
        - destruct (timer_fires s' next d Haw1) as (s2 & H1 & H2 & H3 & H4 & H5).
          exists [Tick (Z.max 0 (d - clock s')); Timeout next], s2.
          repeat split; try assumption. congruence.
        - exists [], s'. repeat split; assumption. }
      destruct (drain_executing out (length rest) s2 next)
        as (evs2 & s3 & Hex2 & Hrun & Hcalls3 & Hset3);
        [congruence | assumption |].
      exists (evs1 ++ evs2), s3. rewrite exec_app, Hex1.
      repeat split; try assumption; try congruence. }
  exists evs', s''. split; [exact Hex|]. split; [exact Hrun|].
  pose proof (exec_invariant _ _ _ Hinv' Hex) as Hinv''.
  assert (Hall : map fst (dispatched s'') = seq 0 (calls s)).
  { pose proof (inv_order _ _ Hinv'') as Hord.
    destruct (idle_or_single s'' Hinv'') as [(_ & Haw'' & Hq'')|(Hr & _)];
      [|congruence].
    unfold delayed in Hord. rewrite Haw'', Hq'' in Hord. simpl in Hord.
    rewrite app_nil_r, Hcalls' in Hord. exact Hord. }
  split; [exact Hall|]. split; [|exact Hset'].
  rewrite Hall, <- (inv_order _ _ Hinv).
  intros i Hi. apply in_or_app. right. apply in_or_app. right. exact Hi.
Qed.

End Instance.

(** ** Instances *)

Import ThrottlerScenario.

(** Three calls at time 1000 with interval 100: the dispatches are in the
    order of the calls and at least 100 ms apart. *)
Example demo_dispatches :
  exec 100 (init 1000) demo_events = Some demo_state /\
  dispatched demo_state = [(0%nat, 1000); (1%nat, 1120); (2%nat, 1220)] /\
  settled demo_state = [(0%nat, Resolved 7%nat); (1%nat, Rejected boom)] /\
  executing demo_state = [2%nat].
Proof. vm_compute. repeat split; reflexivity. Qed.

(** Before the interval has elapsed the timer cannot fire. *)
Example timer_not_early :
  exec 100 (init 1000) (busy_events ++ [Settle 0 (Resolved 7%nat); Tick 99; Timeout 1])
  = None.
Proof. vm_compute. reflexivity. Qed.

Lemma mutual_exclusion_witness :
  (length (executing demo_state) <= 1)%nat /\
  map fst (dispatched demo_state)
  = map fst (settled demo_state) ++ executing demo_state /\
  (forall ev s' id,
      step 100 demo_state ev = Some s' ->
      In id (executing demo_state) -> In id (executing s') ->
      dispatched s' = dispatched demo_state).
Proof.
  apply (mutual_exclusion 100 1000 demo_events demo_state).
  vm_compute. reflexivity.
Defined.

Lemma spacing_witness : 100 <= snd (2%nat, 1220) - snd (1%nat, 1120).
Proof.
  apply (spacing 100 1000 demo_events demo_state) with (pre := [(0%nat, 1000)]) (post := []).
  - vm_compute. reflexivity.
  - reflexivity.
Defined.

Lemma fifo_dispatch_witness :
  map fst (dispatched demo_state) = seq 0 (length (dispatched demo_state)) /\
  delayed demo_state ++ queue demo_state
  = seq (length (dispatched demo_state))
        (calls demo_state - length (dispatched demo_state)).
Proof.
  apply (fifo_dispatch 100 1000 demo_events demo_state).
  vm_compute. reflexivity.
Defined.

Lemma failure_isolation_witness :
  settled failed_state = settled busy_state ++ [(0%nat, Rejected boom)] /\
  (forall next rest, queue busy_state = next :: rest ->
     queue failed_state = rest /\ exists a, awaiting failed_state = [(next, a)]) /\
  (forall r s2, step 100 busy_state (Settle 0 r) = Some s2 ->
     lastTime s2 = lastTime failed_state /\ running s2 = running failed_state /\
     queue s2 = queue failed_state /\ awaiting s2 = awaiting failed_state /\
     dispatched s2 = dispatched failed_state) /\
  forall out : nat -> settlement nat,
  exists evs' s'',
    exec 100 failed_state evs' = Some s'' /\
    running s'' = false /\
    map fst (dispatched s'') = seq 0 (calls busy_state) /\
    incl (queue busy_state) (map fst (dispatched s'')) /\
    settled s'' = settled failed_state ++ map (fun i => (i, out i)) (queue busy_state).
Proof.
  apply (failure_isolation 100 1000 busy_events busy_state failed_state 0%nat boom).
  - vm_compute. reflexivity.
  - vm_compute. reflexivity.
Defined.

End ThrottlerFacts.

Module TextFacts.

Lemma trim_start_length (s : jsstring) : (length (trim_start s) <= length s)%nat.
Proof.
  induction s as [|c s IH]; simpl; [lia|].
  destruct (is_str_ws c); simpl; lia.
Qed.

Lemma trim_start_idem (s : jsstring) : trim_start (trim_start s) = trim_start s.
Proof.
  induction s as [|c s IH]; simpl; [reflexivity|].
  destruct (is_str_ws c) eqn:E; [exact IH|]. simpl. rewrite E. reflexivity.
Qed.

Lemma trim_start_suffix (s : jsstring) : exists p, s = p ++ trim_start s.
Proof.
  induction s as [|c s [p IH]]; simpl.
  - exists []. reflexivity.
  - destruct (is_str_ws c).
    + exists (c :: p). simpl. f_equal. exact IH.
    + exists []. reflexivity.
Qed.

Lemma trim_start_prefix_fixed (a b : jsstring) :
  trim_start (a ++ b) = a ++ b -> trim_start a = a.
Proof.
  destruct a as [|c a]; [reflexivity|]. simpl.
  destruct (is_str_ws c); [|reflexivity].
  intros H. pose proof (trim_start_length (a ++ b)) as Hl.
  rewrite H in Hl. simpl in Hl. lia.
Qed.

Lemma trim_idem (s : jsstring) : trim (trim s) = trim s.
Proof.
  unfold trim.
  set (t := trim_start s). set (u := trim_start (rev t)).
  assert (Hru : trim_start (rev u) = rev u).
  { destruct (trim_start_suffix (rev t)) as [p Hp]. fold u in Hp.
    apply (trim_start_prefix_fixed (rev u) (rev p)).
    rewrite <- rev_app_distr, <- Hp, rev_involutive.
    apply trim_start_idem. }
  rewrite Hru, rev_involutive. unfold u. rewrite trim_start_idem. reflexivity.
Qed.

Lemma trim_length (s : jsstring) : (length (trim s) <= length s)%nat.
Proof.
  unfold trim. rewrite length_rev.
  pose proof (trim_start_length (rev (trim_start s))) as H1.
  pose proof (trim_start_length s) as H2. rewrite length_rev in H1. lia.
Qed.

Lemma of_uint_digits (d : Decimal.uint) :
  forall (acc : nat) (k : Z) (rest : jsstring),
    match rest with [] => True | c :: _ => digit_of c = None end ->
    digits (Z.of_nat acc) k (of_uint d ++ rest)
    = (Z.of_nat (Nat.of_uint_acc d acc), k + Z.of_nat (Decimal.nb_digits d), rest).
Proof.
  induction d as [|d IH|d IH|d IH|d IH|d IH|d IH|d IH|d IH|d IH|d IH];
    intros acc k rest Hrest;
    [ simpl; rewrite Z.add_0_r; destruct rest as [|c rest];
      [reflexivity | simpl; rewrite Hrest; reflexivity]
    | cbn [of_uint app digits Nat.of_uint_acc Decimal.nb_digits];
      match goal with
      | |- context [digit_of ?c] =>
          let v := eval vm_compute in (digit_of c) in
          change (digit_of c) with v; cbn iota
      end;
      rewrite Nat.tail_mul_spec;
      match goal with
      | |- digits ?v _ _ = (Z.of_nat (Nat.of_uint_acc _ ?a), _, _) =>
          replace v with (Z.of_nat a) by lia
      end;
      rewrite IH by exact Hrest; f_equal; f_equal; lia .. ].
Qed.

Lemma decimal_digits (n : nat) (rest : jsstring) :
  match rest with [] => True | c :: _ => digit_of c = None end ->
  exists k, 0 < k /\ digits 0 0 (decimal n ++ rest) = (Z.of_nat n, k, rest).
Proof.
  intros Hrest. unfold decimal.
  exists (Z.of_nat (Decimal.nb_digits (Nat.to_uint n))). split.
  - assert (Nat.to_uint n <> Decimal.Nil).
    { rewrite <- (DecimalNat.Unsigned.of_to n) at 1. rewrite DecimalNat.Unsigned.to_of.
      apply DecimalFacts.unorm_nonnil. }
    destruct (Nat.to_uint n); simpl; try lia. contradiction.
  - change 0 with (Z.of_nat 0) at 1. rewrite (of_uint_digits _ 0%nat 0 rest Hrest).
    change (Nat.of_uint_acc (Nat.to_uint n) 0) with (Nat.of_uint (Nat.to_uint n)).
    rewrite DecimalNat.Unsigned.of_to. reflexivity.
Qed.

End TextFacts.

Import RetryFacts TextFacts.

Module MoreRetryFacts.

Section Loop.

Context {T W : Type}.
Variable work : unit_of_work T W.
Variable maxRetries : Z.

Local Abbreviation loop := (retry_loop work maxRetries).

(** The attempts of the loop are numbered from [attempt] on without a gap,
    there are no more of them than the bound leaves, and there is a wait
    between two attempts and nowhere else. *)
Lemma loop_shape (fuel : nat) :
  forall attempt lastErr w,
    (Z.to_nat (maxRetries + 1 - attempt) < fuel)%nat ->
    attempt_numbers (snd (loop fuel attempt lastErr w))
    = map (fun i => attempt + Z.of_nat i)
          (seq 0 (attempts (snd (loop fuel attempt lastErr w)))) /\
    (attempts (snd (loop fuel attempt lastErr w))
     <= Z.to_nat (maxRetries + 1 - attempt))%nat /\
    (attempt <= maxRetries -> (1 <= attempts (snd (loop fuel attempt lastErr w)))%nat) /\
    length (sleeps (snd (loop fuel attempt lastErr w)))
    = pred (attempts (snd (loop fuel attempt lastErr w))).
Proof.
  induction fuel as [|fuel IH]; intros attempt lastErr w Hfuel; [lia|].
  cbn [retry_loop]. destruct (Z.leb_spec attempt maxRetries) as [Hle|Hgt].
  - destruct (work w) as [[v|e] w1].
    + cbn. rewrite Z.add_0_r. repeat split; lia.
    + destruct (isRateLimited e && (attempt <? maxRetries)) eqn:Hc.
      * apply andb_true_iff in Hc as [_ Hn]. apply Z.ltb_lt in Hn.
        specialize (IH (attempt + 1) e w1).
        destruct (loop fuel (attempt + 1) e w1) as [[res w2] tr].
        cbn [snd] in *. destruct IH as (Hnum & Hbound & Hone & Hsl); [lia|].
        specialize (Hone ltac:(lia)).
        unfold attempt_numbers, attempts, sleeps in *. cbn [flat_map filter app length].
        cbn [flat_map filter app length] in Hnum, Hbound, Hone, Hsl.
        split; [|split; [lia | split; [lia|]]].
        -- rewrite Hnum. cbn [seq map]. rewrite Z.add_0_r. f_equal.
           rewrite <- seq_shift, map_map. apply map_ext. intros i. lia.
        -- cbn [pred]. rewrite Hsl. lia.
      * cbn. rewrite Z.add_0_r. repeat split; lia.
  - cbn. repeat split; lia.
Qed.

(** The number of the last attempt of the loop. *)
Lemma last_attempt (fuel : nat) :
  forall attempt lastErr w pre n r,
    snd (loop fuel attempt lastErr w) = pre ++ [Attempt n r] ->
    n <= maxRetries /\
    Z.of_nat (attempts (snd (loop fuel attempt lastErr w))) = n - attempt + 1.
Proof.
  induction fuel as [|fuel IH]; intros attempt lastErr w pre n r; cbn [retry_loop].
  - destruct pre; discriminate.
  - destruct (Z.leb_spec attempt maxRetries) as [Hle|Hgt];
      [|destruct pre; discriminate].
    destruct (work w) as [[v|e] w1].
    + cbn [snd]. destruct pre as [|x [|y pre]]; try discriminate.
      intros [= <- <-]. cbn. lia.
    + destruct (isRateLimited e && (attempt <? maxRetries)) eqn:Hc.
      * specialize (IH (attempt + 1) e w1).
        destruct (loop fuel (attempt + 1) e w1) as [[res w2] tr].
        cbn [snd] in *. destruct pre as [|x [|y pre]]; cbn [app].
        -- discriminate.
        -- destruct tr; discriminate.
        -- intros [= _ _ Htr]. destruct (IH _ _ _ Htr) as [Hn Hk].
           split; [exact Hn|]. unfold attempts in *.
           cbn [filter length]. lia.
      * cbn [snd]. destruct pre as [|x [|y pre]]; try discriminate.
        intros [= <- <-]. cbn. lia.
Qed.

(** When the loop returns, the value is that of its last attempt, and every
    attempt before it failed with a rate-limiting failure. *)
Lemma returned_is_last (fuel : nat) :
  forall attempt lastErr w v,
    fst (fst (loop fuel attempt lastErr w)) = Returned v ->
    exists pre n,
      snd (loop fuel attempt lastErr w) = pre ++ [Attempt n (inl v)] /\
      length (failures pre) = attempts pre /\
      Forall (fun e => isRateLimited e = true) (failures pre).
Proof.
  induction fuel as [|fuel IH]; intros attempt lastErr w v; cbn [retry_loop].
  - discriminate.
  - destruct (attempt <=? maxRetries); [|discriminate].
    destruct (work w) as [[v0|e] w1].
    + cbn [fst snd]. intros [= ->]. exists [], attempt.
      repeat split. constructor.
    + destruct (isRateLimited e && (attempt <? maxRetries)) eqn:Hc; [|discriminate].
      apply andb_true_iff in Hc as [Hr _].
      specialize (IH (attempt + 1) e w1 v).
      destruct (loop fuel (attempt + 1) e w1) as [[res w2] tr].
      cbn [fst snd] in *. intros Hres.
      destruct (IH Hres) as (pre & n & -> & Hlen & Hall).
      exists (Attempt attempt (inr e) :: Sleep (retry_delay e attempt) :: pre), n.
      split; [reflexivity|]. unfold failures, attempts in *.
      cbn [flat_map filter app length]. split; [lia|].
      constructor; assumption.
Qed.

(** The loop throws a rate-limiting failure only at the last attempt that
    the bound allows. *)
Lemma loop_exhausted (fuel : nat) (attempt : Z) (lastErr : thrown) (w : W)
    (e : thrown) :
  (Z.to_nat (maxRetries + 1 - attempt) < fuel)%nat -> attempt <= maxRetries ->
  fst (fst (loop fuel attempt lastErr w)) = Thrown e ->
  isRateLimited e = true ->
  Z.of_nat (attempts (snd (loop fuel attempt lastErr w))) = maxRetries - attempt + 1 /\
  length (sleeps (snd (loop fuel attempt lastErr w)))
  = pred (attempts (snd (loop fuel attempt lastErr w))).
Proof.
  intros Hfuel Hle Hthrown Hr.
  destruct (loop_shape fuel attempt lastErr w Hfuel) as (_ & _ & _ & Hsl).
  split; [|exact Hsl].
  destruct (thrown_is_last work maxRetries fuel attempt lastErr w e Hthrown)
    as [(Hgt & _)|(pre & n & Hlast)]; [lia|].
  destruct (after_failed_attempt work maxRetries _ _ _ _ _ _ _ _ Hlast)
    as [_ [(_ & _ & post' & Hp)|[Hc _]]]; [discriminate Hp|].
  rewrite Hr in Hc. cbn [andb] in Hc. apply Z.ltb_ge in Hc.
  destruct (last_attempt _ _ _ _ _ _ _ Hlast) as [Hn Hk]. lia.
Qed.

End Loop.

Lemma status_429 (err : thrown) :
  catch_status err = 429 -> isRateLimited err = true.
Proof.
  unfold catch_status, catch_message, isRateLimited.
  destruct err as [|id m|id m]; cbn [message_of].
  - vm_compute. discriminate.
  - destruct (includes m RESOURCE_EXHAUSTED); [reflexivity|].
    destruct (includes m Too_Many_Requests); [reflexivity|]. discriminate.
  - vm_compute. discriminate.
Qed.

(** ** More about the retry policy *)

(** X1. The retry budget.  [withRetries] invokes the work at most
    [maxRetries + 1] times, at least once when the bound is not negative;
    its attempts are numbered 0, 1, 2, ... and it waits exactly once between
    two consecutive attempts and never after the last. *)
Theorem retry_budget {T W} (work : unit_of_work T W) (maxRetries : Z) (w : W) :
  (attempts (snd (withRetries work maxRetries w)) <= Z.to_nat (maxRetries + 1))%nat /\
  (0 <= maxRetries -> (1 <= attempts (snd (withRetries work maxRetries w)))%nat) /\
  attempt_numbers (snd (withRetries work maxRetries w))
  = map Z.of_nat (seq 0 (attempts (snd (withRetries work maxRetries w)))) /\
  length (sleeps (snd (withRetries work maxRetries w)))
  = pred (attempts (snd (withRetries work maxRetries w))).
Proof.
  destruct (loop_shape work maxRetries (S (Z.to_nat (maxRetries + 1))) 0 Undefined w)
    as (Hnum & Hbound & Hone & Hsl); [lia|].
  fold (withRetries work maxRetries w) in *.
  rewrite Z.sub_0_r in Hbound. repeat split; assumption.
Qed.

(** X2. Success.  When [withRetries] returns a value, it is the value that
    the last invocation of the work returned, and every invocation before it
    failed with a rate-limiting failure. *)
Theorem returned_value {T W} (work : unit_of_work T W) (maxRetries : Z) (w w' : W)
    (v : T) (tr : list (Retry.event T)) :
  withRetries work maxRetries w = (Returned v, w', tr) ->
  exists pre n,
    tr = pre ++ [Attempt n (inl v)] /\
    length (failures pre) = attempts pre /\
    Forall (fun e => isRateLimited e = true) (failures pre).
Proof.
  intros Hrun.
  destruct (returned_is_last work maxRetries (S (Z.to_nat (maxRetries + 1))) 0 Undefined w v)
    as (pre & n & Htr & H).
  - fold (withRetries work maxRetries w). rewrite Hrun. reflexivity.
  - fold (withRetries work maxRetries w) in Htr. rewrite Hrun in Htr.
    exists pre, n. split; [exact Htr | exact H].
Qed.

(** X3. Exhaustion.  With a bound that is not negative, [withRetries] throws
    a rate-limiting failure only when the budget is used up: after
    [maxRetries + 1] invocations and [maxRetries] waits. *)
Theorem rate_limited_only_when_exhausted {T W} (work : unit_of_work T W)
    (maxRetries : Z) (w w' : W) (e : thrown) (tr : list (Retry.event T)) :
  0 <= maxRetries ->
  withRetries work maxRetries w = (Thrown e, w', tr) ->
  isRateLimited e = true ->
  attempts tr = Z.to_nat (maxRetries + 1) /\
  length (sleeps tr) = Z.to_nat maxRetries.
Proof.
  intros Hmax Hrun Hr.
  destruct (loop_exhausted work maxRetries (S (Z.to_nat (maxRetries + 1))) 0 Undefined w e)
    as [Hk Hsl]; try lia; try exact Hr.
  - fold (withRetries work maxRetries w). rewrite Hrun. reflexivity.
  - fold (withRetries work maxRetries w) in Hk, Hsl. rewrite Hrun in Hk, Hsl.
    cbn [snd] in Hk, Hsl. split; lia.
Qed.



(** Instances on concrete runs. *)

Lemma retry_budget_witness :
  (attempts (snd (withRetries (fails_once exhausted_doc) 2 0%nat)) <= 3)%nat /\
  (0 <= 2 -> (1 <= attempts (snd (withRetries (fails_once exhausted_doc) 2 0%nat)))%nat) /\
  attempt_numbers (snd (withRetries (fails_once exhausted_doc) 2 0%nat))
  = map Z.of_nat (seq 0 (attempts (snd (withRetries (fails_once exhausted_doc) 2 0%nat)))) /\
  length (sleeps (snd (withRetries (fails_once exhausted_doc) 2 0%nat)))
  = pred (attempts (snd (withRetries (fails_once exhausted_doc) 2 0%nat))).
Proof.
  exact (retry_budget (fails_once exhausted_doc) 2 0%nat).
Defined.

Lemma returned_value_witness :
  exists pre n,
    snd (withRetries (fails_once exhausted_doc) 2 0%nat)
    = pre ++ [Attempt n (inl 42%nat)] /\
    length (failures pre) = attempts pre /\
    Forall (fun e => isRateLimited e = true) (failures pre).
Proof.
  apply (returned_value (fails_once exhausted_doc) 2 0%nat 2%nat 42%nat).
  vm_compute. reflexivity.
Defined.

Lemma rate_limited_only_when_exhausted_witness :
  attempts (snd (withRetries (always_fails exhausted_doc) 2 0%nat)) = 3%nat /\
  length (sleeps (snd (withRetries (always_fails exhausted_doc) 2 0%nat))) = 2%nat.
Proof.
  apply (rate_limited_only_when_exhausted (always_fails exhausted_doc) 2 0%nat 3%nat
           (ErrorObject 2 exhausted_doc)).
  - lia.
  - vm_compute. reflexivity.
  - vm_compute. reflexivity.
Defined.

End MoreRetryFacts.

Module MoreThrottlerFacts.
Import Throttler ThrottlerFacts.

Section Instance.

Context {T : Type}.
Variable interval : Z.

Local Abbreviation state := (state T).
Local Abbreviation event := (event T).
Local Abbreviation step := (step interval).
Local Abbreviation exec := (exec interval).
Local Abbreviation spaced := (spaced interval).
Local Abbreviation invariant := (@invariant T interval).

Local Arguments seq : simpl never.

Lemma step_settled (s s' : state) (ev : event) :
  step s ev = Some s' -> settled s' = settled s ++ settlements [ev].
Proof.
  destruct s as [lt rn q ck aw n ds st]. unfold settlements.
  destruct ev as [|dt|id|id r]; cbn [Throttler.step flat_map app].
  - intros [= <-]. unfold schedule, Throttler.run; simpl.
    destruct rn; simpl; [rewrite app_nil_r; reflexivity|].
    destruct (0 <? Z.max 0 (lt + interval - ck)); simpl; rewrite app_nil_r; reflexivity.
  - destruct (0 <=? dt); [|discriminate]. intros [= <-]. simpl.
    rewrite app_nil_r. reflexivity.
  - destruct (suspended_at id _) as [[d|]|]; try discriminate. simpl.
    destruct (d <=? ck); [|discriminate]. intros [= <-]. simpl.
    rewrite app_nil_r. reflexivity.
  - destruct (suspended_at id _) as [[d|]|]; try discriminate.
    intros [= <-]. unfold finally, settle, resume; simpl.
    destruct q as [|next rest]; simpl; [reflexivity|].
    unfold Throttler.run; simpl.
    destruct (0 <? Z.max 0 (lt + interval - ck)); reflexivity.
Qed.

Lemma exec_settled (evs : list event) :
  forall s s', exec s evs = Some s' -> settled s' = settled s ++ settlements evs.
Proof.
  induction evs as [|ev evs IH]; intros s s'; cbn [Throttler.exec].
  - intros [= <-]. unfold settlements. simpl. rewrite app_nil_r. reflexivity.
  - destruct (step s ev) as [s1|] eqn:E; [|discriminate]. intros Hex.
    rewrite (IH _ _ Hex), (step_settled _ _ _ E). unfold settlements.
    cbn [flat_map]. rewrite <- app_assoc, app_nil_r. reflexivity.
Qed.

(** While a unit of work is in flight and does not settle, a turn of the
    event loop can only queue a new call or let time pass. *)
Lemma step_while_executing (s s' : state) (ev : event) (id : nat) :
  awaiting s = [(id, AwaitWork)] -> running s = true ->
  step s ev = Some s' -> settlements [ev] = [] ->
  awaiting s' = [(id, AwaitWork)] /\ running s' = true /\
  dispatched s' = dispatched s /\ lastTime s' = lastTime s /\
  (calls s <= calls s')%nat /\
  queue s' = queue s ++ seq (calls s) (calls s' - calls s).
Proof.
  destruct s as [lt rn q ck aw n ds st]; simpl. intros -> ->.
  destruct ev as [|dt|id'|id' r]; cbn [Throttler.step].
  - intros [= <-] _. unfold schedule. cbn -[Nat.sub seq].
    replace (S n - n)%nat with 1%nat by lia. repeat split; lia || reflexivity.
  - destruct (0 <=? dt); [|discriminate]. intros [= <-] _. cbn -[Nat.sub seq].
    rewrite Nat.sub_diag, app_nil_r. repeat split; lia || reflexivity.
  - unfold suspended_at; simpl. destruct (id =? id')%nat; discriminate.
  - intros _. unfold settlements. simpl. discriminate.
Qed.

Lemma exec_while_executing (evs : list event) :
  forall (s s' : state) (id : nat),
    awaiting s = [(id, AwaitWork)] -> running s = true ->
    exec s evs = Some s' -> none_settles evs ->
    awaiting s' = [(id, AwaitWork)] /\
    dispatched s' = dispatched s /\ lastTime s' = lastTime s /\
    (calls s <= calls s')%nat /\
    queue s' = queue s ++ seq (calls s) (calls s' - calls s).
Proof.
  induction evs as [|ev evs IH]; intros s s' id Haw Hrun; cbn [Throttler.exec].
  - intros [= <-] _. rewrite Nat.sub_diag, app_nil_r. repeat split; lia || assumption || reflexivity.
  - destruct (step s ev) as [s1|] eqn:E; [|discriminate]. intros Hex Hnone.
    unfold none_settles, settlements in Hnone. cbn [flat_map] in Hnone.
    apply app_eq_nil in Hnone as [Hev Hrest].
    destruct (step_while_executing s s1 ev id Haw Hrun E)
      as (Haw1 & Hrun1 & Hd1 & Hl1 & Hc1 & Hq1).
    { unfold settlements. cbn [flat_map]. rewrite Hev. reflexivity. }
    destruct (IH s1 s' id Haw1 Hrun1 Hex Hrest) as (Haw2 & Hd2 & Hl2 & Hc2 & Hq2).
    repeat split; try congruence; [lia|].
    rewrite Hq2, Hq1, <- app_assoc. f_equal.
    replace (calls s' - calls s)%nat
      with ((calls s1 - calls s) + (calls s' - calls s1))%nat by lia.
    rewrite seq_app. f_equal. f_equal. lia.
Qed.

(** The deadline of a pending timer is the last dispatch plus the interval,
    no later. *)
Lemma step_deadline (s s' : state) (ev : event) :
  invariant s ->
  (forall id d, In (id, AwaitTimer d) (awaiting s) -> d = lastTime s + interval) ->
  step s ev = Some s' ->
  forall id d, In (id, AwaitTimer d) (awaiting s') -> d = lastTime s' + interval.
Proof.
  destruct s as [lt rn q ck aw n ds st].
  intros [Hshape _ _ _ _ _] Hd. simpl in *.
  assert (Hrun : forall i (s0 : state) id d,
             awaiting s0 = [] ->
             In (id, AwaitTimer d) (awaiting (Throttler.run interval i s0)) ->
             d = lastTime (Throttler.run interval i s0) + interval).
  { intros i s0 id d Haw. unfold Throttler.run.
    destruct (Z.ltb_spec 0 (Z.max 0 (lastTime s0 + interval - clock s0))).
    - simpl. rewrite Haw. intros [[= _ <-]|[]]. lia.
    - simpl. rewrite Haw. intros [H0|[]]. discriminate. }
  destruct ev as [|dt|id'|id' r]; cbn [Throttler.step].
  - intros [= <-]. unfold schedule; simpl. destruct rn; simpl.
    + exact Hd.
    + destruct aw; [|contradiction]. intros id d. apply Hrun. reflexivity.
  - destruct (0 <=? dt); [|discriminate]. intros [= <-]. exact Hd.
  - unfold suspended_at; simpl.
    destruct rn; [|destruct aw; [discriminate | contradiction]].
    destruct aw as [|[i a] [|y aw]]; try contradiction. simpl.
    destruct (Nat.eqb_spec i id'); [|discriminate].
    destruct a as [d0|]; [|discriminate].
    destruct (d0 <=? ck); [|discriminate]. intros [= <-].
    unfold resume; simpl. subst i. rewrite Nat.eqb_refl. simpl.
    intros id d [H0|[]]. discriminate.
  - unfold suspended_at; simpl.
    destruct rn; [|destruct aw; [discriminate | contradiction]].
    destruct aw as [|[i a] [|y aw]]; try contradiction. simpl.
    destruct (Nat.eqb_spec i id'); [|discriminate].
    destruct a as [d0|]; [discriminate|]. intros [= <-].
    unfold finally, settle, resume; simpl. subst i. rewrite Nat.eqb_refl. simpl.
    destruct q as [|next rest]; simpl; [intros id d []|].
    intros id d. apply Hrun. reflexivity.
Qed.

Lemma reachable_deadline (t0 : Z) (evs : list event) :
  forall s, exec (init t0) evs = Some s ->
  forall id d, In (id, AwaitTimer d) (awaiting s) -> d = lastTime s + interval.
Proof.
  assert (Hgen : forall (evs : list event) (s0 s : state),
             invariant s0 ->
             (forall id d, In (id, AwaitTimer d) (awaiting s0) ->
                           d = lastTime s0 + interval) ->
             exec s0 evs = Some s ->
             forall id d, In (id, AwaitTimer d) (awaiting s) ->
                          d = lastTime s + interval).
  { clear evs. induction evs as [|ev evs IH]; intros s0 s Hinv Hd; cbn [Throttler.exec].
    - intros [= <-]. exact Hd.
    - destruct (step s0 ev) as [s1|] eqn:E; [|discriminate].
      apply IH; [exact (step_invariant _ _ _ _ Hinv E)|].
      exact (step_deadline _ _ _ Hinv Hd E). }
  intros s Hex. apply (Hgen evs (init t0) s (init_invariant _ t0)); [|exact Hex].
  intros id d [].
Qed.

Lemma spaced_next (ts : list Z) :
  spaced ts -> forall i a b,
    nth_error ts i = Some a -> nth_error ts (S i) = Some b -> a + interval <= b.
Proof.
  induction ts as [|t ts IH]; intros Hs i a b; [destruct i; discriminate|].
  destruct ts as [|t2 ts]; [destruct i as [|[|i]]; discriminate|].
  destruct Hs as [Hle Hs]. destruct i as [|i]; simpl.
  - intros [= <-] [= <-]. exact Hle.
  - intros Ha Hb. exact (IH Hs i a b Ha Hb).
Qed.

Lemma spaced_far (ts : list Z) :
  spaced ts -> forall k i a b,
    nth_error ts i = Some a -> nth_error ts (i + k) = Some b ->
    a + interval * Z.of_nat k <= b.
Proof.
  intros Hs. induction k as [|k IH]; intros i a b Ha Hb.
  - rewrite Nat.add_0_r, Ha in Hb. injection Hb as <-. lia.
  - replace (i + S k)%nat with (S (i + k)) in Hb by lia.
    destruct (nth_error ts (i + k)) as [c|] eqn:Hc.
    + pose proof (IH i a c Ha Hc). pose proof (spaced_next ts Hs _ _ _ Hc Hb). lia.
    + apply nth_error_None in Hc.
      assert (nth_error ts (S (i + k)) = None) by (apply nth_error_None; lia).
      congruence.
Qed.

Lemma step_lastTime (s s' : state) (ev : event) :
  0 <= interval -> invariant s -> step s ev = Some s' -> lastTime s <= lastTime s'.
Proof.
  intros Hi [_ _ _ _ _ Hdead] Hstep.
  destruct s as [lt rn q ck aw n ds st]. simpl in *.
  assert (Hrun : forall i (s0 : state),
             lastTime s0 <= lastTime (Throttler.run interval i s0)).
  { intros i s0. unfold Throttler.run.
    destruct (Z.ltb_spec 0 (Z.max 0 (lastTime s0 + interval - clock s0))); simpl; lia. }
  destruct ev as [|dt|id|id r]; cbn [Throttler.step] in Hstep.
  - injection Hstep as <-. unfold schedule; simpl. destruct rn; simpl; [lia|].
    apply (Hrun n (mkState lt true q ck aw (S n) ds st)).
  - destruct (0 <=? dt); [|discriminate]. injection Hstep as <-. simpl. lia.
  - unfold suspended_at in Hstep; simpl in Hstep.
    destruct (find _ aw) as [[i [d|]]|] eqn:Ef; try discriminate.
    destruct (Z.leb_spec d ck); [|discriminate]. injection Hstep as <-. simpl.
    apply find_some in Ef as [Hin _]. specialize (Hdead i d Hin). lia.
  - destruct (suspended_at id _) as [[d|]|]; try discriminate.
    injection Hstep as <-. unfold finally, settle, resume; simpl.
    destruct q as [|next rest]; simpl; [lia|].
    apply (Hrun next (mkState lt true rest ck _ n ds _)).
Qed.

Lemma exec_lastTime (evs : list event) :
  0 <= interval ->
  forall s s', invariant s -> exec s evs = Some s' -> lastTime s <= lastTime s'.
Proof.
  intros Hi. induction evs as [|ev evs IH]; intros s s' Hinv; cbn [Throttler.exec].
  - intros [= <-]. lia.
  - destruct (step s ev) as [s1|] eqn:E; [|discriminate]. intros Hex.
    pose proof (step_lastTime _ _ _ Hi Hinv E).
    pose proof (IH _ _ (step_invariant _ _ _ _ Hinv E) Hex). lia.
Qed.

(** With an interval that is not positive no timer is ever set. *)
Lemma step_no_timer (s s' : state) (ev : event) :
  interval <= 0 -> invariant s ->
  lastTime s + interval <= clock s -> delayed s = [] ->
  step s ev = Some s' ->
  lastTime s' + interval <= clock s' /\ delayed s' = [].
Proof.
  intros Hi [Hshape _ _ _ _ _] Hle Hdel Hstep.
  destruct s as [lt rn q ck aw n ds st]. unfold delayed in *. simpl in *.
  destruct ev as [|dt|id|id r]; cbn [Throttler.step] in Hstep.
  - injection Hstep as <-. unfold schedule, Throttler.run; simpl. destruct rn; simpl.
    + split; assumption.
    + destruct aw; [|contradiction].
      destruct (Z.ltb_spec 0 (Z.max 0 (lt + interval - ck))); [lia|].
      simpl. split; [lia | reflexivity].
  - destruct (Z.leb_spec 0 dt); [|discriminate]. injection Hstep as <-. simpl.
    split; [lia | assumption].
  - unfold suspended_at in Hstep; simpl in Hstep.
    destruct rn; [|destruct aw; [discriminate | contradiction]].
    destruct aw as [|[i a] [|y aw]]; try contradiction. simpl in *.
    destruct a; discriminate || (destruct (i =? id)%nat; discriminate).
  - unfold suspended_at in Hstep; simpl in Hstep.
    destruct rn; [|destruct aw; [discriminate | contradiction]].
    destruct aw as [|[i a] [|y aw]]; try contradiction. simpl in *.
    destruct (Nat.eqb_spec i id); [|discriminate].
    destruct a as [d|]; [discriminate|]. injection Hstep as <-.
    unfold finally, settle, resume, Throttler.run; simpl.
    subst i. rewrite Nat.eqb_refl. simpl.
    destruct q as [|next rest]; simpl; [split; [lia | reflexivity]|].
    destruct (Z.ltb_spec 0 (Z.max 0 (lt + interval - ck))); [lia|].
    simpl. split; [lia | reflexivity].
Qed.

(** ** More about the Throttler *)

(** X4. Relay.  The promises returned by [schedule] settle with exactly the
    outcomes of the units of work, success or failure, in the order of the
    calls. *)
Theorem outcomes_relayed (t0 : Z) (evs : list event) (s : state) :
  exec (init t0) evs = Some s ->
  settled s = settlements evs /\
  map fst (settled s) = seq 0 (length (settled s)).
Proof.
  intros Hex. split.
  - rewrite (exec_settled _ _ _ Hex). reflexivity.
  - pose proof (reachable_invariant _ _ _ _ Hex) as Hinv.
    pose proof (inv_order _ _ Hinv) as Hord.
    rewrite <- (inv_settled _ _ Hinv), <- app_assoc in Hord.
    apply seq_prefix in Hord as [Hord _]. rewrite length_map in Hord. exact Hord.
Qed.

(** X5. No timeout.  While the unit of work in flight does not settle, no
    other unit of work is ever invoked, however much time passes: every new
    call is queued behind the ones already waiting. *)
Theorem hung_work_blocks (t0 : Z) (evs evs' : list event) (s s' : state) (id : nat) :
  exec (init t0) evs = Some s -> In id (executing s) ->
  exec s evs' = Some s' -> none_settles evs' ->
  dispatched s' = dispatched s /\ executing s' = [id] /\
  queue s' = queue s ++ seq (calls s) (calls s' - calls s).
Proof.
  intros Hex Hin Hex' Hnone.
  pose proof (reachable_invariant _ _ _ _ Hex) as Hinv.
  destruct (idle_or_single _ s Hinv) as [(_ & Haw & _)|(Hrun & i & a & Haw)];
    unfold executing in Hin; rewrite Haw in Hin; simpl in Hin; [contradiction|].
  destruct a as [d|]; simpl in Hin; [contradiction|].
  destruct Hin as [->|[]].
  destruct (exec_while_executing evs' s s' id Haw Hrun Hex' Hnone)
    as (Haw' & Hd & _ & _ & Hq).
  unfold executing. rewrite Haw'. simpl. repeat split; assumption.
Qed.

(** X6. No more delay than the interval asks for.  A timer of the Throttler
    is due exactly [interval] after the last dispatch, and a call that finds
    the Throttler idle with the interval elapsed is invoked in the same
    turn, as is the head of the queue when a unit of work settles. *)
Theorem no_needless_delay (t0 : Z) (evs : list event) (s : state) :
  exec (init t0) evs = Some s ->
  (forall id d, In (id, AwaitTimer d) (awaiting s) ->
     d = lastTime s + interval /\
     (d <= clock s ->
      exists s', step s (Timeout id) = Some s' /\
                 dispatched s' = dispatched s ++ [(id, clock s)])) /\
  (running s = false -> lastTime s + interval <= clock s ->
   exists s', step s Call = Some s' /\
              dispatched s' = dispatched s ++ [(calls s, clock s)]) /\
  (forall id r s' next rest,
     step s (Settle id r) = Some s' -> queue s = next :: rest ->
     lastTime s + interval <= clock s ->
     dispatched s' = dispatched s ++ [(next, clock s)]).
Proof.
  intros Hex. pose proof (reachable_invariant _ _ _ _ Hex) as Hinv.
  pose proof (reachable_deadline _ _ _ Hex) as Hdead.
  split; [|split].
  - intros id d Hin. split; [exact (Hdead id d Hin)|]. intros Hle.
    destruct (idle_or_single _ s Hinv) as [(_ & Haw & _)|(_ & i & a & Haw)];
      rewrite Haw in Hin; [destruct Hin|].
    destruct Hin as [[= -> ->]|[]].
    destruct s as [lt rn q ck aw n ds st]; simpl in *. subst aw.
    unfold suspended_at; simpl. rewrite Nat.eqb_refl.
    destruct (Z.leb_spec d ck); [|lia].
    eexists. split; [reflexivity|]. reflexivity.
  - intros Hidle Hle.
    destruct (idle_or_single _ s Hinv) as [(_ & Haw & _)|(Hrun & _)]; [|congruence].
    destruct s as [lt rn q ck aw n ds st]; simpl in *. subst rn aw.
    eexists. split; [reflexivity|]. unfold schedule, Throttler.run; simpl.
    destruct (Z.ltb_spec 0 (Z.max 0 (lt + interval - ck))); [lia | reflexivity].
  - intros id r s' next rest Hstep Hq Hle.
    destruct s as [lt rn q ck aw n ds st]; simpl in *. subst q.
    cbn [Throttler.step] in Hstep.
    destruct (suspended_at id _) as [[d|]|]; try discriminate.
    injection Hstep as <-. unfold finally, settle, resume, Throttler.run; simpl.
    destruct (Z.ltb_spec 0 (Z.max 0 (lt + interval - ck))); [lia | reflexivity].
Qed.

(** X7. Far spacing.  The dispatch that comes [k] places after another one
    starts at least [k] intervals later. *)
Theorem spacing_adds_up (t0 : Z) (evs : list event) (s : state)
    (i k : nat) (a b : nat * Z) :
  exec (init t0) evs = Some s ->
  nth_error (dispatched s) i = Some a ->
  nth_error (dispatched s) (i + k) = Some b ->
  interval * Z.of_nat k <= snd b - snd a.
Proof.
  intros Hex Ha Hb.
  pose proof (inv_spaced _ _ (reachable_invariant _ _ _ _ Hex)) as Hsp.
  assert (a' : nth_error (map snd (dispatched s)) i = Some (snd a))
    by (rewrite nth_error_map, Ha; reflexivity).
  assert (b' : nth_error (map snd (dispatched s)) (i + k) = Some (snd b))
    by (rewrite nth_error_map, Hb; reflexivity).
  pose proof (spaced_far _ Hsp k i _ _ a' b'). lia.
Qed.

(** X8. [lastTime].  With an interval that is not negative [lastTime] never
    decreases, and once a unit of work has been dispatched it is the time of
    the last dispatch and not in the future. *)
Theorem lastTime_monotone (t0 : Z) (evs evs' : list event) (s s' : state) :
  0 <= interval ->
  exec (init t0) evs = Some s -> exec s evs' = Some s' ->
  lastTime s <= lastTime s' /\
  (dispatched s <> [] ->
   lastTime s = snd (last (dispatched s) (0%nat, 0)) /\ lastTime s <= clock s).
Proof.
  intros Hi Hex Hex'. pose proof (reachable_invariant _ _ _ _ Hex) as Hinv.
  split; [exact (exec_lastTime evs' Hi s s' Hinv Hex')|].
  intros Hne. destruct (inv_last _ _ Hinv Hne) as [Hl Hc]. split; [|exact Hc].
  rewrite <- Hl. destruct (dispatched s) as [|x l] using rev_ind; [contradiction|].
  rewrite map_app. cbn [map]. rewrite !last_last. reflexivity.
Qed.

(** X9. Interval zero.  With an interval that is not positive and a clock
    that starts at or after it, the Throttler never sets a timer: whenever
    it is running, a unit of work is in flight. *)
Theorem no_spacing_without_interval (t0 : Z) (evs : list event) (s : state) :
  interval <= 0 -> interval <= t0 ->
  exec (init t0) evs = Some s ->
  delayed s = [] /\ (running s = true -> exists id, executing s = [id]).
Proof.
  intros Hi Ht Hex.
  assert (Hgen : forall (evs : list event) (s0 s : state),
             invariant s0 -> lastTime s0 + interval <= clock s0 -> delayed s0 = [] ->
             exec s0 evs = Some s -> delayed s = []).
  { clear - Hi. intros evs. induction evs as [|ev evs IH]; intros s0 s Hinv Hle Hdel;
      cbn [Throttler.exec].
    - intros [= <-]. exact Hdel.
    - destruct (step s0 ev) as [s1|] eqn:E; [|discriminate].
      destruct (step_no_timer _ _ _ Hi Hinv Hle Hdel E) as [Hle1 Hdel1].
      apply IH; [exact (step_invariant _ _ _ _ Hinv E) | exact Hle1 | exact Hdel1]. }
  assert (Hdel : delayed s = []).
  { apply (Hgen evs (init t0) s (init_invariant _ t0)); simpl; [lia | reflexivity | exact Hex]. }
  split; [exact Hdel|]. intros Hrun.
  pose proof (reachable_invariant _ _ _ _ Hex) as Hinv.
  destruct (idle_or_single _ s Hinv) as [(Hidle & _)|(_ & id & a & Haw)]; [congruence|].
  unfold delayed, executing in *. rewrite Haw in *. simpl in *.
  destruct a; [discriminate Hdel|]. exists id. reflexivity.
Qed.

End Instance.

(** Instances on concrete runs. *)

Import ThrottlerScenario ThrottlerRuns.

Lemma outcomes_relayed_witness :
  settled rest_state = settlements rest_events /\
  map fst (settled rest_state) = seq 0 (length (settled rest_state)).
Proof.
  apply (outcomes_relayed 100 1000 rest_events rest_state).
  vm_compute. reflexivity.
Defined.

Lemma hung_work_blocks_witness :
  dispatched stuck_state = dispatched busy_state /\
  executing stuck_state = [0%nat] /\
  queue stuck_state
  = queue busy_state ++ seq (calls busy_state) (calls stuck_state - calls busy_state).
Proof.
  apply (hung_work_blocks 100 1000 busy_events idle_talk busy_state stuck_state 0%nat).
  - vm_compute. reflexivity.
  - vm_compute. left. reflexivity.
  - vm_compute. reflexivity.
  - vm_compute. reflexivity.
Defined.

Lemma no_needless_delay_witness :
  1100 = lastTime waiting_state + 100 /\
  exists s', step 100 waiting_state (Timeout 1) = Some s' /\
             dispatched s' = dispatched waiting_state ++ [(1%nat, clock waiting_state)].
Proof.
  destruct (no_needless_delay 100 1000 waiting_events waiting_state) as (Ht & _).
  - vm_compute. reflexivity.
  - destruct (Ht 1%nat 1100) as [Hd Hs].
    + vm_compute. left. reflexivity.
    + split; [exact Hd|]. apply Hs. vm_compute. discriminate.
Defined.

Lemma spacing_adds_up_witness :
  100 * Z.of_nat 2 <= snd (2%nat, 1220) - snd (0%nat, 1000).
Proof.
  apply (spacing_adds_up 100 1000 rest_events rest_state 0 2).
  - vm_compute. reflexivity.
  - vm_compute. reflexivity.
  - vm_compute. reflexivity.
Defined.

Lemma lastTime_monotone_witness :
  lastTime busy_state <= lastTime resumed_state /\
  (dispatched busy_state <> [] ->
   lastTime busy_state = snd (last (dispatched busy_state) (0%nat, 0)) /\
   lastTime busy_state <= clock busy_state).
Proof.
  apply (lastTime_monotone 100 1000 busy_events resumption busy_state resumed_state).
  - lia.
  - vm_compute. reflexivity.
  - vm_compute. reflexivity.
Defined.

Lemma no_spacing_without_interval_witness :
  delayed eager_state = [] /\
  (running eager_state = true -> exists id, executing eager_state = [id]).
Proof.
  apply (no_spacing_without_interval 0 0 eager_events eager_state).
  - lia.
  - lia.
  - vm_compute. reflexivity.
Defined.

End MoreThrottlerFacts.

Import MoreRetryFacts.

Module HintFacts.
Import NumberFacts.

Lemma of_uint_head (d : Decimal.uint) :
  d <> Decimal.Nil ->
  exists c rest, of_uint d = c :: rest /\
    In c [48; 49; 50; 51; 52; 53; 54; 55; 56; 57]%N.
Proof.
  intros Hd. destruct d; [contradiction|..]; cbn [of_uint];
    eexists; eexists; (split; [reflexivity|]); simpl; tauto.
Qed.

Lemma literal_of_digit (c : N) (rest : jsstring) :
  In c [48; 49; 50; 51; 52; 53; 54; 55; 56; 57]%N ->
  literal_of (c :: rest)
  = match unsigned_decimal (c :: rest) with
    | Some (m, e) => Decimal m e
    | None => NoLiteral
    end.
Proof.
  intros Hc. repeat (destruct Hc as [<-|Hc]; [reflexivity|]). destruct Hc.
Qed.

(** [parseFloat] reads the decimal form of a natural number as that
    number. *)
Lemma literal_of_decimal (n : nat) : literal_of (decimal n) = Decimal (Z.of_nat n) 0.
Proof.
  destruct (decimal_digits n [] I) as (k & Hk & Hd). rewrite app_nil_r in Hd.
  assert (Hne : Nat.to_uint n <> Decimal.Nil).
  { rewrite <- (DecimalNat.Unsigned.of_to n) at 1. rewrite DecimalNat.Unsigned.to_of. apply DecimalFacts.unorm_nonnil. }
  destruct (of_uint_head _ Hne) as (c & rest & Hhead & Hc).
  fold (decimal n) in Hhead. rewrite Hhead, (literal_of_digit c rest Hc), <- Hhead.
  unfold unsigned_decimal. rewrite Hd.
  destruct (Z.ltb_spec 0 k); [reflexivity | lia].
Qed.

Lemma find_null (pre post : list json) :
  Forall (fun d => is_RetryInfo d = Some false) pre ->
  find_RetryInfo (pre ++ JNull :: post) = None.
Proof.
  intros Hpre. induction Hpre as [|d pre Hd _ IH]; simpl; [reflexivity|].
  rewrite Hd. exact IH.
Qed.

(** X10. Whole seconds.  When the first RetryInfo detail, with no [null]
    detail before it, has as [retryDelay] a whole number of seconds [n]
    followed by [s], the hint is exactly [1000 * n] milliseconds.  The
    bound keeps [n * 1000] among the integers that binary64 represents
    exactly, so that neither [parseFloat] nor the product rounds. *)
Theorem whole_seconds_hint (e : thrown) (n : nat) :
  carries_retryDelay e (decimal n ++ lit "s") ->
  Z.of_nat n * 1000 <= 2 ^ 53 ->
  parseRetryDelayMs e = Some (Ms (1000 * Z.of_nat n)).
Proof.
  intros Hc Hn. rewrite (hint_of_carried e _ Hc). unfold delay_ms.
  assert (Hne : truthy (V (JString (decimal n ++ lit "s"))) = true).
  { cbn [truthy]. destruct (decimal n); reflexivity. }
  rewrite Hne. unfold endsWith. rewrite rev_app_distr. cbn [lit map list_ascii_of_string rev app].
  cbn [startsWith]. rewrite N.eqb_refl. cbn [andb].
  assert (Hs : startsWith (rev (decimal n)) [] = true) by (destruct (rev (decimal n)); reflexivity).
  rewrite Hs. unfold slice_0_m1.
  change (decimal n ++ [N_of_ascii "s"]) with (decimal n ++ [N_of_ascii "s"]).
  rewrite removelast_last. unfold parseFloat. rewrite literal_of_decimal.
  change (2 ^ 53) with 9007199254740992 in Hn.
  assert (Hms : ceil_times_1000 (of_decimal (Z.of_nat n) 0) = Ms (Z.of_nat n * 1000)).
  { apply ceil_times_1000_integer; [lia|].
    change (2 ^ 53) with 9007199254740992. lia. }
  rewrite of_decimal_not_NaN, Hms. cbn [negb]. f_equal. f_equal. lia.
Qed.

(** X11. A [null] detail.  When [null] stands in the details before any
    RetryInfo entry, reading its [@type] throws, the [catch] swallows the
    error, and there is no hint, whatever follows the [null]. *)
Theorem null_detail_hides_hint (e : thrown) (m : jsstring) (data : json)
    (pre post : list json) :
  message_of e = Some m -> JSON_parse m = Some data ->
  opt_get (opt_get (V data) (lit "error")) (lit "details")
    = V (JArray (pre ++ JNull :: post)) ->
  Forall (fun d => is_RetryInfo d = Some false) pre ->
  parseRetryDelayMs e = None /\
  forall n, retry_delay e n = Ms (2000 * 2 ^ n).
Proof.
  intros Hm Hp Hd Hpre.
  assert (H : parseRetryDelayMs e = None).
  { unfold parseRetryDelayMs. rewrite Hm.
    destruct m as [|c m]; [reflexivity|]. cbn [is_empty].
    unfold try_block. rewrite Hp. unfold hint_of_data. rewrite Hd. cbn [truthy].
    rewrite (find_null pre post Hpre). reflexivity. }
  split; [exact H|]. intros n. unfold retry_delay. rewrite H. reflexivity.
Qed.

(** Instances on concrete runs. *)

Lemma seconds_doc_carried :
  carries_retryDelay (ErrorObject 0 seconds_doc) (decimal 7 ++ lit "s").
Proof.
  exists seconds_doc, (parsed seconds_doc), (RetryInfo_entry "7s").
  split; [reflexivity|]. split; [vm_compute; reflexivity|].
  split; [|vm_compute; reflexivity].
  exists [], []. split; [vm_compute; reflexivity|].
  split; [constructor | vm_compute; reflexivity].
Defined.

Lemma whole_seconds_hint_witness :
  parseRetryDelayMs (ErrorObject 0 seconds_doc) = Some (Ms (1000 * Z.of_nat 7)).
Proof.
  apply (whole_seconds_hint (ErrorObject 0 seconds_doc) 7 seconds_doc_carried).
  vm_compute. discriminate.
Defined.

Lemma null_detail_hides_hint_witness :
  parseRetryDelayMs (ErrorObject 0 null_doc) = None /\
  forall n, retry_delay (ErrorObject 0 null_doc) n = Ms (2000 * 2 ^ n).
Proof.
  apply (null_detail_hides_hint (ErrorObject 0 null_doc) null_doc (parsed null_doc)
           [] [RetryInfo_entry "7s"]).
  - reflexivity.
  - vm_compute. reflexivity.
  - vm_compute. reflexivity.
  - constructor.
Defined.

End HintFacts.

Module HandlerFacts.

Lemma eqb_eq (s t : jsstring) : JsString.eqb s t = true <-> s = t.
Proof.
  revert t. induction s as [|c s IH]; intros [|d t]; cbn [JsString.eqb];
    try (split; [discriminate | discriminate]); [split; reflexivity|].
  rewrite andb_true_iff, N.eqb_eq, IH. split.
  - intros [-> ->]. reflexivity.
  - intros [= -> ->]. split; reflexivity.
Qed.

Lemma allowed_spec (t : jsstring) : allowed t = true <-> In t allowedMime.
Proof.
  unfold allowed. rewrite existsb_exists. split.
  - intros (x & Hin & He). apply eqb_eq in He. subst x. exact Hin.
  - intros Hin. exists t. split; [exact Hin | apply eqb_eq; reflexivity].
Qed.

(** The checks of the handler let through exactly the valid requests. *)
Lemma validate_spec (req : request) (p : jsstring) (f : file) :
  validate req = Continue (p, f) <-> valid req p f.
Proof.
  unfold validate, valid. split.
  - destruct (GEMINI_API_KEY req) as [key|]; cbn [falsy]; [|discriminate].
    destruct key as [|k0 key]; cbn [is_empty]; [discriminate|].
    destruct (content_type req) as [ct|]; cbn [or_else];
      [|change (includes [] (lit "multipart/form-data")) with false; discriminate].
    destruct ct as [|c0 ct]; cbn [is_empty];
      [change (includes [] (lit "multipart/form-data")) with false; discriminate|].
    destruct (includes (c0 :: ct) (lit "multipart/form-data")) eqn:Ec; cbn [negb];
      [|discriminate].
    destruct (formData req) as [e|[img pr]]; [discriminate|]. cbn [form_image form_prompt].
    destruct img as [|s|f0]; try discriminate.
    destruct pr as [|raw|f1]; try discriminate.
    destruct (is_empty raw); [discriminate|].
    destruct (Nat.eqb_spec (length (trim raw)) 0); [discriminate|].
    destruct (Nat.ltb_spec 500 (length (trim raw))); [discriminate|].
    destruct (allowed (file_type f0)) eqn:Ea; cbn [negb]; [|discriminate].
    destruct (Z.ltb_spec sizeLimit (file_size f0)); [discriminate|].
    intros [= <- <-]. exists (k0 :: key), (c0 :: ct), raw.
    repeat split; try reflexivity; try lia; try discriminate; try assumption.
    apply allowed_spec. exact Ea.
  - intros (key & ct & raw & -> & Hk & -> & Hc & -> & -> & Hlen & Ha & Hs).
    destruct key as [|k0 key]; [contradiction|]. cbn [falsy is_empty or_else].
    destruct ct as [|c0 ct]; [discriminate Hc|]. cbn [is_empty].
    rewrite Hc. cbn [negb form_image form_prompt].
    destruct raw as [|r0 raw]; [simpl in Hlen; lia|]. cbn [is_empty].
    destruct (Nat.eqb_spec (length (trim (r0 :: raw))) 0); [lia|].
    destruct (Nat.ltb_spec 500 (length (trim (r0 :: raw)))); [lia|].
    apply allowed_spec in Ha. rewrite Ha. cbn [negb].
    destruct (Z.ltb_spec sizeLimit (file_size f)); [lia | reflexivity].
Qed.

(** What [validate] answers when it does not go on is no success. *)
Lemma validate_rejects (req : request) (r : response) :
  validate req = Respond r ->
  (status r = 400 \/ status r = 500) /\ exists msg, payload r = Failed msg /\ msg <> [].
Proof.
  unfold validate, bad_request.
  repeat match goal with
         | |- context [if ?b then _ else _] => destruct b
         | |- context [match ?x with _ => _ end] => destruct x
         end;
    intros [= <-]; cbn [status payload];
    (split; [auto | eexists; split; [reflexivity | vm_compute; discriminate]]).
Qed.

Section Extraction.

Context {H : Type}.
Variable sys : host H.
Variable o : jsstring.

Local Abbreviation do_parts := (do_parts sys o).
Local Abbreviation do_candidates := (do_candidates sys o).
Local Abbreviation respond_with := (respond_with sys o).

Lemma do_parts_app (a b : list part) :
  forall v h wr,
    do_parts (a ++ b) v h wr
    = match do_parts a v h wr with
      | (inl e, h', wr') => (inl e, h', wr')
      | (inr v', h', wr') => do_parts b v' h' wr'
      end.
Proof.
  induction a as [|p a IH]; intros v h wr; cbn [app Handler.do_parts]; [reflexivity|].
  destruct (do_part sys o p v h wr) as [[[e|v1] h1] wr1]; [reflexivity | apply IH].
Qed.

Lemma do_candidates_flat (cs : list candidate) :
  forall v h wr,
    do_candidates cs v h wr = do_parts (flat_map parts_of cs) v h wr.
Proof.
  induction cs as [|c cs IH]; intros v h wr;
    cbn [Handler.do_candidates flat_map]; [reflexivity|].
  rewrite do_parts_app.
  destruct (do_parts (parts_of c) v h wr) as [[[e|v1] h1] wr1]; [reflexivity | apply IH].
Qed.

Lemma images_flat (r : sdkResponse) :
  images r = image_parts (flat_map parts_of (candidates_of r)).
Proof.
  unfold images, image_parts. induction (candidates_of r) as [|c cs IH];
    cbn [flat_map]; [reflexivity|].
  rewrite flat_map_app, IH. reflexivity.
Qed.

Lemma texts_flat (r : sdkResponse) :
  texts r = text_parts (flat_map parts_of (candidates_of r)).
Proof.
  unfold texts, text_parts. induction (candidates_of r) as [|c cs IH];
    cbn [flat_map]; [reflexivity|].
  rewrite flat_map_app, IH. reflexivity.
Qed.

(** What the loop over the parts has done when it ends: the files written
    are those of the leading image parts, one per identifier drawn; when it
    ends without an exception, every image part has its file, the text is
    that of the other parts, and the URL is that of the last image. *)
Lemma do_parts_spec (ps : list part) :
  forall v h wr res h' wr',
    do_parts ps v h wr = (res, h', wr') ->
    exists ids,
      wr' = wr ++ files_for sys (fileIndex v) (image_parts ps) ids /\
      match res with
      | inl e => (length ids < length (image_parts ps))%nat
      | inr v' =>
          length ids = length (image_parts ps) /\
          fileIndex v' = (fileIndex v + length ids)%nat /\
          textOut v' = textOut v ++ concat (text_parts ps) /\
          ((image_parts ps = [] /\ imageUrl v' = imageUrl v) \/
           (exists ds d ids0 id,
               image_parts ps = ds ++ [d] /\ ids = ids0 ++ [id] /\
               imageUrl v'
               = Some (url_of o (filename_of id (fileIndex v + length ds)
                                             (ext_of sys d)))))
      end.
Proof.
  induction ps as [|p ps IH]; intros v h wr res h' wr' Hrun;
    cbn [Handler.do_parts] in Hrun.
  - injection Hrun as <- <- <-. exists []. cbn. rewrite !app_nil_r.
    repeat split; try lia. left. split; reflexivity.
  - unfold do_part in Hrun. unfold image_parts, text_parts. cbn [flat_map].
    fold (image_parts ps). fold (text_parts ps).
    destruct (part_inlineData p) as [d|] eqn:Ed.
    + destruct (randomUUID sys h) as [id h1].
      destruct (Bun_write sys _ _ h1) as [[e|] h2].
      * injection Hrun as <- <- <-. exists []. cbn. rewrite app_nil_r.
        split; [reflexivity | lia].
      * apply IH in Hrun as (ids & Hwr & Hres). cbn [fileIndex textOut imageUrl] in *.
        exists (id :: ids). split.
        { rewrite Hwr. cbn [app files_for]. rewrite <- app_assoc. reflexivity. }
        destruct res as [e|v']; cbn [app length]; [lia|].
        destruct Hres as (Hlen & Hidx & Htxt & Hurl).
        split; [lia|]. split; [lia|]. split; [exact Htxt|]. right.
        destruct Hurl as [[Hnil Hu]|(ds & d' & ids0 & id' & Hds & Hids & Hu)].
        -- exists [], d, [], id. rewrite Hnil in *. destruct ids; [|discriminate].
           rewrite Hu, Nat.add_0_r. repeat split.
        -- exists (d :: ds), d', (id :: ids0), id'. rewrite Hds, Hids, Hu.
           repeat split. cbn [length]. do 3 f_equal. lia.
    + assert (Hstep :
                do_part sys o p v h wr
                = (inr (mkVars (imageUrl v)
                               (textOut v ++ concat (match part_text p with
                                                     | Some t0 => [t0]
                                                     | None => []
                                                     end))
                               (fileIndex v)), h, wr)).
      { unfold do_part. rewrite Ed. destruct (part_text p) as [t|].
        - destruct t as [|c t]; cbn [is_empty negb concat app].
          + rewrite app_nil_r. destruct v; reflexivity.
          + rewrite app_nil_r. reflexivity.
        - cbn. rewrite app_nil_r. destruct v; reflexivity. }
      unfold do_part in Hstep. rewrite Ed in Hstep.
      rewrite Hstep in Hrun. apply IH in Hrun as (ids & Hwr & Hres).
      cbn [fileIndex textOut imageUrl] in *. exists ids. split; [exact Hwr|].
      destruct res as [e|v']; [exact Hres|].
      destruct Hres as (Hlen & Hidx & Htxt & Hurl).
      repeat split; try assumption.
      rewrite Htxt, concat_app, app_assoc. reflexivity.
Qed.

Lemma files_for_length (ds : list inlineData) :
  forall index ids,
    length ids = length ds -> length (files_for sys index ds ids) = length ds.
Proof.
  induction ds as [|d ds IH]; intros index [|id ids] Hlen; try discriminate;
    cbn [files_for length]; [reflexivity|].
  f_equal. apply IH. injection Hlen as Hlen. exact Hlen.
Qed.

Lemma files_for_short (ds : list inlineData) :
  forall index ids,
    (length ids <= length ds)%nat -> length (files_for sys index ds ids) = length ids.
Proof.
  induction ds as [|d ds IH]; intros index [|id ids] Hlen; cbn [files_for length] in *;
    try reflexivity; try lia.
  f_equal. apply IH. lia.
Qed.

Lemma files_for_nth (ds : list inlineData) :
  forall index ids i d,
    nth_error ds i = Some d -> (i < length ids)%nat ->
    exists id,
      nth_error ids i = Some id /\
      nth_error (files_for sys index ds ids) i
      = Some (path_join sys (editedDir sys)
                        (filename_of id (index + i) (ext_of sys d)),
              base64_decode sys (or_else (data d) [])).
Proof.
  induction ds as [|d0 ds IH]; intros index ids i d Hd Hi; [destruct i; discriminate|].
  destruct ids as [|id0 ids]; [simpl in Hi; lia|]. destruct i as [|i].
  - injection Hd as <-. exists id0. cbn. rewrite Nat.add_0_r. split; reflexivity.
  - cbn [nth_error] in Hd. cbn [length] in Hi.
    destruct (IH (S index) ids i d Hd ltac:(lia)) as (id & Hid & Hf).
    exists id. cbn [nth_error files_for]. split; [exact Hid|].
    rewrite Hf. do 4 f_equal. lia.
Qed.

End Extraction.

End HandlerFacts.

Import HandlerFacts.

Module ServerFacts.

Lemma catch_status_cases (e : thrown) : catch_status e = 429 \/ catch_status e = 500.
Proof.
  unfold catch_status.
  destruct (includes _ RESOURCE_EXHAUSTED || includes _ Too_Many_Requests); auto.
Qed.

Lemma url_not_empty (o f : jsstring) : is_empty (url_of o f) = false.
Proof. unfold url_of. destruct o; reflexivity. Qed.

Section Server.

Context {H W : Type}.
Variable sys : host H.
Variable generateContent : jsstring -> file -> unit_of_work sdkResponse W.

Local Abbreviation respond_with := (respond_with sys).
Local Abbreviation edit_image := (edit_image sys generateContent).

Lemma no_images (o : jsstring) (ps : list part) :
  image_parts ps = [] ->
  forall v h wr, exists v',
    do_parts sys o ps v h wr = (inr v', h, wr) /\ imageUrl v' = imageUrl v.
Proof.
  induction ps as [|p ps IH]; intros Hnil v h wr; cbn [do_parts].
  - exists v. split; reflexivity.
  - unfold image_parts in Hnil. cbn [flat_map] in Hnil. fold (image_parts ps) in Hnil.
    unfold do_part. destruct (part_inlineData p) as [d|]; [discriminate Hnil|].
    cbn [app] in Hnil.
    destruct (part_text p) as [t|]; [destruct (negb (is_empty t))|];
      match goal with
      | |- context [do_parts sys o ps ?v1 h wr] =>
          destruct (IH Hnil v1 h wr) as (v' & -> & Hu); exists v'; split;
          [reflexivity | exact Hu]
      end.
Qed.

(** The ways in which [respond_with] ends. *)
Lemma respond_with_cases (o : jsstring) (r : sdkResponse) (h : H) :
  let '(resp, h', written) := respond_with o r h in
  exists ids,
    written = files_for sys 0 (images r) ids /\
    ((exists e, resp = catch_response e /\ (length ids < length (images r))%nat) \/
     (images r = [] /\ ids = [] /\ h' = h /\
      resp = mkResponse 502 (Failed (lit "Model did not return an image"))) \/
     (length ids = length (images r) /\
      exists ds d ids0 id,
        images r = ds ++ [d] /\ ids = ids0 ++ [id] /\
        resp = mkResponse 200
                 (Succeeded (url_of o (filename_of id (length ds) (ext_of sys d)))
                            (concat (texts r))))).
Proof.
  unfold Handler.respond_with. rewrite do_candidates_flat, images_flat, texts_flat.
  set (ps := flat_map parts_of (candidates_of r)).
  destruct (image_parts ps) as [|d0 ds0] eqn:Eimg.
  - destruct (no_images o ps Eimg (mkVars None [] 0) h []) as (v' & -> & Hu).
    cbn [imageUrl] in Hu. rewrite Hu. exists []. split; [reflexivity|].
    right. left. repeat split.
  - destruct (do_parts sys o ps (mkVars None [] 0) h []) as [[[e|v'] h'] wr'] eqn:Erun;
      destruct (do_parts_spec sys o ps _ _ _ _ _ _ Erun) as (ids & Hwr & Hres);
      cbn [fileIndex textOut imageUrl app] in *; rewrite Eimg in *.
    + exists ids. split; [exact Hwr|]. left. exists e. split; [reflexivity | exact Hres].
    + destruct Hres as (Hlen & _ & Htxt & [[Hnil _]|(ds & d & ids0 & id & Hds & Hids & Hu)]);
        [discriminate Hnil|].
      rewrite Hu, url_not_empty. exists ids. split; [exact Hwr|]. right. right.
      split; [exact Hlen|]. exists ds, d, ids0, id. rewrite Htxt. repeat split; assumption.
Qed.

(** The ways in which the handler ends. *)
Lemma edit_image_cases (req : request) (w : W) (h : H) :
  (exists r, validate req = Respond r /\
             edit_image req w h = mkServed r w h [] []) \/
  (exists e, validate req = Raise e /\
             edit_image req w h = mkServed (catch_response e) w h [] []) \/
  (exists p f res w' tr,
      validate req = Continue (p, f) /\
      withRetries (generateContent p f) 2 w = (res, w', tr) /\
      match res with
      | Returned sdk =>
          edit_image req w h
          = mkServed (fst (fst (respond_with (origin req) sdk h))) w'
                     (snd (fst (respond_with (origin req) sdk h))) tr
                     (snd (respond_with (origin req) sdk h))
      | Thrown e => edit_image req w h = mkServed (catch_response e) w' h tr []
      | OutOfFuel => False
      end).
Proof.
  unfold Handler.edit_image. destruct (validate req) as [r|e|[p f]].
  - left. exists r. split; reflexivity.
  - right. left. exists e. split; reflexivity.
  - right. right.
    pose proof (withRetries_total (generateContent p f) 2 w) as Htot.
    destruct (withRetries (generateContent p f) 2 w) as [[res w'] tr] eqn:Erun.
    exists p, f, res, w', tr. split; [reflexivity|]. split; [exact Erun|].
    destruct res as [sdk|e|]; [|reflexivity | apply Htot; reflexivity].
    destruct (Handler.respond_with sys (origin req) sdk h) as [[r h'] written].
    reflexivity.
Qed.

(** ** The handler *)

(** X12. No image.  The handler answers 502 exactly when no part of the
    model's answer carries inline data; it then writes no file and draws no
    identifier. *)
Theorem no_image_bad_gateway (o : jsstring) (r : sdkResponse) (h : H) :
  (images r = [] <-> status (fst (fst (respond_with o r h))) = 502) /\
  (images r = [] ->
   respond_with o r h
   = (mkResponse 502 (Failed (lit "Model did not return an image")), h, [])).
Proof.
  pose proof (respond_with_cases o r h) as Hc.
  destruct (respond_with o r h) as [[resp h'] written]. cbn [fst].
  destruct Hc as (ids & Hwr & [(e & -> & Hlt)|[(Hnil & -> & -> & ->)|(Hlen & ds & d & ids0 & id & Hds & _ & ->)]]).
  - split.
    + split.
      * intros Hnil. rewrite Hnil in Hlt. simpl in Hlt. lia.
      * cbn [status catch_response]. destruct (catch_status_cases e) as [E|E]; rewrite E; discriminate.
    + intros Hnil. rewrite Hnil in Hlt. simpl in Hlt. lia.
  - rewrite Hnil in *. subst written. split; [split; reflexivity | reflexivity].
  - split.
    + split; [|discriminate]. intros Hnil. rewrite Hnil in Hds. destruct ds; discriminate.
    + intros Hnil. rewrite Hnil in Hds. destruct ds; discriminate.
Qed.

(** X13. The files.  When the handler answers 200 it has written one file per
    image part, in the order of the parts; the file of the part number [i]
    has [i] in its name and the extension of the part's type; and the URL
    of the answer is that of the last file. *)
Theorem images_written (o : jsstring) (r : sdkResponse) (h h' : H)
    (resp : response) (written : list (jsstring * list N)) :
  respond_with o r h = (resp, h', written) -> status resp = 200 ->
  length written = length (images r) /\
  forall i d,
    nth_error (images r) i = Some d ->
    exists id,
      nth_error written i
      = Some (path_join sys (editedDir sys) (filename_of id i (ext_of sys d)),
              base64_decode sys (or_else (data d) [])) /\
      (S i = length (images r) ->
       exists text,
         payload resp
         = Succeeded (url_of o (filename_of id i (ext_of sys d))) text).
Proof.
  intros Hrun Hok. pose proof (respond_with_cases o r h) as Hc. rewrite Hrun in Hc.
  destruct Hc as (ids & -> & [(e & -> & _)|[(_ & _ & _ & ->)|(Hlen & ds & d0 & ids0 & id0 & Hds & Hids & ->)]]).
  - cbn [status catch_response] in Hok.
    destruct (catch_status_cases e) as [E|E]; rewrite E in Hok; discriminate.
  - discriminate Hok.
  - split; [apply files_for_length; exact Hlen|].
    intros i d Hd.
    assert (Hi : (i < length ids)%nat).
    { rewrite Hlen. apply nth_error_Some. rewrite Hd. discriminate. }
    destruct (files_for_nth sys (images r) 0 ids i d Hd Hi) as (id & Hid & Hf).
    exists id. split; [exact Hf|]. intros Hlast.
    exists (concat (texts r)). cbn [payload].
    assert (Hlens : length ids0 = length ds).
    { rewrite Hds, Hids, !length_app in Hlen. simpl in Hlen. lia. }
    assert (i = length ds) by (rewrite Hds, length_app in Hlast; simpl in Hlast; lia).
    subst i. rewrite Hds, nth_error_app2, Nat.sub_diag in Hd by lia.
    rewrite Hids, nth_error_app2, Hlens, Nat.sub_diag in Hid by lia.
    injection Hd as <-. injection Hid as <-. reflexivity.
Qed.

(** X14. The text.  The text of a successful answer is made of the texts of
    the parts that carry no inline data, in their order; the text of an
    image part is left out. *)
Theorem text_returned (o : jsstring) (r : sdkResponse) (h : H) :
  status (fst (fst (respond_with o r h))) = 200 ->
  exists url, payload (fst (fst (respond_with o r h))) = Succeeded url (concat (texts r)).
Proof.
  pose proof (respond_with_cases o r h) as Hc.
  destruct (respond_with o r h) as [[resp h'] written]. cbn [fst]. intros Hok.
  destruct Hc as (ids & _ & [(e & -> & _)|[(_ & _ & _ & ->)|(_ & ds & d & ids0 & id & _ & _ & ->)]]).
  - cbn [status catch_response] in Hok.
    destruct (catch_status_cases e) as [E|E]; rewrite E in Hok; discriminate.
  - discriminate Hok.
  - eexists. reflexivity.
Qed.

(** X15. A failed write.  When the writing of an image fails, the handler
    answers with the response of its [catch] for that failure, and the files
    of the images before it stay written. *)
Theorem failed_write_keeps_files (o : jsstring) (r : sdkResponse) (h h' : H)
    (resp : response) (written : list (jsstring * list N)) :
  respond_with o r h = (resp, h', written) ->
  status resp <> 200 -> images r <> [] ->
  (exists e, resp = catch_response e) /\
  (length written < length (images r))%nat /\
  forall i d,
    nth_error (images r) i = Some d -> (i < length written)%nat ->
    exists id,
      nth_error written i
      = Some (path_join sys (editedDir sys) (filename_of id i (ext_of sys d)),
              base64_decode sys (or_else (data d) [])).
Proof.
  intros Hrun Hbad Hne. pose proof (respond_with_cases o r h) as Hc. rewrite Hrun in Hc.
  destruct Hc as (ids & -> & [(e & -> & Hlt)|[(Hnil & _)|(_ & ds & d0 & ids0 & id0 & _ & _ & ->)]]).
  - assert (Hlen : length (files_for sys 0 (images r) ids) = length ids)
      by (apply files_for_short; lia).
    split; [exists e; reflexivity|]. split; [lia|].
    intros i d Hd Hi. rewrite Hlen in Hi.
    destruct (files_for_nth sys (images r) 0 ids i d Hd Hi) as (id & _ & Hf).
    exists id. exact Hf.
  - contradiction.
  - contradiction Hbad. reflexivity.
Qed.

(** X16. The gate of the handler.  For a valid request the model is called,
    through [withRetries] with the trimmed prompt and the image, at least
    once and at most three times; for any other request it is not called,
    nothing is written and the answer is no success. *)
Theorem only_valid_requests_reach_model (req : request) (w : W) (h : H) :
  (forall p f,
      valid req p f ->
      retries (edit_image req w h) = snd (withRetries (generateContent p f) 2 w) /\
      (1 <= attempts (retries (edit_image req w h)) <= 3)%nat) /\
  ((forall p f, ~ valid req p f) ->
   retries (edit_image req w h) = [] /\ files (edit_image req w h) = [] /\
   world_after (edit_image req w h) = w /\ host_after (edit_image req w h) = h /\
   status (sent (edit_image req w h)) <> 200).
Proof.
  split.
  - intros p f Hv. apply validate_spec in Hv.
    destruct (edit_image_cases req w h)
      as [(r & Hr & _)|[(e & He & _)|(p' & f' & res & w' & tr & Hc & Hrun & Hres)]];
      try congruence.
    rewrite Hv in Hc. injection Hc as <- <-.
    assert (Htr : retries (edit_image req w h) = tr).
    { destruct res as [sdk|e|]; [| |contradiction]; rewrite Hres; reflexivity. }
    rewrite Htr, Hrun. split; [reflexivity|]. cbn [snd].
    destruct (loop_shape (generateContent p f) 2 (S (Z.to_nat (2 + 1))) 0 Undefined w)
      as (_ & Hbound & Hone & _); [lia|].
    fold (withRetries (generateContent p f) 2 w) in Hbound, Hone.
    rewrite Hrun in Hbound, Hone. cbn [snd] in Hbound, Hone.
    split; [apply Hone; lia|]. change (Z.to_nat (2 + 1 - 0)) with 3%nat in Hbound. exact Hbound.
  - intros Hnone.
    destruct (edit_image_cases req w h)
      as [(r & Hr & ->)|[(e & He & ->)|(p & f & res & w' & tr & Hc & _)]].
    + cbn. repeat split. destruct (validate_rejects req r Hr) as [[E|E] _]; rewrite E; discriminate.
    + cbn. repeat split. destruct (catch_status_cases e) as [E|E]; rewrite E; discriminate.
    + apply validate_spec in Hc. destruct (Hnone p f Hc).
Qed.

(** X17. A failure of the model.  When [withRetries] on the call of the
    model throws, a valid request is answered with the response of the
    [catch] for that failure and nothing is written; and when that response
    has the status 429, the model has been invoked three times, with two
    waits.  The same [catch] answers the failures of [formData] and of
    [Bun.write], of which this says nothing. *)
Theorem too_many_requests_after_three_attempts (req : request) (w : W) (h : H)
    (p : jsstring) (f : file) (e : thrown) :
  valid req p f ->
  fst (fst (withRetries (generateContent p f) 2 w)) = Thrown e ->
  sent (edit_image req w h) = catch_response e /\
  files (edit_image req w h) = [] /\
  host_after (edit_image req w h) = h /\
  (status (sent (edit_image req w h)) = 429 ->
   attempts (retries (edit_image req w h)) = 3%nat /\
   length (sleeps (retries (edit_image req w h))) = 2%nat).
Proof.
  intros Hv Hthrown. apply validate_spec in Hv.
  destruct (edit_image_cases req w h)
    as [(r & Hr & _)|[(e' & He & _)|(p' & f' & res & w' & tr & Hc & Hrun & Hres)]];
    try congruence.
  rewrite Hv in Hc. injection Hc as <- <-.
  rewrite Hrun in Hthrown. cbn [fst] in Hthrown. subst res. rewrite Hres.
  cbn [sent files host_after retries].
  split; [reflexivity|]. split; [reflexivity|]. split; [reflexivity|].
  intros H429. cbn [status catch_response] in H429.
  destruct (loop_exhausted (generateContent p f) 2 (S (Z.to_nat (2 + 1))) 0 Undefined w e)
    as [Hk Hsl]; try lia.
  - fold (withRetries (generateContent p f) 2 w). rewrite Hrun. reflexivity.
  - exact (status_429 e H429).
  - fold (withRetries (generateContent p f) 2 w) in Hk, Hsl. rewrite Hrun in Hk, Hsl.
    cbn [snd] in Hk, Hsl. split; lia.
Qed.

(** The answers of the handler: a success with status 200, the response of
    the [catch], or a failure with a text and one of the other statuses. *)
Lemma sent_cases (req : request) (w : W) (h : H) :
  (exists u t, sent (edit_image req w h) = mkResponse 200 (Succeeded u t)) \/
  (exists e, sent (edit_image req w h) = catch_response e) \/
  (exists st msg,
      sent (edit_image req w h) = mkResponse st (Failed msg) /\
      msg <> [] /\ In st [400; 500; 502]).
Proof.
  destruct (edit_image_cases req w h)
    as [(r & Hr & ->)|[(e & He & ->)|(p & f & res & w' & tr & _ & _ & Hres)]].
  - right. right. destruct (validate_rejects req r Hr) as [Hst (msg & Hp & Hne)].
    destruct r as [st pl]. cbn in *. subst pl. exists st, msg.
    repeat split; try assumption. simpl. destruct Hst; auto.
  - right. left. exists e. reflexivity.
  - destruct res as [sdk|e|]; [|right; left; exists e; rewrite Hres; reflexivity|contradiction].
    rewrite Hres. cbn [sent].
    pose proof (respond_with_cases (origin req) sdk h) as Hc.
    destruct (respond_with (origin req) sdk h) as [[resp h'] written]. cbn [fst].
    destruct Hc as (ids & _ & [(e & -> & _)|[(_ & _ & _ & ->)|(_ & ds & d & ids0 & id & _ & _ & ->)]]).
    + right. left. exists e. reflexivity.
    + right. right. eexists; eexists. split; [reflexivity|].
      split; [vm_compute; discriminate | simpl; auto].
    + left. eexists; eexists. reflexivity.
Qed.

End Server.

(** Instances on concrete runs. *)

Lemma no_image_bad_gateway_witness :
  respond_with disk here only_words 0%nat
  = (mkResponse 502 (Failed (lit "Model did not return an image")), 0%nat, []).
Proof.
  apply (proj2 (no_image_bad_gateway disk here only_words 0%nat)).
  vm_compute. reflexivity.
Defined.

Lemma images_written_witness :
  length (snd (respond_with disk here two_pictures 0%nat))
  = length (images two_pictures) /\
  forall i d,
    nth_error (images two_pictures) i = Some d ->
    exists id,
      nth_error (snd (respond_with disk here two_pictures 0%nat)) i
      = Some (path_join disk (editedDir disk) (filename_of id i (ext_of disk d)),
              base64_decode disk (or_else (data d) [])) /\
      (S i = length (images two_pictures) ->
       exists text,
         payload (fst (fst (respond_with disk here two_pictures 0%nat)))
         = Succeeded (url_of here (filename_of id i (ext_of disk d))) text).
Proof.
  apply (images_written disk here two_pictures 0%nat
           (snd (fst (respond_with disk here two_pictures 0%nat)))).
  - vm_compute. reflexivity.
  - vm_compute. reflexivity.
Defined.

Lemma text_returned_witness :
  exists url,
    payload (fst (fst (respond_with disk here two_pictures 0%nat)))
    = Succeeded url (concat (texts two_pictures)).
Proof.
  apply (text_returned disk here two_pictures 0%nat).
  vm_compute. reflexivity.
Defined.

Lemma failed_write_keeps_files_witness :
  (exists e, fst (fst (respond_with full_disk here two_pictures 0%nat)) = catch_response e) /\
  (length (snd (respond_with full_disk here two_pictures 0%nat))
   < length (images two_pictures))%nat /\
  forall i d,
    nth_error (images two_pictures) i = Some d ->
    (i < length (snd (respond_with full_disk here two_pictures 0%nat)))%nat ->
    exists id,
      nth_error (snd (respond_with full_disk here two_pictures 0%nat)) i
      = Some (path_join full_disk (editedDir full_disk)
                (filename_of id i (ext_of full_disk d)),
              base64_decode full_disk (or_else (data d) [])).
Proof.
  apply (failed_write_keeps_files full_disk here two_pictures 0%nat
           (snd (fst (respond_with full_disk here two_pictures 0%nat)))).
  - vm_compute. reflexivity.
  - vm_compute. discriminate.
  - vm_compute. discriminate.
Defined.

Lemma good_request_valid : valid good_request (lit "add a hat") cat.
Proof.
  exists (lit "secret"), multipart, (lit "  add a hat ").
  split; [reflexivity|]. split; [discriminate|]. split; [reflexivity|].
  split; [vm_compute; reflexivity|]. split; [reflexivity|].
  split; [vm_compute; reflexivity|]. split; [vm_compute; lia|].
  split; [vm_compute; auto|]. vm_compute. discriminate.
Defined.

Lemma only_valid_requests_reach_model_witness :
  retries (edit_image disk (model two_pictures) good_request 0%nat 0%nat)
  = snd (withRetries (model two_pictures (lit "add a hat") cat) 2 0%nat) /\
  (1 <= attempts (retries (edit_image disk (model two_pictures) good_request 0%nat 0%nat))
   <= 3)%nat.
Proof.
  apply (proj1 (only_valid_requests_reach_model disk (model two_pictures)
                  good_request 0%nat 0%nat)).
  exact good_request_valid.
Defined.

Lemma too_many_requests_after_three_attempts_witness :
  sent (edit_image disk busy_model good_request 0%nat 0%nat)
  = catch_response (ErrorObject 2 exhausted_doc) /\
  files (edit_image disk busy_model good_request 0%nat 0%nat) = [] /\
  host_after (edit_image disk busy_model good_request 0%nat 0%nat) = 0%nat /\
  (status (sent (edit_image disk busy_model good_request 0%nat 0%nat)) = 429 ->
   attempts (retries (edit_image disk busy_model good_request 0%nat 0%nat)) = 3%nat /\
   length (sleeps (retries (edit_image disk busy_model good_request 0%nat 0%nat))) = 2%nat).
Proof.
  apply (too_many_requests_after_three_attempts disk busy_model good_request 0%nat 0%nat
           (lit "add a hat") cat (ErrorObject 2 exhausted_doc)).
  - exact good_request_valid.
  - vm_compute. reflexivity.
Defined.

End ServerFacts.

Import ServerFacts.

Module ClientFacts.

Lemma handleFile_accepts (f : file) :
  snd (handleFile (Some f)) = Some f <->
  In (file_type f) allowedMime /\ file_size f <= sizeLimit.
Proof.
  unfold handleFile. rewrite <- allowed_spec.
  destruct (allowed (file_type f)); cbn [negb snd].
  - change (5 * 1024 * 1024) with sizeLimit.
    destruct (Z.ltb_spec sizeLimit (file_size f)); cbn [snd]; split.
    + discriminate.
    + intros [_ Hs]. lia.
    + intros _. split; [reflexivity | assumption].
    + reflexivity.
  - split; [discriminate | intros [Hf _]; discriminate Hf].
Qed.

Lemma canSubmit_spec (f : file) (raw : jsstring) :
  canSubmit (Some f) raw = true <-> (1 <= length (trim raw) <= 500)%nat.
Proof.
  unfold canSubmit. rewrite andb_true_iff, Nat.ltb_lt, Nat.leb_le. lia.
Qed.

(** White space at the end does not change what [trim] returns. *)
Lemma trim_start_snoc (v : jsstring) (c : N) :
  is_str_ws c = true ->
  trim_start (v ++ [c]) = match trim_start v with [] => [] | t => t ++ [c] end.
Proof.
  intros Hc. induction v as [|d v IH]; cbn [app trim_start].
  - rewrite Hc. reflexivity.
  - destruct (is_str_ws d); [exact IH | reflexivity].
Qed.

Lemma trim_snoc (v : jsstring) (c : N) :
  is_str_ws c = true -> trim (v ++ [c]) = trim v.
Proof.
  intros Hc. unfold trim. rewrite (trim_start_snoc v c Hc).
  destruct (trim_start v) as [|d t]; [reflexivity|].
  rewrite rev_app_distr. cbn [rev app trim_start]. rewrite Hc. reflexivity.
Qed.

(** ** The web client *)

(** ** The form on its way to the handler *)

Lemma to_USVString_from_length (s : jsstring) :
  forall b, length (to_USVString_from b s) = length s.
Proof.
  induction s as [|c s IH]; intros b; cbn [to_USVString_from]; [reflexivity|].
  destruct (is_trail c); [cbn [length]; rewrite IH; reflexivity|].
  destruct (is_lead c); cbn [length]; rewrite IH; reflexivity.
Qed.

Lemma normalize_newlines_from_length (s : jsstring) :
  forall b, (length s <= length (normalize_newlines_from b s))%nat.
Proof.
  induction s as [|c s IH]; intros b; cbn [normalize_newlines_from]; [lia|].
  destruct (N.eqb c 13).
  - rewrite length_app. specialize (IH true).
    destruct (match s with d :: _ => N.eqb d 10 | [] => false end); cbn [length]; lia.
  - destruct (N.eqb c 10).
    + rewrite length_app. specialize (IH false). destruct b; cbn [length]; lia.
    + cbn [length]. specialize (IH false). lia.
Qed.

Lemma on_the_wire_length (s : jsstring) : (length s <= length (on_the_wire s))%nat.
Proof.
  unfold on_the_wire, normalize_newlines, to_USVString.
  pose proof (normalize_newlines_from_length (to_USVString_from false s) false) as H.
  rewrite to_USVString_from_length in H. exact H.
Qed.

(** A value without line breaks and without surrogates arrives as it was
    sent. *)
Lemma plain_on_the_wire (s : jsstring) : plain s = true -> on_the_wire s = s.
Proof.
  unfold on_the_wire, normalize_newlines, to_USVString. intros Hp.
  assert (Hu : forall b, to_USVString_from b s = s).
  { induction s as [|c s IH]; intros b; [reflexivity|].
    cbn [plain forallb] in Hp. apply andb_true_iff in Hp as [Hc Hs].
    apply negb_true_iff in Hc. repeat (apply orb_false_iff in Hc as [Hc ?]).
    cbn [to_USVString_from].
    replace (is_trail c) with false by congruence.
    replace (is_lead c) with false by congruence.
    rewrite (IH Hs). reflexivity. }
  rewrite Hu.
  assert (Hn : forall b, normalize_newlines_from b s = s).
  { clear Hu. induction s as [|c s IH]; intros b; [reflexivity|].
    cbn [plain forallb] in Hp. apply andb_true_iff in Hp as [Hc Hs].
    apply negb_true_iff in Hc. repeat (apply orb_false_iff in Hc as [Hc ?]).
    cbn [normalize_newlines_from].
    replace (N.eqb c 13) with false by congruence.
    replace (N.eqb c 10) with false by congruence.
    rewrite (IH Hs). reflexivity. }
  apply Hn.
Qed.

(** No surrogate is white space, and neither is U+FFFD. *)
Lemma surrogate_no_space (c : N) :
  is_lead c = true \/ is_trail c = true -> is_str_ws c = false.
Proof.
  unfold is_lead, is_trail, is_str_ws.
  intros [H|H]; apply andb_true_iff in H as [H1 H2];
    apply N.leb_le in H1; apply N.leb_le in H2;
    repeat match goal with
           | |- context [N.eqb c ?k] =>
               destruct (N.eqb_spec c k); [lia|]
           | |- context [(?a <=? ?b)%N] =>
               destruct (N.leb_spec a b); [try lia|try lia]
           end; reflexivity.
Qed.

Lemma to_USVString_from_head (b : bool) (c : N) (s : jsstring) :
  is_str_ws c = false ->
  exists c' t, to_USVString_from b (c :: s) = c' :: t /\ is_str_ws c' = false.
Proof.
  intros Hc. cbn [to_USVString_from].
  destruct (is_trail c); [destruct b|destruct (is_lead c);
    [destruct (match s with d :: _ => is_trail d | [] => false end)|]];
    eexists; eexists; (split; [reflexivity|]); assumption || reflexivity.
Qed.

Lemma to_USVString_from_last (x : N) (l : jsstring) :
  is_str_ws x = false ->
  forall b, exists l' x',
    to_USVString_from b (l ++ [x]) = l' ++ [x'] /\ is_str_ws x' = false.
Proof.
  intros Hx. induction l as [|c l IH]; intros b.
  - destruct (to_USVString_from_head b x [] Hx) as (c' & t & E & Hc').
    cbn [app]. exists [], c'. split; [|exact Hc'].
    rewrite E. f_equal.
    assert (Hl : length (to_USVString_from b [x]) = 1%nat)
      by apply to_USVString_from_length.
    rewrite E in Hl. destruct t; [reflexivity|discriminate Hl].
  - cbn [app to_USVString_from].
    destruct (is_trail c).
    + destruct (IH false) as (l' & x' & E & Hx'). rewrite E.
      eexists (_ :: l'), x'. split; [reflexivity|exact Hx'].
    + destruct (is_lead c).
      * destruct (IH (match l ++ [x] with d :: _ => is_trail d | [] => false end))
          as (l' & x' & E & Hx'). rewrite E.
        eexists (_ :: l'), x'. split; [reflexivity|exact Hx'].
      * destruct (IH false) as (l' & x' & E & Hx'). rewrite E.
        eexists (_ :: l'), x'. split; [reflexivity|exact Hx'].
Qed.

Lemma no_space_no_newline (c : N) :
  is_str_ws c = false -> N.eqb c 13 = false /\ N.eqb c 10 = false.
Proof.
  intros Hc. split.
  - destruct (N.eqb_spec c 13) as [->|]; [discriminate Hc|reflexivity].
  - destruct (N.eqb_spec c 10) as [->|]; [discriminate Hc|reflexivity].
Qed.

Lemma normalize_newlines_from_head (b : bool) (c : N) (s : jsstring) :
  is_str_ws c = false ->
  normalize_newlines_from b (c :: s) = c :: normalize_newlines_from false s.
Proof.
  intros Hc. destruct (no_space_no_newline c Hc) as [H13 H10].
  cbn [normalize_newlines_from]. rewrite H13, H10. reflexivity.
Qed.

Lemma normalize_newlines_from_last (x : N) (l : jsstring) :
  is_str_ws x = false ->
  forall b, exists l', normalize_newlines_from b (l ++ [x]) = l' ++ [x].
Proof.
  intros Hx. induction l as [|c l IH]; intros b.
  - cbn [app]. rewrite (normalize_newlines_from_head b x [] Hx). exists []. reflexivity.
  - cbn [app normalize_newlines_from].
    destruct (N.eqb c 13).
    + destruct (IH true) as (l' & E). rewrite E. rewrite app_assoc.
      eexists. reflexivity.
    + destruct (N.eqb c 10).
      * destruct (IH false) as (l' & E). rewrite E. rewrite app_assoc.
        eexists. reflexivity.
      * destruct (IH false) as (l' & E). rewrite E.
        exists (c :: l'). reflexivity.
Qed.

Lemma trim_start_head (s t : jsstring) (c : N) :
  trim_start s = c :: t -> is_str_ws c = false.
Proof.
  induction s as [|d s IH]; cbn [trim_start]; [discriminate|].
  destruct (is_str_ws d) eqn:E; [exact IH|]. intros [= <- <-]. exact E.
Qed.

Lemma trim_start_trim (s : jsstring) : trim_start (trim s) = trim s.
Proof.
  unfold trim.
  set (t := trim_start s). set (u := trim_start (rev t)).
  destruct (trim_start_suffix (rev t)) as [p Hp]. fold u in Hp.
  apply (trim_start_prefix_fixed (rev u) (rev p)).
  rewrite <- rev_app_distr, <- Hp, rev_involutive.
  apply trim_start_idem.
Qed.

(** What [trim] returns is empty, or begins and ends with a code unit that
    is no white space. *)
Lemma trim_shape (s : jsstring) :
  trim s = [] \/
  exists c t l x, trim s = c :: t /\ trim s = l ++ [x] /\
                  is_str_ws c = false /\ is_str_ws x = false.
Proof.
  pose proof (trim_start_trim s) as Hfix.
  destruct (trim s) as [|c t] eqn:E; [left; reflexivity|right].
  assert (Hc : is_str_ws c = false) by exact (trim_start_head _ _ _ Hfix).
  unfold trim in E.
  destruct (trim_start (rev (trim_start s))) as [|x u] eqn:Eu; [discriminate E|].
  pose proof (trim_start_head _ _ _ Eu) as Hx.
  cbn [rev] in E. exists c, t, (rev u), x.
  repeat split; try assumption. symmetry. exact E.
Qed.

Lemma trim_fixed (s t l : jsstring) (c x : N) :
  s = c :: t -> s = l ++ [x] -> is_str_ws c = false -> is_str_ws x = false ->
  trim s = s.
Proof.
  intros Hs Hl Hc Hx. unfold trim.
  assert (H1 : trim_start s = s) by (rewrite Hs; cbn [trim_start]; rewrite Hc; reflexivity).
  rewrite H1. rewrite Hl at 1. rewrite rev_app_distr. cbn [rev app trim_start].
  rewrite Hx. change (x :: rev l) with (rev [x] ++ rev l).
  rewrite <- rev_app_distr, rev_involutive. symmetry. exact Hl.
Qed.

(** What was trimmed before it was sent needs no trimming when it
    arrives. *)
Lemma on_the_wire_trim (s : jsstring) :
  trim (on_the_wire (trim s)) = on_the_wire (trim s).
Proof.
  destruct (trim_shape s) as [->|(c & t & l & x & Hh & Hl & Hc & Hx)]; [reflexivity|].
  unfold on_the_wire, normalize_newlines, to_USVString.
  destruct (to_USVString_from_last x l Hx false) as (l1 & x1 & E1 & Hx1).
  destruct (to_USVString_from_head false c t Hc) as (c1 & t1 & E2 & Hc1).
  rewrite <- Hl in E1. rewrite <- Hh in E2.
  destruct (normalize_newlines_from_last x1 l1 Hx1 false) as (l2 & E3).
  rewrite <- E1 in E3.
  pose proof (normalize_newlines_from_head false c1 t1 Hc1) as E4.
  rewrite <- E2 in E4.
  exact (trim_fixed _ _ _ _ _ E4 E3 Hc1 Hx1).
Qed.

Lemma validate_too_long (key ct o p : jsstring) (f : file) :
  key <> [] -> includes ct (lit "multipart/form-data") = true ->
  (500 < length (trim p))%nat ->
  validate (mkRequest (Some key) (Some ct) (inr (mkForm (Upload f) (Text p))) o)
  = Respond (bad_request "Prompt must be at most 500 characters").
Proof.
  intros Hk Hc Hlen. unfold validate.
  cbn [GEMINI_API_KEY content_type formData form_image form_prompt].
  destruct key as [|k0 key]; [contradiction|]. cbn [falsy is_empty or_else].
  destruct ct as [|c0 ct]; [discriminate Hc|]. cbn [is_empty].
  rewrite Hc. cbn [negb].
  destruct p as [|r0 p]; [cbn in Hlen; lia|]. cbn [is_empty].
  destruct (Nat.eqb_spec (length (trim (r0 :: p))) 0); [lia|].
  destruct (Nat.ltb_spec 500 (length (trim (r0 :: p)))); [reflexivity|lia].
Qed.

(** X18. The two gates.  Given a server with its key and a multipart request,
    the checks of the handler pass on the form that [mutationFn] builds, as
    it arrives, exactly when the page lets the file and the prompt through,
    by [handleFile] and [canSubmit], and the trimmed prompt as it arrives
    has at most 500 code units; the model then gets that prompt.  A prompt
    without line breaks and surrogates arrives as it was trimmed, so that
    the two gates agree on it.  They do not agree on every prompt: one of
    500 code units with a line break passes [canSubmit] and is answered
    400. *)
Theorem submit_gate_and_server (key ct o raw : jsstring) (f : file)
    (sent_form : form) :
  key <> [] -> includes ct (lit "multipart/form-data") = true ->
  submitted (Some f) raw = inr sent_form ->
  (forall p f',
      validate (mkRequest (Some key) (Some ct) (inr (arrives sent_form)) o)
      = Continue (p, f')
      <-> canSubmit (Some f) raw = true /\ snd (handleFile (Some f)) = Some f /\
          (length (on_the_wire (trim raw)) <= 500)%nat /\
          p = on_the_wire (trim raw) /\ f' = f) /\
  (plain (trim raw) = true -> on_the_wire (trim raw) = trim raw) /\
  (canSubmit (Some f) long_prompt = true /\
   forall sent_long,
     submitted (Some f) long_prompt = inr sent_long ->
     validate (mkRequest (Some key) (Some ct) (inr (arrives sent_long)) o)
     = Respond (bad_request "Prompt must be at most 500 characters")).
Proof.
  intros Hk Hc [= <-]. split; [|split; [apply plain_on_the_wire|]].
  - intros p f'. rewrite canSubmit_spec, handleFile_accepts, validate_spec.
    unfold valid, arrives.
    cbn [GEMINI_API_KEY content_type formData form_image form_prompt].
    pose proof (on_the_wire_length (trim raw)) as Hlen.
    pose proof (on_the_wire_trim raw) as Htrim. split.
    + intros (key' & ct' & raw' & _ & _ & _ & _ & [= <- <-] & -> & Hl & Ha & Hs).
      rewrite Htrim in *.
      assert (trim raw <> []) by (intros E; rewrite E in Hl; cbn in Hl; lia).
      destruct (trim raw) eqn:E; [contradiction|]. cbn [length] in *.
      repeat split; try assumption; lia.
    + intros (Hl & (Ha & Hs) & Hw & -> & ->).
      exists key, ct, (on_the_wire (trim raw)). rewrite Htrim.
      repeat split; try assumption; lia.
  - split; [vm_compute; reflexivity|]. intros sent_long [= <-]. unfold arrives.
    cbn [form_image form_prompt].
    apply validate_too_long; [assumption|assumption|].
    vm_compute. lia.
Qed.

(** X19. The counter.  A prompt that the counter does not mark as too long
    and that is not blank can be submitted; but the counter counts the text
    as typed and the gate the trimmed text, so a prompt of 500 characters or
    more that can be submitted is, with a space added, marked as too long
    and still can be submitted. *)
Theorem counter_and_gate (value : jsstring) (f : file) :
  (tooLong 500 value = false -> trim value <> [] ->
   canSubmit (Some f) value = true) /\
  (canSubmit (Some f) value = true -> (500 <= length value)%nat ->
   tooLong 500 (value ++ lit " ") = true /\
   canSubmit (Some f) (value ++ lit " ") = true).
Proof.
  split.
  - unfold tooLong, remaining. intros Hlong Hne.
    apply Z.ltb_ge in Hlong. apply canSubmit_spec.
    pose proof (trim_length value). destruct (trim value); [contradiction|].
    cbn [length] in *. lia.
  - intros Hcan Hlen. split.
    + unfold tooLong, remaining. apply Z.ltb_lt. rewrite length_app.
      change (length (lit " ")) with 1%nat. lia.
    + apply canSubmit_spec. change (lit " ") with [32%N].
      rewrite (trim_snoc value 32 eq_refl). apply canSubmit_spec in Hcan. exact Hcan.
Qed.

Lemma received_failure (r : response) (msg : jsstring) :
  received r = inl msg -> msg <> [] /\ toast msg = msg.
Proof.
  assert (Hfb : lit "Request failed with " ++ decimal (Z.to_nat (status r)) <> []).
  { intros Hnil. apply app_eq_nil in Hnil as [Hnil _]. discriminate Hnil. }
  assert (Hor : forall m, or_else (Some m)
                            (lit "Request failed with " ++ decimal (Z.to_nat (status r)))
                          <> []).
  { intros m. cbn [or_else]. destruct m; cbn [is_empty]; [exact Hfb | discriminate]. }
  assert (Hmsg : forall x : jsstring, x <> [] -> toast x = x).
  { intros x Hne. unfold toast. cbn [or_else]. destruct x; [contradiction | reflexivity]. }
  unfold received.
  destruct (payload r) as [m|m hint|u t]; [| |destruct (ok r); [discriminate|]];
    intros [= <-]; (split; [|apply Hmsg]); first [apply Hor | discriminate].
Qed.

Section Server.

Context {H W : Type}.
Variable sys : host H.
Variable generateContent : jsstring -> file -> unit_of_work sdkResponse W.

(** X20. Reading the answer.  Whatever the request, [mutationFn] returns the
    image and the text of a successful answer of the handler, and for any
    other answer throws an error with the handler's own text, or with the
    status when that text is empty; the toast then shows that message and
    never its fallback text. *)
Theorem client_reads_answer (req : request) (w : W) (h : H) :
  (forall u t,
      payload (sent (edit_image sys generateContent req w h)) = Succeeded u t ->
      received (sent (edit_image sys generateContent req w h)) = inr (u, t)) /\
  (forall m,
      payload (sent (edit_image sys generateContent req w h)) = Failed m \/
      (exists hint,
          payload (sent (edit_image sys generateContent req w h)) = FailedWithHint m hint) ->
      received (sent (edit_image sys generateContent req w h))
      = inl (if is_empty m
             then lit "Request failed with "
                  ++ decimal (Z.to_nat (status (sent (edit_image sys generateContent req w h))))
             else m)) /\
  (forall msg,
      received (sent (edit_image sys generateContent req w h)) = inl msg ->
      msg <> [] /\ toast msg = msg).
Proof.
  split; [|split].
  - intros u t Hp.
    destruct (sent_cases sys generateContent req w h)
      as [(u' & t' & Hs)|[(e & Hs)|(st & msg & Hs & _)]];
      rewrite Hs in *; cbn [payload catch_response] in Hp; try discriminate.
    injection Hp as -> ->. reflexivity.
  - intros m [Hp|(hint & Hp)]; unfold received; rewrite Hp; reflexivity.
  - intros msg. apply received_failure.
Qed.

End Server.

(** Instances on concrete runs. *)

Lemma submit_gate_and_server_witness :
  validate (mkRequest (Some (lit "secret")) (Some multipart)
              (inr (arrives (mkForm (Upload cat) (Text (lit "add a hat"))))) here)
  = Continue (lit "add a hat", cat)
  <-> canSubmit (Some cat) (lit "  add a hat ") = true /\
      snd (handleFile (Some cat)) = Some cat /\
      (length (on_the_wire (trim (lit "  add a hat "))) <= 500)%nat /\
      lit "add a hat" = on_the_wire (trim (lit "  add a hat ")) /\ cat = cat.
Proof.
  destruct (submit_gate_and_server (lit "secret") multipart here (lit "  add a hat ") cat
              (mkForm (Upload cat) (Text (lit "add a hat")))) as [H _].
  - discriminate.
  - vm_compute. reflexivity.
  - vm_compute. reflexivity.
  - exact (H (lit "add a hat") cat).
Defined.

Lemma counter_and_gate_witness : canSubmit (Some cat) (lit "add a hat ") = true.
Proof.
  apply (proj1 (counter_and_gate (lit "add a hat ") cat)).
  - vm_compute. reflexivity.
  - vm_compute. discriminate.
Defined.

Lemma client_reads_answer_witness :
  received (sent (edit_image disk (model two_pictures) good_request 0%nat 0%nat))
  = inr (lit "http://localhost:3000/edited/uuid1-1.jpeg", lit "Here you go").
Proof.
  apply (proj1 (client_reads_answer disk (model two_pictures) good_request 0%nat 0%nat)).
  vm_compute. reflexivity.
Defined.

End ClientFacts.
